(** * Elo rating calculator (github.com/mcvoid/elo): a shallow embedding of
    [elo.go] and the properties its specification states.

    Layout:
    - [Float64]: the float64 operations the program uses, as an interface,
      with two instances: IEEE binary64 (Rocq's primitive floats, [math.Pow]
      supplied by the caller) and exact real arithmetic ([R], [Rpower]);
    - the Go runtime pieces the program relies on: slices as lists with
      index checks that panic, [for ... range] loops, [slices.Clone],
      [slices.Min], [slices.Max], [slices.SortStableFunc], int64 division;
    - the program: [cmp], [normalize], [lerp], [Calculate], [FFA], [Golf],
      [Place], [Race], [H2H];
    - module [Mem]: the same program over an explicit store of backing
      arrays, for the statements about mutation and aliasing;
    - the statements of the specification, with their supporting lemmas;
    - further properties of the program. *)

From Stdlib Require Import ZArith Reals Lra Floats String.
From stdpp Require Import base tactics option list sorting gmap.

Set Warnings "-inexact-float".

(** ** float64 *)

(** The operations on float64 that [elo.go] uses, and the constants it
    writes.  [fabs] is [math.Abs], [fmin] and [fmax] are Go's built-in [min]
    and [max] (the ones [slices.Min] and [slices.Max] fold with), [flt] is [<]
    ([a > b] is [flt b a]), [of_int64] is the conversion [float64(n)]. *)
Class Float64 (F : Type) := {
  fzero : F;
  fhalf : F;
  fone : F;
  ften : F;
  feps : F;
  fadd : F → F → F;
  fsub : F → F → F;
  fmul : F → F → F;
  fdiv : F → F → F;
  fabs : F → F;
  flt : F → F → bool;
  fmin : F → F → F;
  fmax : F → F → F;
  of_int64 : Z → F;
}.

(** [<] is a strict order: nothing is below itself, and below is
    transitive. *)
Class FloatOrder (F : Type) `{!Float64 F} := {
  flt_irrefl : ∀ x : F, flt x x = false;
  flt_trans : ∀ x y z : F, flt x y = true → flt y z = true → flt x z = true;
}.

(** [math.Pow], of Go's standard library. *)
Class MathPow (F : Type) := Pow : F → F → F.

Declare Scope F_scope.
Delimit Scope F_scope with fl.
Infix "+" := fadd : F_scope.
Infix "-" := fsub : F_scope.
Infix "*" := fmul : F_scope.
Infix "/" := fdiv : F_scope.
Infix "<?" := flt : F_scope.

(** IEEE 754 binary64, the float64 of the Go program.  There is no instance
    of [MathPow] for it: what is proved of [Calculate] on binary64 holds for
    every function in the place of [math.Pow]. *)
Module B64.
Definition min (a b : float) : float :=
  if PrimFloat.is_nan a then a
  else if PrimFloat.is_nan b then b
  else if PrimFloat.ltb a b then a
  else if PrimFloat.ltb b a then b
  else if PrimFloat.get_sign a then a else b.

Definition max (a b : float) : float :=
  if PrimFloat.is_nan a then a
  else if PrimFloat.is_nan b then b
  else if PrimFloat.ltb a b then b
  else if PrimFloat.ltb b a then a
  else if PrimFloat.get_sign a then b else a.

Definition of_Z (z : Z) : float :=
  SF2Prim (SpecFloat.binary_normalize prec emax z 0 false).

(** [math.Pow] on the exponents 0 and 1, where its documentation fixes the
    result for every base: [Pow(x, ±0) = 1] and [Pow(x, 1) = x].  NaN marks
    the results this file does not compute: what is proved with [Pow_0_1]
    evaluates it at these two exponents only. *)
Definition Pow_0_1 : MathPow float :=
  λ x y, if PrimFloat.eqb y 0 then 1%float
         else if PrimFloat.eqb y 1 then x else nan.

#[global] Instance ops : Float64 float := {|
  fzero := 0%float;
  fhalf := 0.5%float;
  fone := 1%float;
  ften := 10%float;
  feps := 1e-9%float;
  fadd := PrimFloat.add;
  fsub := PrimFloat.sub;
  fmul := PrimFloat.mul;
  fdiv := PrimFloat.div;
  fabs := PrimFloat.abs;
  flt := PrimFloat.ltb;
  fmin := min;
  fmax := max;
  of_int64 := of_Z;
|}.
End B64.

(** Exact arithmetic: the reals, with [Rpower] for [math.Pow].  Division is
    total on [R] ([x / 0] is a real number, where float64 gives an infinity
    or NaN): a statement over the reals that divides by [Base] carries the
    hypothesis that [Base] is not zero. *)
Module Exact.
Definition ltb (a b : R) : bool := if Rlt_dec a b then true else false.

#[global] Instance ops : Float64 R := {|
  fzero := 0%R;
  fhalf := (/ 2)%R;
  fone := 1%R;
  ften := 10%R;
  feps := (/ 1000000000)%R;
  fadd := Rplus;
  fsub := Rminus;
  fmul := Rmult;
  fdiv := Rdiv;
  fabs := Rabs;
  flt := ltb;
  fmin := Rmin;
  fmax := Rmax;
  of_int64 := IZR;
|}.

#[global] Instance pow : MathPow R := Rpower.
End Exact.

(** ** The Go runtime, as far as the program uses it *)

(** A computation that may panic has an [option] type: [None] is a run-time
    panic (index out of range, integer division by zero, [slices.Min] of an
    empty slice). *)

(** [s[i] = v]: panics when [i] is out of range. *)
Definition set_index {A} (s : list A) (i : nat) (v : A) : option (list A) :=
  if decide (i < length s) then Some (<[i:=v]> s) else None.

(** [make([]T, n)]: [n] zero values. *)
Definition make {A} (n : nat) (zero : A) : list A := replicate n zero.

(** [slices.Clone(s)]: a slice with the same elements. *)
Definition Clone {A} (s : list A) : list A := s.

(** [for i := from; i < from + n; i++ { st = body(i, st) }], stopping at the
    first panic.  The loop is written once for every monad [M] of
    computations: [option] here, and the computations over a store of
    module [Mem]. *)
Fixpoint for_from {M : Type → Type} `{!MBind M, !MRet M} {St}
    (from n : nat) (body : nat → St → M St) (st : St) : M St :=
  match n with
  | 0 => mret st
  | S n' => st' ← body from st; for_from (S from) n' body st'
  end.

(** [for i := range n]. *)
Definition for_range {M : Type → Type} `{!MBind M, !MRet M} {St}
    (n : nat) (body : nat → St → M St) (st : St) : M St :=
  for_from 0 n body st.

(** int64 as [Z] with two's-complement wrap-around. *)
Definition int64_wrap (z : Z) : Z :=
  ((z + 2 ^ 63) `mod` 2 ^ 64 - 2 ^ 63)%Z.

Definition int64_range (z : Z) : Prop := (- 2 ^ 63 ≤ z < 2 ^ 63)%Z.

(** [a / b] on int64: truncates toward zero, wraps on [MinInt64 / -1], and
    panics when [b] is zero. *)
Definition int64_div (a b : Z) : option Z :=
  if decide (b = 0%Z) then None else Some (int64_wrap (a ÷ b)).

(** [slices.SortStableFunc(x, cmp)], by the insertion sort the library runs
    on short slices: for [i] from 1, [x[i]] moves left while it compares
    below its left neighbour.  The sorted prefix is kept reversed, so the
    left neighbour is the head.  [cmp] may panic.  The library runs this
    insertion sort on blocks of 20 elements and merges the blocks: the two
    are the same on up to 20 elements, and on more they give the same order
    when [cmp] is a strict weak order on the elements (no NaN among the
    scores), where a slice has one stable sorted order only. *)
Fixpoint insert_left {M : Type → Type} `{!MBind M, !MRet M} {A}
    (cmp : A → A → M Z) (x : A) (rev_prefix : list A) : M (list A) :=
  match rev_prefix with
  | [] => mret [x]
  | y :: rest =>
      c ← cmp x y;
      if decide (c < 0)%Z
      then (rest' ← insert_left cmp x rest; mret (y :: rest'))
      else mret (x :: y :: rest)
  end.

Fixpoint sort_from {M : Type → Type} `{!MBind M, !MRet M} {A}
    (cmp : A → A → M Z) (rev_prefix todo : list A) : M (list A) :=
  match todo with
  | [] => mret (reverse rev_prefix)
  | x :: todo' =>
      rev_prefix' ← insert_left cmp x rev_prefix;
      sort_from cmp rev_prefix' todo'
  end.

Definition SortStableFunc {M : Type → Type} `{!MBind M, !MRet M} {A}
    (x : list A) (cmp : A → A → M Z) : M (list A) :=
  sort_from cmp [] x.

(** The built-in [copy(dst, src)]: the first [min(len(dst), len(src))]
    elements of [dst] are overwritten. *)
Definition copy {A} (dst src : list A) : list A :=
  let n := length dst `min` length src in
  take n src ++ drop n dst.

(** ** The program *)

Definition error := string.

(** [type Player interface { Rating() float64; KFactor() float64 }] *)
Class Player (F P : Type) := {
  Rating : P → F;
  KFactor : P → F;
}.

(** The [player] struct of [elo_test.go]. *)
Record player (F : Type) := mk_player { p_r : F; p_k : F }.
Arguments mk_player {F} _ _.
Arguments p_r {F} _.
Arguments p_k {F} _.

#[global] Instance player_Player F : Player F (player F) := {|
  Rating := p_r;
  KFactor := p_k;
|}.

(** [type Elo struct { Base float64 }] *)
Record Elo (F : Type) := mk_Elo { Base : F }.
Arguments mk_Elo {F} _.
Arguments Base {F} _.

Section program.
Context {F : Type} `{!Float64 F, !MathPow F}.
Local Open Scope F_scope.

(** [var Default = Elo{400}]; the constant 400 converts exactly. *)
Definition Default : Elo F := mk_Elo (of_int64 400).

(** [cmp(s)]: compares two entries of [s] given their indices. *)
Definition cmp (s : list F) (a b : nat) : option Z :=
  sA ← s !! a;
  sB ← s !! b;
  if sA <? sB then Some (-1)%Z
  else if sB <? sA then Some 1%Z
  else Some 0%Z.

Definition ErrLength : error :=
  "ratings, kValues, and normalizedScores should be the same length"%string.

(** The body of the loop [for i, j := range idx] that fills [r], [k], [s]. *)
Definition gather_body (idx : list nat) (ratings kFactors normalizedScores : list F)
    (i : nat) (st : list F * list F * list F) : option (list F * list F * list F) :=
  let '(r, k, s) := st in
  j ← idx !! i;
  x ← ratings !! j;
  r ← set_index r i x;
  x ← kFactors !! j;
  k ← set_index k i x;
  x ← normalizedScores !! j;
  s ← set_index s i x;
  Some (r, k, s).

(** The body of the loop [for a := 0; a < l-1; a++]. *)
Definition pair_body (e : Elo F) (r k s : list F) (a : nat) (diffs : list F)
  : option (list F) :=
  let b := (a + 1)%nat in
  ra ← r !! a;
  rb ← r !! b;
  let Qa := Pow ften (ra / Base e) in
  let Qb := Pow ften (rb / Base e) in
  let Ea := Qa / (Qa + Qb) in
  let Eb := Qb / (Qa + Qb) in
  da ← diffs !! a;
  ka ← k !! a;
  sa ← s !! a;
  diffs ← set_index diffs a (da + ka * (sa - Ea));
  db ← diffs !! b;
  kb ← k !! b;
  sb ← s !! b;
  set_index diffs b (db + kb * (sb - Eb)).

(** The body of the loop [for i, j := range idx] that adds the diffs. *)
Definition scatter_body (idx : list nat) (diffs : list F) (i : nat)
    (newRatings : list F) : option (list F) :=
  j ← idx !! i;
  old ← newRatings !! j;
  d ← diffs !! i;
  set_index newRatings j (old + d).

(** [func (e Elo) Calculate(ratings, kFactors, normalizedScores []float64)
    (newRatings []float64, err error)].  The result is the pair Go
    returns; [None] is a panic. *)
Definition Calculate (e : Elo F) (ratings kFactors normalizedScores : list F)
  : option (list F * option error) :=
  let l := length ratings in
  if decide (l ≠ length kFactors ∨ l ≠ length normalizedScores) then
    Some ([], Some ErrLength)
  else if decide (l = 0) then Some (Clone ratings, None)
  else if decide (l = 1) then Some (Clone ratings, None)
  else
    idx ← for_range l (λ i idx, set_index idx i i) (make l 0);
    idx ← SortStableFunc idx (cmp normalizedScores);
    '(r, k, s) ← for_range (length idx)
                   (gather_body idx ratings kFactors normalizedScores)
                   (make l fzero, make l fzero, make l fzero);
    diffs ← for_range (l - 1) (pair_body e r k s) (make l fzero);
    newRatings ← for_range (length idx) (scatter_body idx diffs) (Clone ratings);
    Some (newRatings, None).

(** The loop of [normalize] that looks for two neighbours further apart
    than 1e-9, [n] iterations from index [i]; [false] is the [break]. *)
Fixpoint isEqual_from (s : list F) (i n : nat) : option bool :=
  match n with
  | 0 => Some true
  | S n' =>
      x ← s !! i;
      y ← s !! (i + 1)%nat;
      if feps <? fabs (x - y) then Some false else isEqual_from s (S i) n'
  end.

(** [slices.Min(s)] and [slices.Max(s)]: panic on an empty slice. *)
Definition Min (s : list F) : option F :=
  match s with
  | [] => None
  | x :: rest => Some (foldl fmin x rest)
  end.

Definition Max (s : list F) : option F :=
  match s with
  | [] => None
  | x :: rest => Some (foldl fmax x rest)
  end.

(** [for i, f := range s { s[i] = g(f) }] *)
Definition update_each (g : F → F) (s : list F) : option (list F) :=
  for_range (length s) (λ i s, f ← s !! i; set_index s i (g f)) s.

(** [func normalize(s []float64)]: the result is the content of [s] when
    the call returns. *)
Definition normalize (s : list F) : option (list F) :=
  if decide (length s < 2) then Some s
  else
    isEqual ← isEqual_from s 0 (length s - 1);
    if isEqual : bool then
      for_range (length s) (λ i s, set_index s i fhalf) s
    else
      min ← Min s;
      s ← update_each (λ f, f - min) s;
      max ← Max s;
      update_each (λ f, f / max) s.

Section adapters.
Context {P : Type} `{!Player F P}.

(** The loop that FFA and Golf start with: [r[i] = players[i].Rating()],
    [k[i] = players[i].KFactor()]. *)
Definition ratings_and_kfactors (players : list P) : option (list F * list F) :=
  for_range (length players)
    (λ i '(r, k),
       p ← players !! i;
       r ← set_index r i (Rating p);
       p ← players !! i;
       k ← set_index k i (KFactor p);
       Some (r, k))
    (make (length players) fzero, make (length players) fzero).

(** [func (e Elo) FFA(players []Player, scores []float64) ([]float64, error)] *)
Definition FFA (e : Elo F) (players : list P) (scores : list F)
  : option (list F * option error) :=
  '(r, k) ← ratings_and_kfactors players;
  s ← normalize (Clone scores);
  Calculate e r k s.

(** [func (e Elo) Golf(players []Player, scores []float64) ([]float64, error)] *)
Definition Golf (e : Elo F) (players : list P) (scores : list F)
  : option (list F * option error) :=
  '(r, k) ← ratings_and_kfactors players;
  s ← normalize (Clone scores);
  s ← update_each (λ n, fone - n) s;
  Calculate e r k s.

(** [func lerp(s []float64)]: the result is the content of [s] when the
    call returns. *)
Definition lerp (s : list F) : option (list F) :=
  if decide (length s = 0) then Some s
  else if decide (length s = 1) then set_index s 0 fhalf
  else
    let step := fone / of_int64 (Z.of_nat (length s - 1)) in
    for_range (length s)
      (λ i s, set_index s i (fone - of_int64 (Z.of_nat i) * step)) s.

(** [func (e Elo) Place(players []Player) ([]float64, error)] *)
Definition Place (e : Elo F) (players : list P) : option (list F * option error) :=
  scores ← lerp (make (length players) fzero);
  FFA e players scores.

(** [func (e Elo) Race(players []Player, times []time.Duration,
    step time.Duration) ([]float64, error)]; a [time.Duration] is an
    int64 count of nanoseconds. *)
Definition Race (e : Elo F) (players : list P) (times : list Z) (step : Z)
  : option (list F * option error) :=
  s ← for_range (length times)
        (λ i s, t ← times !! i; q ← int64_div t step; set_index s i (of_int64 q))
        (make (length times) fzero);
  Golf e players s.

(** [func (e Elo) H2H(players [2]Player, scores [2]float64) [2]float64];
    an array of two is a pair, [a[:]] its slice. *)
Definition slice_of {A} (a : A * A) : list A := [a.1; a.2].

Definition H2H (e : Elo F) (players : P * P) (scores : F * F) : option (F * F) :=
  '(newRatings, _) ← FFA e (slice_of players) (slice_of scores);
  let results := copy (slice_of (fzero, fzero)) newRatings in
  a ← results !! 0;
  b ← results !! 1;
  Some (a, b).
End adapters.
End program.

(** Durations, in nanoseconds. *)
Definition Millisecond : Z := 1000000.

(** ** The program over a store

    The same functions with slices as references into a store of backing
    arrays, to state what a call does to the arrays of its caller.  A slice is
    the segment of memory it spans: [Empty] has no element to share (nil, or
    of length and capacity zero, as [slices.Clone] returns for an empty
    slice), [Ref l] is the array at [l].  Float arrays and duration arrays
    live in the same store.  The slice of indices [idx] of [Calculate], which
    is local and holds ints, stays a list, and so do the players, which no
    function assigns to. *)
Module Mem.

Abbreviation loc := nat.

Inductive array (F : Type) :=
  | Floats (v : list F)
  | Durations (v : list Z).
Arguments Floats {F} v.
Arguments Durations {F} v.

Abbreviation store F := (gmap loc (array F)).

Inductive slice := Empty | Ref (l : loc).

(** A computation over the store that may panic. *)
Definition M (F A : Type) : Type := store F → option (A * store F).

#[global] Instance M_ret {F} : MRet (M F) := λ A a h, Some (a, h).

#[global] Instance M_bind {F} : MBind (M F) :=
  λ A B f m h, match m h with Some (a, h') => f a h' | None => None end.

(** A computation that does not touch the store. *)
Definition lift {F A} (o : option A) : M F A :=
  λ h, match o with Some a => Some (a, h) | None => None end.

Section mem.
Context {F : Type} `{!Float64 F, !MathPow F}.
Local Open Scope F_scope.

(** The elements of a slice of floats. *)
Definition floats (s : slice) : M F (list F) :=
  λ h, match s with
       | Empty => Some ([], h)
       | Ref l => match h !! l with Some (Floats v) => Some (v, h) | _ => None end
       end.

(** The elements of a slice of durations. *)
Definition durations (s : slice) : M F (list Z) :=
  λ h, match s with
       | Empty => Some ([], h)
       | Ref l => match h !! l with Some (Durations v) => Some (v, h) | _ => None end
       end.

(** [len(s)] *)
Definition len (s : slice) : M F nat := v ← floats s; mret (length v).

(** [s[i]] *)
Definition get (s : slice) (i : nat) : M F F := v ← floats s; lift (v !! i).

(** [s[i] = x] *)
Definition set (s : slice) (i : nat) (x : F) : M F unit :=
  λ h, match s with
       | Empty => None
       | Ref l =>
           match h !! l with
           | Some (Floats v) =>
               match set_index v i x with
               | Some v' => Some ((), <[l:=Floats v']> h)
               | None => None
               end
           | _ => None
           end
       end.

(** A new array, at a location the store does not use. *)
Definition alloc (a : array F) : M F slice :=
  λ h, let l := fresh (dom h) in Some (Ref l, <[l:=a]> h).

(** [make([]float64, n)] *)
Definition make (n : nat) : M F slice := alloc (Floats (replicate n fzero)).

(** [slices.Clone(s)]: a new array, unless there is no element to copy. *)
Definition Clone (s : slice) : M F slice :=
  v ← floats s;
  match v with
  | [] => mret Empty
  | _ => alloc (Floats v)
  end.

Definition cmp (s : slice) (a b : nat) : M F Z :=
  sA ← get s a;
  sB ← get s b;
  if sA <? sB then mret (-1)%Z
  else if sB <? sA then mret 1%Z
  else mret 0%Z.

Definition gather_body (idx : list nat) (ratings kFactors normalizedScores r k s : slice)
    (i : nat) (_ : unit) : M F unit :=
  j ← lift (idx !! i);
  x ← get ratings j;
  _ ← set r i x;
  x ← get kFactors j;
  _ ← set k i x;
  x ← get normalizedScores j;
  set s i x.

Definition pair_body (e : Elo F) (r k s diffs : slice) (a : nat) (_ : unit) : M F unit :=
  let b := (a + 1)%nat in
  ra ← get r a;
  rb ← get r b;
  let Qa := Pow ften (ra / Base e) in
  let Qb := Pow ften (rb / Base e) in
  let Ea := Qa / (Qa + Qb) in
  let Eb := Qb / (Qa + Qb) in
  da ← get diffs a;
  ka ← get k a;
  sa ← get s a;
  _ ← set diffs a (da + ka * (sa - Ea));
  db ← get diffs b;
  kb ← get k b;
  sb ← get s b;
  set diffs b (db + kb * (sb - Eb)).

Definition scatter_body (idx : list nat) (diffs newRatings : slice)
    (i : nat) (_ : unit) : M F unit :=
  j ← lift (idx !! i);
  old ← get newRatings j;
  d ← get diffs i;
  set newRatings j (old + d).

Definition Calculate (e : Elo F) (ratings kFactors normalizedScores : slice)
  : M F (slice * option error) :=
  l ← len ratings;
  lk ← len kFactors;
  ls ← len normalizedScores;
  if decide (l ≠ lk ∨ l ≠ ls) then mret (Empty, Some ErrLength)
  else if decide (l = 0) then (c ← Clone ratings; mret (c, None))
  else if decide (l = 1) then (c ← Clone ratings; mret (c, None))
  else
    idx ← for_range l (λ i idx, lift (set_index idx i i)) (replicate l 0);
    idx ← SortStableFunc idx (cmp normalizedScores);
    r ← make l;
    k ← make l;
    s ← make l;
    _ ← for_range (length idx)
          (gather_body idx ratings kFactors normalizedScores r k s) ();
    diffs ← make l;
    _ ← for_range (l - 1) (pair_body e r k s diffs) ();
    newRatings ← Clone ratings;
    _ ← for_range (length idx) (scatter_body idx diffs newRatings) ();
    mret (newRatings, None).

Fixpoint isEqual_from (s : slice) (i n : nat) : M F bool :=
  match n with
  | 0 => mret true
  | S n' =>
      x ← get s i;
      y ← get s (i + 1)%nat;
      if feps <? fabs (x - y) then mret false else isEqual_from s (S i) n'
  end.

(** [slices.Min(s)] and [slices.Max(s)] read the slice. *)
Definition Min (s : slice) : M F F := v ← floats s; lift (Min v).
Definition Max (s : slice) : M F F := v ← floats s; lift (Max v).

(** [for i, f := range s { s[i] = g(f) }] *)
Definition update_each (g : F → F) (s : slice) : M F unit :=
  n ← len s;
  for_range n (λ i _, f ← get s i; set s i (g f)) ().

(** [func normalize(s []float64)]: works on the array of [s]. *)
Definition normalize (s : slice) : M F unit :=
  n ← len s;
  if decide (n < 2) then mret ()
  else
    isEqual ← isEqual_from s 0 (n - 1);
    if isEqual : bool then
      for_range n (λ i _, set s i fhalf) ()
    else
      min ← Min s;
      _ ← update_each (λ f, f - min) s;
      max ← Max s;
      update_each (λ f, f / max) s.

Section adapters.
Context {P : Type} `{!Player F P}.

Definition ratings_and_kfactors (players : list P) : M F (slice * slice) :=
  r ← make (length players);
  k ← make (length players);
  _ ← for_range (length players)
        (λ i _,
           p ← lift (players !! i);
           _ ← set r i (Rating p);
           p ← lift (players !! i);
           set k i (KFactor p))
        ();
  mret (r, k).

Definition FFA (e : Elo F) (players : list P) (scores : slice)
  : M F (slice * option error) :=
  '(r, k) ← ratings_and_kfactors players;
  s ← Clone scores;
  _ ← normalize s;
  Calculate e r k s.

Definition Golf (e : Elo F) (players : list P) (scores : slice)
  : M F (slice * option error) :=
  '(r, k) ← ratings_and_kfactors players;
  s ← Clone scores;
  _ ← normalize s;
  _ ← update_each (λ n, fone - n) s;
  Calculate e r k s.

Definition lerp (s : slice) : M F unit :=
  n ← len s;
  if decide (n = 0) then mret ()
  else if decide (n = 1) then set s 0 fhalf
  else
    let step := fone / of_int64 (Z.of_nat (n - 1)) in
    for_range n (λ i _, set s i (fone - of_int64 (Z.of_nat i) * step)) ().

Definition Place (e : Elo F) (players : list P) : M F (slice * option error) :=
  scores ← make (length players);
  _ ← lerp scores;
  FFA e players scores.

Definition Race (e : Elo F) (players : list P) (times : slice) (step : Z)
  : M F (slice * option error) :=
  ts ← durations times;
  s ← make (length ts);
  _ ← for_range (length ts)
        (λ i _,
           ts ← durations times;
           t ← lift (ts !! i);
           q ← lift (int64_div t step);
           set s i (of_int64 q))
        ();
  Golf e players s.

(** The arrays [players] and [scores] are passed by value: [H2H] works on
    its own copy of [scores], which [scores[:]] slices. *)
Definition H2H (e : Elo F) (players : P * P) (scores : F * F) : M F (F * F) :=
  local ← alloc (Floats (slice_of scores));
  '(newRatings, _) ← FFA e (slice_of players) local;
  v ← floats newRatings;
  let results := copy (slice_of (fzero, fzero)) v in
  a ← lift (results !! 0);
  b ← lift (results !! 1);
  mret (a, b).
End adapters.

(** The slice [s] holds the floats [v] in the store [h]. *)
Definition holds (h : store F) (s : slice) (v : list F) : Prop :=
  floats s h = Some (v, h).

(** The store [h] with [v] for the elements of [s]. *)
Definition write (h : store F) (s : slice) (v : list F) : store F :=
  match s with
  | Empty => h
  | Ref l => <[l:=Floats v]> h
  end.

(** The slice [s] holds the durations [v] in the store [h]. *)
Definition holds_durations (h : store F) (s : slice) (v : list Z) : Prop :=
  durations s h = Some (v, h).

(** The slice [s] shares no element with the arrays of [h]: it is empty or
    its array is not in [h]. *)
Definition fresh_in (h : store F) (s : slice) : Prop :=
  match s with
  | Empty => True
  | Ref l => h !! l = None
  end.

(** What a call [run], started in the store [h], does when the function
    over lists does [pure]: both panic, or both return, with the same error
    and the ratings of [pure] in a slice that shares nothing with the arrays
    of [h], and every array of [h] is in the final store as it was. *)
Definition returns_fresh (h : store F) (pure : option (list F * option error))
    (run : option (slice * option error * store F)) : Prop :=
  match pure with
  | None => run = None
  | Some (newRatings, err) =>
      ∃ res h',
        run = Some (res, err, h')
        ∧ h ⊆ h'
        ∧ fresh_in h res
        ∧ holds h' res newRatings
  end.

(** The same for a call that returns a value and no slice. *)
Definition returns_value {A} (h : store F) (pure : option A)
    (run : option (A * store F)) : Prop :=
  match pure with
  | None => run = None
  | Some a => ∃ h', run = Some (a, h') ∧ h ⊆ h'
  end.
End mem.
End Mem.

(** ** Notions the statements use *)

(** The insertion of [insert_left] for a comparison that cannot panic:
    [lt x y] says that [x] compares below [y]. *)
Fixpoint insert_by {A} (lt : A → A → bool) (x : A) (rev_prefix : list A) : list A :=
  match rev_prefix with
  | [] => [x]
  | y :: rest => if lt x y then y :: insert_by lt x rest else x :: y :: rest
  end.

Definition sort_by {A} (lt : A → A → bool) (x : list A) : list A :=
  reverse (foldl (λ rev_prefix a, insert_by lt a rev_prefix) [] x).

(** The relation a comparison decides. *)
Definition below {A} (lt : A → A → bool) : relation A := λ a b, lt a b = true.

(** [cmp] does not panic on [x] and [y] and is negative exactly when
    [lt x y]. *)
Definition cmp_agrees {A} (cmp : A → A → option Z) (lt : A → A → bool) (x y : A) : Prop :=
  ∃ c, cmp x y = Some c ∧ bool_decide (c < 0)%Z = lt x y.

(** [ys[i] = xs[idx[i]]] for every [i]. *)
Definition gathered {A} (xs : list A) (idx : list nat) (ys : list A) : Prop :=
  Forall2 (λ j y, xs !! j = Some y) idx ys.

Section notions.
Context {F : Type} `{!Float64 F}.
Local Open Scope F_scope.
Implicit Types (s : list F).

(** What [cmp(s)] decides on two indices of [s]. *)
Definition lt_idx (s : list F) (a b : nat) : bool :=
  match s !! a, s !! b with
  | Some x, Some y => x <? y
  | _, _ => false
  end.

(** The indices of [s] in the order [Calculate] visits them. *)
Definition sorted_idx (s : list F) : list nat :=
  sort_by (lt_idx s) (seq 0 (length s)).

(** The test [normalize] makes on two neighbours: not further apart than
    1e-9. *)
Definition close (x y : F) : Prop := (feps <? fabs (x - y)) = false.

(** Any two neighbours are close: what the first loop of [normalize] checks. *)
Definition neighbours_close s : Prop :=
  ∀ j x y, s !! j = Some x → s !! (j + 1)%nat = Some y → close x y.

(** Any two elements are close. *)
Definition all_close s : Prop :=
  ∀ i j x y, s !! i = Some x → s !! j = Some y → close x y.

(** Two neighbours are further apart than 1e-9: what makes the first loop
    of [normalize] break. *)
Definition apart (x y : F) : Prop := (feps <? fabs (x - y)) = true.

Definition some_neighbours_apart s : Prop :=
  ∃ j x y, s !! j = Some x ∧ s !! (j + 1)%nat = Some y ∧ apart x y.

(** The order of a stable sort by score: the competitor [a] comes before
    [b] when the score of [a] is below the score of [b], or when neither
    score is below the other and [a] is listed before [b]. *)
Definition before s (a b : nat) : Prop :=
  below (lt_idx s) a b ∨ (¬ below (lt_idx s) b a ∧ a < b).

(** [<] is a strict weak order on the scores [s]: it is transitive, and a
    score that is neither above [x] nor below [z] does not come between
    [x < z].  On reals this always holds, on binary64 when no score is
    NaN. *)
Definition weak_order_on s : Prop :=
  (∀ x y z, x ∈ s → y ∈ s → z ∈ s →
            (x <? y) = true → (y <? z) = true → (x <? z) = true)
  ∧ (∀ x y z, x ∈ s → y ∈ s → z ∈ s →
              (x <? z) = true → (x <? y) = true ∨ (y <? z) = true).


(** The minimum [normalize] subtracts and the maximum it divides by. *)
Definition low s : option F := Min s.
Definition span s : option F := mn ← Min s; Max ((λ f, f - mn) <$> s).
End notions.

Section race_spec.
Context {F : Type} `{!Float64 F, !MathPow F} {P : Type} `{!Player F P}.

(** [Race] as the specification words it: every duration becomes the
    truncated quotient by [step], and [Golf] is applied to these scores. *)
Definition Race_spec (e : Elo F) (players : list P) (times : list Z) (step : Z)
  : option (list F * option error) :=
  Golf e players ((λ t, of_int64 (t ÷ step)%Z) <$> times).
End race_spec.

Section pair_notions.
Context {F : Type} `{!Float64 F, !MathPow F}.
Local Open Scope F_scope.
Implicit Types (e : Elo F) (r k s : list F).

(** The quantities of the pair loop of [Calculate], for a competitor rated
    [ra] and the next one in the order of the scores, rated [rb]:
    [Qpow e r] is [math.Pow(10, r/e.Base)], [Ea] and [Eb] are the scores
    expected of the two. *)
Definition Qpow e (r : F) : F := Pow ften (r / Base e).
Definition Ea e (ra rb : F) : F := Qpow e ra / (Qpow e ra + Qpow e rb).
Definition Eb e (ra rb : F) : F := Qpow e rb / (Qpow e ra + Qpow e rb).

(** The diff of the competitor at place [i] of the sorted arrays [r], [k]
    and [s] after the comparison with the one before: nothing at the first
    place. *)
Definition diff_lower e r k s (i : nat) : option F :=
  match i with
  | 0 => Some fzero
  | S p =>
      rp ← r !! p; ri ← r !! i; ki ← k !! i; si ← s !! i;
      Some (fzero + ki * (si - Eb e rp ri))
  end.

(** The diff at place [i] after the comparison with the one behind as
    well: nothing more at the last place. *)
Definition diff_at e r k s (i : nat) : option F :=
  d ← diff_lower e r k s i;
  match r !! (i + 1)%nat with
  | None => Some d
  | Some rn =>
      ri ← r !! i; ki ← k !! i; si ← s !! i;
      Some (d + ki * (si - Ea e ri rn))
  end.
End pair_notions.

Arguments Qpow : simpl never.
Arguments Ea : simpl never.
Arguments Eb : simpl never.

(** ** Tactics *)

(** Two results on binary64 that differ in the bits of a number are
    different: the numbers are compared through [Prim2SF]. *)
Ltac float_discriminate H :=
  apply (f_equal (fmap (M:=option) (fmap (M:=list) Prim2SF))) in H;
  vm_compute in H; discriminate H.

(** Running the program on reals: everything is computed except the
    arithmetic of [R] and the comparisons, which are then settled one by one. *)
Ltac run_exact :=
  cbv -[Rplus Rminus Rmult Rdiv Rinv Rpower Rabs Rmin Rmax IZR Exact.ltb
        Rle_dec Rlt_dec Base];
  cbn [Base].

(** On reals the operations of the interface are those of [R]. *)
Ltac exact_ops :=
  cbn [fzero fhalf fone ften feps fadd fsub fmul fdiv fabs flt fmin fmax of_int64
       Exact.ops] in *.

(** A store still includes the store of the caller after writes to arrays
    the caller does not have. *)
Ltac extends := repeat (apply insert_subseteq_r; [done|]); done.

(** Looking up a location after writes to it or to other locations. *)
Ltac lookups := rewrite ?lookup_insert_ne by done; rewrite ?lookup_insert_eq; done.

(** * Supporting lemmas *)

(** ** Loops and index operations *)

Section loops.
Context {St : Type}.
Implicit Types (body : nat → St → option St).

(** The loop rule: an invariant that every iteration re-establishes, without
    panic, holds when the loop ends, and the loop does not panic. *)
Lemma for_from_inv (I : nat → St → Prop) body from n st :
  I from st →
  (∀ i s, from ≤ i < from + n → I i s → ∃ s', body i s = Some s' ∧ I (S i) s') →
  ∃ st', for_from from n body st = Some st' ∧ I (from + n) st'.
Proof.
  revert from st. induction n as [|n IH]; intros from st Hst Hstep; simpl.
  - exists st. by rewrite Nat.add_0_r.
  - destruct (Hstep from st) as (s' & -> & Hs'); [lia|done|]. simpl.
    destruct (IH (S from) s') as (st' & -> & Hst'); [done| |].
    + intros i s Hi. apply Hstep. lia.
    + exists st'. by rewrite Nat.add_succ_r.
Qed.

Lemma for_range_inv (I : nat → St → Prop) body n st :
  I 0 st →
  (∀ i s, i < n → I i s → ∃ s', body i s = Some s' ∧ I (S i) s') →
  ∃ st', for_range n body st = Some st' ∧ I n st'.
Proof.
  intros H0 Hstep. apply (for_from_inv I body 0 n st H0).
  intros i s [_ Hi]. by apply Hstep.
Qed.

(** Two loops whose bodies agree on the indices they run over agree. *)
Lemma for_from_ext body1 body2 from n st :
  (∀ i s, from ≤ i < from + n → body1 i s = body2 i s) →
  for_from from n body1 st = for_from from n body2 st.
Proof.
  revert from st. induction n as [|n IH]; intros from st Hb; simpl; [done|].
  rewrite Hb by lia. destruct (body2 from st) as [s'|]; simpl; [|done].
  apply IH. intros i s Hi. apply Hb. lia.
Qed.

Lemma for_range_ext body1 body2 n st :
  (∀ i s, i < n → body1 i s = body2 i s) →
  for_range n body1 st = for_range n body2 st.
Proof. intros Hb. apply for_from_ext. intros i s [_ Hi]. by apply Hb. Qed.
End loops.

Lemma set_index_Some {A} (s : list A) i v :
  i < length s → set_index s i v = Some (<[i:=v]> s).
Proof. intros. unfold set_index. by rewrite decide_True. Qed.

(** [for i := range s { s[i] = g i }] leaves [g] at every index. *)
Lemma for_range_fill {A} (g : nat → A) (s : list A) :
  for_range (length s) (λ i s, set_index s i (g i)) s = Some (g <$> seq 0 (length s)).
Proof.
  destruct (for_range_inv
    (λ i s', s' = (g <$> seq 0 i) ++ drop i s)
    (λ i s, set_index s i (g i)) (length s) s) as (s' & -> & ->).
  - by rewrite drop_0.
  - intros i s' Hi ->. eexists. split.
    + apply set_index_Some. rewrite length_app, length_fmap, length_seq, length_drop. lia.
    + rewrite seq_S, fmap_app, <-app_assoc. simpl.
      rewrite insert_app_r_alt by (rewrite length_fmap, length_seq; lia).
      rewrite length_fmap, length_seq, Nat.sub_diag.
      destruct (drop i s) as [|x rest] eqn:Hd.
      { apply (f_equal length) in Hd. rewrite length_drop in Hd. simpl in Hd. lia. }
      simpl. do 2 f_equal.
      change rest with (drop 1 (x :: rest)). rewrite <-Hd, drop_drop. f_equal. lia.
  - by rewrite drop_all, app_nil_r.
Qed.

(** [for i, f := range s { s[i] = g f }] maps [g] over [s]. *)
Lemma for_range_map {A} (g : A → A) (s : list A) :
  for_range (length s) (λ i s, f ← s !! i; set_index s i (g f)) s = Some (g <$> s).
Proof.
  destruct (for_range_inv
    (λ i s', s' = (g <$> take i s) ++ drop i s)
    (λ i s, f ← s !! i; set_index s i (g f)) (length s) s) as (s' & -> & ->).
  - by rewrite take_0, drop_0.
  - intros i s' Hi ->.
    destruct (lookup_lt_is_Some_2 s i Hi) as [x Hx].
    assert (Hlen : length (g <$> take i s) = i).
    { rewrite length_fmap, length_take. lia. }
    exists ((g <$> take (S i) s) ++ drop (S i) s). split; [|done].
    rewrite lookup_app_r by lia. rewrite Hlen, Nat.sub_diag, lookup_drop, Nat.add_0_r, Hx.
    simpl. rewrite set_index_Some by (rewrite length_app, length_drop; lia).
    f_equal. rewrite insert_app_r_alt by lia. rewrite Hlen, Nat.sub_diag.
    rewrite (take_S_r _ _ _ Hx), fmap_app, <-app_assoc. f_equal.
    rewrite (drop_S _ _ _ Hx). done.
  - by rewrite firstn_all, drop_all, app_nil_r.
Qed.

Lemma insert_take_replicate {A} (T : list A) i x z n :
  T !! i = Some x → i < n →
  <[i:=x]> (take i T ++ replicate (n - i) z) = take (S i) T ++ replicate (n - S i) z.
Proof.
  intros Hx Hi. pose proof (lookup_lt_Some _ _ _ Hx) as Hlt.
  assert (length (take i T) = i) as Hlen by (rewrite length_take; lia).
  rewrite insert_app_r_alt by lia. rewrite Hlen, Nat.sub_diag.
  replace (n - i) with (S (n - S i)) by lia. simpl.
  by rewrite (take_S_r _ _ _ Hx), <-app_assoc.
Qed.

(** [s := make([]B, len(xs)); for i := range xs { s[i] = g(xs[i]) }], for a
    [g] that does not panic on the elements of [xs]. *)
Lemma for_range_fill_from {A B} (g : A → option B) (g' : A → B) (xs : list A) (z : B) :
  (∀ x, x ∈ xs → g x = Some (g' x)) →
  for_range (length xs) (λ i s, x ← xs !! i; y ← g x; set_index s i y)
    (make (length xs) z) = Some (g' <$> xs).
Proof.
  intros Hg.
  destruct (for_range_inv
    (λ i s, s = take i (g' <$> xs) ++ replicate (length xs - i) z)
    (λ i s, x ← xs !! i; y ← g x; set_index s i y) (length xs)
    (make (length xs) z)) as (s & -> & ->).
  - by rewrite take_0, Nat.sub_0_r.
  - intros i s Hi ->. destruct (lookup_lt_is_Some_2 xs i Hi) as [x Hx].
    eexists. split.
    + rewrite Hx. simpl. rewrite (Hg x) by (by eapply list_elem_of_lookup_2). simpl.
      apply set_index_Some.
      rewrite length_app, length_take, length_fmap, length_replicate. lia.
    + apply insert_take_replicate; [|done]. by rewrite list_lookup_fmap, Hx.
  - rewrite Nat.sub_diag, app_nil_r, take_ge; [done|]. by rewrite length_fmap.
Qed.

Lemma fmap_const_seq {A} (c : A) from n : (λ _, c) <$> seq from n = replicate n c.
Proof. revert from. induction n as [|n IH]; intros from; simpl; [done|]. by rewrite IH. Qed.

(** ** The stable sort *)

Section sort.
Context {A : Type} (cmp : A → A → option Z) (lt : A → A → bool).

Lemma insert_left_by x acc :
  Forall (cmp_agrees cmp lt x) acc →
  insert_left cmp x acc = Some (insert_by lt x acc).
Proof.
  induction 1 as [|y rest (c & Hc & Hlt) _ IH]; simpl; [done|].
  rewrite Hc. simpl. rewrite <-Hlt.
  case_decide.
  - rewrite bool_decide_eq_true_2 by done. by rewrite IH.
  - by rewrite bool_decide_eq_false_2.
Qed.

Lemma insert_by_perm x acc : insert_by lt x acc ≡ₚ x :: acc.
Proof.
  induction acc as [|y rest IH]; simpl; [done|].
  destruct (lt x y); [|done]. rewrite IH. apply Permutation_swap.
Qed.

Lemma foldl_insert_by_perm acc todo :
  foldl (λ rev_prefix a, insert_by lt a rev_prefix) acc todo ≡ₚ acc ++ todo.
Proof.
  revert acc. induction todo as [|x todo IH]; intros acc; simpl.
  - by rewrite app_nil_r.
  - rewrite IH, insert_by_perm. simpl. apply Permutation_middle.
Qed.

Lemma sort_by_perm x : sort_by lt x ≡ₚ x.
Proof. unfold sort_by. by rewrite reverse_Permutation, foldl_insert_by_perm. Qed.

Lemma sort_from_by acc todo :
  (∀ x y, x ∈ acc ++ todo → y ∈ acc ++ todo → cmp_agrees cmp lt x y) →
  sort_from cmp acc todo
  = Some (reverse (foldl (λ rev_prefix a, insert_by lt a rev_prefix) acc todo)).
Proof.
  revert acc. induction todo as [|x todo IH]; intros acc Hcmp; simpl; [done|].
  rewrite insert_left_by.
  - simpl. apply IH. intros a b Ha Hb.
    rewrite insert_by_perm, elem_of_app, elem_of_cons in Ha, Hb.
    apply Hcmp; rewrite elem_of_app, elem_of_cons; tauto.
  - apply Forall_forall. intros y Hy.
    apply Hcmp; rewrite elem_of_app, elem_of_cons; tauto.
Qed.

Lemma SortStableFunc_by x :
  (∀ a b, a ∈ x → b ∈ x → cmp_agrees cmp lt a b) →
  SortStableFunc x cmp = Some (sort_by lt x).
Proof. intros Hcmp. apply sort_from_by. by simpl. Qed.
End sort.

Section sorted.
Context {A : Type} (lt : A → A → bool).
Implicit Types (x y : A) (acc todo l : list A).



Lemma StronglySorted_flip_reverse (R : relation A) l :
  StronglySorted (flip R) l → StronglySorted R (reverse l).
Proof.
  induction 1 as [|x l _ IH Hx]; [rewrite reverse_nil; constructor|].
  rewrite reverse_cons. apply StronglySorted_app_2; [|done|repeat constructor].
  intros y z Hy ->%list_elem_of_singleton. rewrite elem_of_reverse in Hy.
  rewrite Forall_forall in Hx. by apply Hx.
Qed.

End sorted.

(** ** Reading through a list of indices *)

Lemma gathered_length {A} (xs : list A) idx ys : gathered xs idx ys → length ys = length idx.
Proof. intros H. symmetry. apply (Forall2_length _ _ _ H). Qed.

Lemma gathered_snoc {A} (xs : list A) idx ys i j x :
  idx !! i = Some j → xs !! j = Some x → i < length ys →
  gathered xs (take i idx) (take i ys) →
  gathered xs (take (S i) idx) (take (S i) (<[i:=x]> ys)).
Proof.
  intros Hj Hx Hi Hg. unfold gathered.
  rewrite (take_S_r idx i j Hj).
  rewrite (take_S_r (<[i:=x]> ys) i x) by (by apply list_lookup_insert_eq).
  rewrite take_insert_ge by lia. apply Forall2_app; [done|]. by repeat constructor.
Qed.

Lemma gathered_inj {A} (xs : list A) idx ys ys' :
  gathered xs idx ys → gathered xs idx ys' → ys = ys'.
Proof.
  intros H. revert ys'. induction H as [|j y idx ys Hj _ IH]; intros ys' H'.
  - by inversion H'.
  - inversion H' as [|? y' ? ys'' Hj' Hrest]; subst. f_equal; [congruence|by apply IH].
Qed.





Lemma gathered_const {A} (c : A) xs idx ys :
  Forall (λ x, x = c) xs → gathered xs idx ys → ys = replicate (length idx) c.
Proof.
  intros Hc Hg. induction Hg as [|j y idx ys Hj _ IH]; simpl; [done|].
  f_equal; [|done]. rewrite Forall_forall in Hc. apply Hc.
  by eapply list_elem_of_lookup_2.
Qed.

(** ** The loops of [Calculate] *)

Section calculate_loops.
Context {F : Type} `{!Float64 F, !MathPow F}.
Local Open Scope F_scope.

Lemma cmp_agrees_idx s a b :
  a < length s → b < length s → cmp_agrees (cmp s) (lt_idx s) a b.
Proof.
  intros [x Hx]%lookup_lt_is_Some_2 [y Hy]%lookup_lt_is_Some_2.
  unfold cmp_agrees, cmp, lt_idx. rewrite Hx, Hy. simpl.
  destruct (x <? y); [by eexists|].
  destruct (y <? x); by eexists.
Qed.

Lemma idx_loop l :
  for_range l (λ i idx, set_index idx i i) (make l 0) = Some (seq 0 l).
Proof.
  pose proof (for_range_fill (λ i, i) (make l 0)) as H.
  unfold make in *. rewrite length_replicate in H. rewrite H.
  f_equal. apply list_fmap_id.
Qed.

Lemma sorted_idx_perm s : sorted_idx s ≡ₚ seq 0 (length s).
Proof. apply sort_by_perm. Qed.

Lemma sorted_idx_lt s j : j ∈ sorted_idx s → j < length s.
Proof. rewrite sorted_idx_perm, elem_of_seq. lia. Qed.

Lemma sorted_idx_length s : length (sorted_idx s) = length s.
Proof. by rewrite sorted_idx_perm, length_seq. Qed.

Lemma SortStableFunc_idx s :
  SortStableFunc (seq 0 (length s)) (cmp s) = Some (sorted_idx s).
Proof.
  apply SortStableFunc_by. intros a b Ha%elem_of_seq Hb%elem_of_seq.
  apply cmp_agrees_idx; lia.
Qed.

Lemma gather_loop idx R K S l :
  length idx = l → Forall (λ j, j < l) idx →
  length R = l → length K = l → length S = l →
  ∃ r k s,
    for_range (length idx) (gather_body idx R K S)
      (make l fzero, make l fzero, make l fzero) = Some (r, k, s)
    ∧ gathered R idx r ∧ gathered K idx k ∧ gathered S idx s.
Proof.
  intros Hidx Hlt HR HK HS.
  destruct (for_range_inv
    (λ i '(r, k, s),
       length r = l ∧ length k = l ∧ length s = l
       ∧ gathered R (take i idx) (take i r)
       ∧ gathered K (take i idx) (take i k)
       ∧ gathered S (take i idx) (take i s))
    (gather_body idx R K S) (length idx)
    (make l fzero, make l fzero, make l fzero))
    as ([[r k] s] & Hrun & Hr & Hk & Hs & Hgr & Hgk & Hgs).
  - unfold make. rewrite !length_replicate, !take_0. repeat split; constructor.
  - intros i [[r k] s] Hi (Hr & Hk & Hs & Hgr & Hgk & Hgs).
    destruct (lookup_lt_is_Some_2 idx i Hi) as [j Hj].
    assert (j < l) as Hjl.
    { rewrite Forall_forall in Hlt. apply Hlt. by eapply list_elem_of_lookup_2. }
    destruct (lookup_lt_is_Some_2 R j) as [x Hx]; [lia|].
    destruct (lookup_lt_is_Some_2 K j) as [y Hy]; [lia|].
    destruct (lookup_lt_is_Some_2 S j) as [z Hz]; [lia|].
    exists (<[i:=x]> r, <[i:=y]> k, <[i:=z]> s). split.
    + unfold gather_body. rewrite Hj. simpl. rewrite Hx. simpl.
      rewrite set_index_Some by lia. simpl. rewrite Hy. simpl.
      rewrite set_index_Some by lia. simpl. rewrite Hz. simpl.
      rewrite set_index_Some by lia. done.
    + rewrite !length_insert.
      repeat split; try done; eapply gathered_snoc; eauto; lia.
  - exists r, k, s. split; [done|].
    rewrite firstn_all in Hgr, Hgk, Hgs.
    rewrite Hidx, <-Hr in Hgr. rewrite Hidx, <-Hk in Hgk. rewrite Hidx, <-Hs in Hgs.
    rewrite firstn_all in Hgr, Hgk, Hgs. done.
Qed.

Lemma pair_body_Some e r k s a diffs l :
  length r = l → length k = l → length s = l → length diffs = l → a + 1 < l →
  ∃ diffs', pair_body e r k s a diffs = Some diffs' ∧ length diffs' = l.
Proof.
  intros Hr Hk Hs Hd Ha. unfold pair_body.
  destruct (lookup_lt_is_Some_2 r a) as [ra ->]; [lia|].
  destruct (lookup_lt_is_Some_2 r (a + 1)) as [rb ->]; [lia|].
  destruct (lookup_lt_is_Some_2 diffs a) as [da ->]; [lia|].
  destruct (lookup_lt_is_Some_2 k a) as [ka ->]; [lia|].
  destruct (lookup_lt_is_Some_2 s a) as [sa ->]; [lia|].
  destruct (lookup_lt_is_Some_2 k (a + 1)) as [kb ->]; [lia|].
  destruct (lookup_lt_is_Some_2 s (a + 1)) as [sb ->]; [lia|].
  simpl. rewrite set_index_Some by lia. simpl.
  match goal with |- context [<[a:=?v]> diffs] => set (d1 := <[a:=v]> diffs) end.
  assert (length d1 = l) as Hd1 by (subst d1; by rewrite length_insert).
  destruct (lookup_lt_is_Some_2 d1 (a + 1)) as [db ->]; [lia|].
  simpl. rewrite set_index_Some by lia.
  eexists. split; [done|]. by rewrite length_insert.
Qed.

Lemma pair_loop_total e r k s l :
  length r = l → length k = l → length s = l →
  ∃ diffs,
    for_range (l - 1) (pair_body e r k s) (make l fzero) = Some diffs
    ∧ length diffs = l.
Proof.
  intros Hr Hk Hs.
  apply (for_range_inv (λ _ diffs, length diffs = l)).
  - apply length_replicate.
  - intros i diffs Hi Hd. eapply pair_body_Some; eauto. lia.
Qed.

Lemma scatter_loop idx diffs R l :
  idx ≡ₚ seq 0 l → length diffs = l → length R = l →
  ∃ nr,
    for_range (length idx) (scatter_body idx diffs) R = Some nr
    ∧ length nr = l
    ∧ ∀ i j x d, idx !! i = Some j → R !! j = Some x → diffs !! i = Some d →
                 nr !! j = Some (x + d).
Proof.
  intros Hperm Hd HR.
  assert (NoDup idx) as Hnd by (rewrite Hperm; apply NoDup_seq).
  assert (length idx = l) as Hidx by (by rewrite Hperm, length_seq).
  destruct (for_range_inv
    (λ n nr,
       length nr = l
       ∧ ∀ i j x d, idx !! i = Some j → R !! j = Some x → diffs !! i = Some d →
                    nr !! j = Some (if decide (i < n) then x + d else x))
    (scatter_body idx diffs) (length idx) R) as (nr & Hrun & Hlen & Hnr).
  - split; [done|]. intros i j x d _ Hx _. by rewrite decide_False by lia.
  - intros n nr Hn [Hlen Hinv].
    destruct (lookup_lt_is_Some_2 idx n Hn) as [jn Hjn].
    assert (jn < l) as Hjl.
    { apply list_elem_of_lookup_2 in Hjn. rewrite Hperm, elem_of_seq in Hjn. lia. }
    destruct (lookup_lt_is_Some_2 R jn) as [x Hx]; [lia|].
    destruct (lookup_lt_is_Some_2 diffs n) as [d Hdn]; [lia|].
    pose proof (Hinv n jn x d Hjn Hx Hdn) as Hold.
    rewrite decide_False in Hold by lia.
    exists (<[jn:=x + d]> nr). split.
    + unfold scatter_body. rewrite Hjn. simpl. rewrite Hold. simpl. rewrite Hdn. simpl.
      apply set_index_Some. lia.
    + split; [by rewrite length_insert|].
      intros i j x' d' Hj Hx' Hd'.
      destruct (decide (j = jn)) as [->|Hne].
      * assert (i = n) as -> by (by eapply NoDup_lookup).
        rewrite list_lookup_insert_eq by lia.
        rewrite decide_True by lia. congruence.
      * rewrite list_lookup_insert_ne by done.
        rewrite (Hinv i j x' d') by done.
        assert (i ≠ n) by congruence.
        destruct (decide (i < n)), (decide (i < S n)); done || lia.
  - exists nr. split; [done|]. split; [done|].
    intros i j x d Hj Hx Hdi. rewrite (Hnr i j x d) by done.
    rewrite decide_True; [done|]. by eapply lookup_lt_Some.
Qed.
End calculate_loops.

(** ** [Calculate], case by case *)

Section calculate_cases.
Context {F : Type} `{!Float64 F, !MathPow F}.
Local Open Scope F_scope.
Implicit Types (e : Elo F) (R K S : list F).

Lemma Calculate_mismatch e R K S :
  ¬ (length R = length K ∧ length R = length S) →
  Calculate e R K S = Some ([], Some ErrLength).
Proof. intros H. unfold Calculate. rewrite decide_True; [done|lia]. Qed.

Lemma Calculate_short e R K S :
  length R = length K → length R = length S → length R < 2 →
  Calculate e R K S = Some (R, None).
Proof.
  intros HK HS Hl. unfold Calculate, Clone. rewrite decide_False by lia.
  destruct (decide (length R = 0)); [done|].
  rewrite decide_True by lia. done.
Qed.

(** Two or more competitors: no loop panics, and the result adds to every
    rating the diff computed at its place in the sorted order. *)
Lemma Calculate_long e R K S :
  length R = length K → length R = length S → 2 ≤ length R →
  ∃ r k s diffs nr,
    gathered R (sorted_idx S) r
    ∧ gathered K (sorted_idx S) k
    ∧ gathered S (sorted_idx S) s
    ∧ for_range (length R - 1) (pair_body e r k s) (make (length R) fzero) = Some diffs
    ∧ length diffs = length R
    ∧ length nr = length R
    ∧ (∀ i j x d, sorted_idx S !! i = Some j → R !! j = Some x → diffs !! i = Some d →
                  nr !! j = Some (x + d))
    ∧ Calculate e R K S = Some (nr, None).
Proof.
  intros HK HS Hl.
  pose proof (sorted_idx_length S) as Hlen.
  destruct (gather_loop (sorted_idx S) R K S (length R))
    as (r & k & s & Hg & Hr & Hk & Hs); try done; try lia.
  { apply Forall_forall. intros j Hj%sorted_idx_lt. lia. }
  destruct (pair_loop_total e r k s (length R)) as (diffs & Hd & Hdl).
  { rewrite (gathered_length _ _ _ Hr). lia. }
  { rewrite (gathered_length _ _ _ Hk). lia. }
  { rewrite (gathered_length _ _ _ Hs). lia. }
  destruct (scatter_loop (sorted_idx S) diffs R (length R))
    as (nr & Hsc & Hnl & Hnr); try done.
  { rewrite sorted_idx_perm. by rewrite HS. }
  exists r, k, s, diffs, nr. repeat split; try done.
  unfold Calculate, Clone. rewrite decide_False by lia.
  rewrite decide_False by lia. rewrite decide_False by lia.
  rewrite idx_loop. simpl. rewrite HS, SortStableFunc_idx. simpl.
  rewrite <-HS, Hg. simpl. rewrite Hd. simpl. rewrite Hsc. done.
Qed.

(** The three loops of [Calculate], each with its result. *)
Lemma Calculate_loops e R K S :
  length R = length K → length R = length S → 2 ≤ length R →
  ∃ r k s diffs nr,
    for_range (length (sorted_idx S)) (gather_body (sorted_idx S) R K S)
      (make (length R) fzero, make (length R) fzero, make (length R) fzero)
    = Some (r, k, s)
    ∧ for_range (length R - 1) (pair_body e r k s) (make (length R) fzero) = Some diffs
    ∧ for_range (length (sorted_idx S)) (scatter_body (sorted_idx S) diffs) R = Some nr
    ∧ Calculate e R K S = Some (nr, None).
Proof.
  intros HK HS Hl.
  destruct (Calculate_long e R K S)
    as (r0 & k0 & s0 & d0 & nr & _ & _ & _ & _ & _ & _ & _ & Hcalc); [done..|].
  pose proof Hcalc as Hrun. unfold Calculate, Clone in Hrun.
  rewrite decide_False in Hrun by lia. rewrite decide_False in Hrun by lia.
  rewrite decide_False in Hrun by lia.
  rewrite idx_loop in Hrun. simpl in Hrun.
  rewrite HS, SortStableFunc_idx in Hrun. simpl in Hrun. rewrite <-HS in Hrun.
  destruct (for_range _ (gather_body _ _ _ _) _) as [[[r k] s]|] eqn:Hg;
    simpl in Hrun; [|done].
  destruct (for_range _ (pair_body _ _ _ _) _) as [diffs|] eqn:Hp; simpl in Hrun; [|done].
  destruct (for_range _ (scatter_body _ _) _) as [nr'|] eqn:Hsc; simpl in Hrun; [|done].
  injection Hrun as <-. by exists r, k, s, diffs, nr'.
Qed.

Lemma Calculate_total e (R K S : list F) : is_Some (Calculate e R K S).
Proof.
  destruct (decide (length R = length K ∧ length R = length S)) as [[HK HS]|Hne].
  - destruct (decide (length R < 2)).
    + by rewrite Calculate_short.
    + destruct (Calculate_loops e R K S) as (r & k & s & d & nr & _ & _ & _ & ->);
        [done|done|lia|done].
  - by rewrite Calculate_mismatch.
Qed.
End calculate_cases.

(** ** A tie between competitors with the same rating *)

Lemma gathered_Forall {A} (P : A → Prop) (xs : list A) idx ys :
  Forall P xs → gathered xs idx ys → Forall P ys.
Proof.
  rewrite Forall_forall. intros HP Hg.
  induction Hg as [|j y idx ys Hj _ IH]; constructor; [|done].
  apply HP. by eapply list_elem_of_lookup_2.
Qed.

Section tie_between_equals.
Context {F : Type} `{!Float64 F, !MathPow F}.
Local Open Scope F_scope.
Implicit Types (e : Elo F) (R K S : list F).

(** When the expected score between two competitors rated [r0] is 0.5 and
    a K-factor times the difference of 0.5 and 0.5 adds nothing to zero, no
    pair moves a diff. *)
Lemma pair_loop_tie e (r0 : F) (k : list F) :
  Qpow e r0 / (Qpow e r0 + Qpow e r0) = fhalf →
  Forall (λ ka, fzero + ka * (fhalf - fhalf) = fzero) k →
  for_range (length k - 1)
    (pair_body e (replicate (length k) r0) k (replicate (length k) fhalf))
    (make (length k) fzero)
  = Some (replicate (length k) fzero).
Proof.
  intros Hq Hk. unfold Qpow in Hq. set (l := length k).
  destruct (for_range_inv (λ _ d, d = replicate l fzero)
    (pair_body e (replicate l r0) k (replicate l fhalf)) (l - 1) (make l fzero))
    as (d & -> & ->); [done| |done].
  intros a d Ha ->. exists (replicate l fzero). split; [|done].
  unfold pair_body.
  rewrite !lookup_replicate_2 by lia. simpl.
  destruct (lookup_lt_is_Some_2 k a) as [ka Hka]; [lia|].
  destruct (lookup_lt_is_Some_2 k (a + 1)) as [kb Hkb]; [lia|].
  rewrite Hka. simpl. rewrite Hq.
  rewrite (Forall_lookup_1 _ _ _ _ Hk Hka).
  rewrite set_index_Some by (rewrite length_replicate; lia). simpl.
  rewrite list_insert_id by (apply lookup_replicate_2; lia).
  rewrite lookup_replicate_2 by lia. simpl. rewrite Hkb. simpl.
  rewrite (Forall_lookup_1 _ _ _ _ Hk Hkb).
  rewrite set_index_Some by (rewrite length_replicate; lia).
  by rewrite list_insert_id by (apply lookup_replicate_2; lia).
Qed.

(** Then, if adding zero to [r0] gives [r0], [Calculate] returns the
    ratings it was given. *)
Lemma Calculate_tie_between_equals e (r0 : F) R K S :
  length R = length K → length R = length S →
  Forall (λ x, x = r0) R → Forall (λ x, x = fhalf) S →
  Qpow e r0 / (Qpow e r0 + Qpow e r0) = fhalf →
  Forall (λ k, fzero + k * (fhalf - fhalf) = fzero) K →
  r0 + fzero = r0 →
  Calculate e R K S = Some (R, None).
Proof.
  intros HK HS Hr Hs Hq Hk Hr0.
  destruct (decide (length R < 2)) as [Hl|Hl].
  { by apply Calculate_short. }
  destruct (Calculate_long e R K S)
    as (r & k & s & diffs & nr & Hgr & Hgk & Hgs & Hd & _ & Hnl & Hnr & ->);
    try done; try lia.
  pose proof (sorted_idx_length S) as Hidx.
  rewrite (gathered_const r0 _ _ _ Hr Hgr) in Hd.
  rewrite (gathered_const fhalf _ _ _ Hs Hgs) in Hd.
  pose proof (gathered_Forall _ _ _ _ Hk Hgk) as Hk'.
  apply gathered_length in Hgk.
  rewrite <-Hgk in Hd. replace (length R) with (length k) in Hd by lia.
  rewrite (pair_loop_tie e r0 k Hq Hk') in Hd. injection Hd as <-.
  do 2 f_equal. apply list_eq. intros j.
  destruct (decide (j < length R)) as [Hj|Hj].
  - destruct (lookup_lt_is_Some_2 R j Hj) as [x Hx].
    assert (j ∈ sorted_idx S) as [i Hi]%list_elem_of_lookup_1.
    { rewrite sorted_idx_perm, elem_of_seq. lia. }
    rewrite (Hnr i j x fzero Hi Hx), Hx.
    + f_equal. rewrite (Forall_lookup_1 _ _ _ _ Hr Hx). done.
    + apply lookup_replicate_2. apply lookup_lt_Some in Hi. lia.
  - rewrite !lookup_ge_None_2; [done|lia..].
Qed.
End tie_between_equals.

(** ** [normalize] *)

Section normalize_cases.
Context {F : Type} `{!Float64 F}.
Local Open Scope F_scope.
Implicit Types (s : list F).

Lemma all_close_neighbours s : all_close s → neighbours_close s.
Proof. intros H j x y Hx Hy. by eapply H. Qed.

Lemma some_neighbours_apart_not_close s :
  some_neighbours_apart s → ¬ neighbours_close s.
Proof.
  intros (j & x & y & Hx & Hy & Hxy) Hs. specialize (Hs j x y Hx Hy).
  unfold close, apart in *. congruence.
Qed.

Lemma isEqual_from_spec s i n :
  i + n < length s →
  ∃ b, isEqual_from s i n = Some b
       ∧ (b = true ↔ ∀ j x y, i ≤ j < i + n → s !! j = Some x →
                               s !! (j + 1)%nat = Some y → close x y).
Proof.
  revert i. induction n as [|n IH]; intros i Hi; simpl.
  - exists true. split; [done|]. split; [|done]. intros _ j x y ?. lia.
  - destruct (lookup_lt_is_Some_2 s i) as [x Hx]; [lia|].
    destruct (lookup_lt_is_Some_2 s (i + 1)) as [y Hy]; [lia|].
    rewrite Hx, Hy. simpl. destruct (feps <? fabs (x - y)) eqn:Hxy.
    + exists false. split; [done|]. split; [done|]. intros Hall.
      specialize (Hall i x y). unfold close in Hall. rewrite Hxy in Hall.
      symmetry. apply Hall; [lia|done..].
    + destruct (IH (S i)) as (b & -> & Hb); [lia|]. exists b. split; [done|].
      rewrite Hb. split.
      * intros Hall j x' y' Hj Hx' Hy'.
        destruct (decide (j = i)) as [->|]; [|apply (Hall j); [lia|done..]].
        unfold close. congruence.
      * intros Hall j x' y' Hj. apply Hall. lia.
Qed.

Lemma isEqual_from_true s :
  2 ≤ length s → neighbours_close s → isEqual_from s 0 (length s - 1) = Some true.
Proof.
  intros Hl Hs. destruct (isEqual_from_spec s 0 (length s - 1)) as (b & -> & Hb); [lia|].
  f_equal. apply Hb. intros j x y _. apply Hs.
Qed.

Lemma isEqual_from_false s :
  2 ≤ length s → ¬ neighbours_close s → isEqual_from s 0 (length s - 1) = Some false.
Proof.
  intros Hl Hs. destruct (isEqual_from_spec s 0 (length s - 1)) as (b & -> & Hb); [lia|].
  f_equal. destruct b; [|done]. exfalso. apply Hs. intros j x y Hx Hy.
  apply (proj1 Hb eq_refl j x y); [|done..].
  apply lookup_lt_Some in Hy. lia.
Qed.

Lemma update_each_map (g : F → F) s : update_each g s = Some (g <$> s).
Proof. apply for_range_map. Qed.

Lemma normalize_short s : length s < 2 → normalize s = Some s.
Proof. intros. unfold normalize. by rewrite decide_True. Qed.

Lemma normalize_tie s :
  2 ≤ length s → neighbours_close s →
  normalize s = Some (replicate (length s) fhalf).
Proof.
  intros Hl Hs. unfold normalize. rewrite decide_False by lia.
  rewrite isEqual_from_true by done. simpl.
  rewrite (for_range_fill (λ _, fhalf) s). by rewrite fmap_const_seq.
Qed.

Lemma normalize_spread s :
  2 ≤ length s → ¬ neighbours_close s →
  ∃ mn mx, low s = Some mn ∧ span s = Some mx
           ∧ normalize s = Some ((λ f, (f - mn) / mx) <$> s).
Proof.
  intros Hl Hs. unfold normalize, low, span. rewrite decide_False by lia.
  rewrite isEqual_from_false by done. simpl.
  destruct s as [|x rest]; [simpl in Hl; lia|].
  eexists _, _. split; [done|]. simpl. split; [done|].
  rewrite update_each_map. simpl. rewrite update_each_map. simpl.
  do 2 f_equal. rewrite <-list_fmap_compose. done.
Qed.

Lemma neighbours_close_cases s :
  2 ≤ length s → neighbours_close s ∨ ¬ neighbours_close s.
Proof.
  intros Hl.
  destruct (isEqual_from_spec s 0 (length s - 1)) as ([] & _ & Hb); [lia|..].
  - left. intros j x y Hx Hy. apply (proj1 Hb eq_refl j x y); [|done..].
    apply lookup_lt_Some in Hy. lia.
  - right. intros Hs. enough (false = true) by done.
    apply Hb. intros j x y _. apply Hs.
Qed.

(** [normalize] never panics and keeps the length. *)
Lemma normalize_total s : ∃ s', normalize s = Some s' ∧ length s' = length s.
Proof.
  destruct (decide (length s < 2)) as [Hl|Hl].
  { exists s. by rewrite normalize_short. }
  destruct (neighbours_close_cases s) as [Hs|Hs]; [lia|..].
  - eexists. rewrite normalize_tie by (done || lia). split; [done|].
    by rewrite length_replicate.
  - destruct (normalize_spread s) as (mn & mx & _ & _ & ->); [lia|done|].
    eexists. split; [done|]. by rewrite length_fmap.
Qed.
End normalize_cases.

(** ** The adapters *)

Section adapter_cases.
Context {F : Type} `{!Float64 F, !MathPow F} {P : Type} `{!Player F P}.
Local Open Scope F_scope.
Implicit Types (e : Elo F) (players : list P) (scores : list F).

Lemma ratings_and_kfactors_eq players :
  ratings_and_kfactors players = Some (Rating <$> players, KFactor <$> players).
Proof.
  unfold ratings_and_kfactors. set (n := length players).
  destruct (for_range_inv
    (λ i '(r, k),
       r = take i (Rating <$> players) ++ replicate (n - i) fzero
       ∧ k = take i (KFactor <$> players) ++ replicate (n - i) fzero)
    (λ i '(r, k),
       p ← players !! i;
       r ← set_index r i (Rating p);
       p ← players !! i;
       k ← set_index k i (KFactor p);
       Some (r, k)) n
    (make n fzero, make n fzero)) as ([r k] & -> & -> & ->).
  - by rewrite !take_0, Nat.sub_0_r.
  - intros i [r k] Hi [-> ->]. destruct (lookup_lt_is_Some_2 players i Hi) as [p Hp].
    eexists (_, _). split.
    + rewrite Hp. simpl. rewrite set_index_Some; [simpl|].
      2:{ rewrite length_app, length_take, length_fmap, length_replicate. lia. }
      rewrite set_index_Some; [done|].
      rewrite length_app, length_take, length_fmap, length_replicate. lia.
    + split; apply insert_take_replicate; try done; by rewrite list_lookup_fmap, Hp.
  - rewrite Nat.sub_diag, !app_nil_r, !take_ge; [done|by rewrite length_fmap..].
Qed.

Lemma FFA_eq e players scores :
  FFA e players scores
  = s ← normalize scores; Calculate e (Rating <$> players) (KFactor <$> players) s.
Proof. unfold FFA, Clone. by rewrite ratings_and_kfactors_eq. Qed.

Lemma Golf_eq e players scores :
  Golf e players scores
  = s ← normalize scores;
    Calculate e (Rating <$> players) (KFactor <$> players) ((λ n, fone - n) <$> s).
Proof.
  unfold Golf, Clone. rewrite ratings_and_kfactors_eq. simpl.
  destruct (normalize scores) as [s|]; simpl; [|done].
  by rewrite update_each_map.
Qed.

(** [lerp] never panics and keeps the length. *)
Lemma lerp_total (scores : list F) :
  ∃ s', lerp scores = Some s' ∧ length s' = length scores.
Proof.
  unfold lerp. case_decide; [by exists scores|]. case_decide.
  - rewrite set_index_Some by lia. eexists. split; [done|]. by rewrite length_insert.
  - rewrite for_range_fill. eexists. split; [done|].
    by rewrite length_fmap, length_seq.
Qed.

Lemma FFA_total e players (scores : list F) : is_Some (FFA e players scores).
Proof.
  rewrite FFA_eq. destruct (normalize_total scores) as (s & -> & _).
  apply Calculate_total.
Qed.

Lemma Golf_total e players (scores : list F) : is_Some (Golf e players scores).
Proof.
  rewrite Golf_eq. destruct (normalize_total scores) as (s & -> & _).
  apply Calculate_total.
Qed.

Lemma Place_total e (players : list P) : is_Some (Place e players).
Proof.
  unfold Place. destruct (lerp_total (make (length players) fzero)) as (s & -> & _).
  apply FFA_total.
Qed.

Lemma H2H_total e (players : P * P) (scores : F * F) : is_Some (H2H e players scores).
Proof.
  unfold H2H. rewrite FFA_eq. unfold slice_of. simpl.
  destruct (normalize_total [scores.1; scores.2]) as (s & -> & Hlen). simpl in *.
  destruct (decide (length s < 2)); [lia|].
  destruct (Calculate_long e [Rating players.1; Rating players.2]
              [KFactor players.1; KFactor players.2] s)
    as (r & k & s' & d & nr & _ & _ & _ & _ & _ & Hnl & _ & ->); simpl; [lia..|].
  destruct nr as [|a [|b [|]]]; simpl in Hnl; try lia. done.
Qed.
End adapter_cases.

Lemma int64_wrap_id z : int64_range z → int64_wrap z = z.
Proof.
  unfold int64_range, int64_wrap. intros Hz.
  rewrite Z.mod_small by lia. lia.
Qed.

Lemma quot_int64_range t step : int64_range t → (0 < step)%Z → int64_range (t ÷ step).
Proof.
  unfold int64_range. intros Ht Hs.
  destruct (Z.le_gt_cases 0 t) as [Hpos|Hneg].
  - pose proof (Z.quot_pos t step Hpos Hs).
    assert (t ÷ step ≤ t)%Z; [|lia].
    rewrite Z.quot_div_nonneg by lia.
    apply Z.div_le_upper_bound; nia.
  - assert (t ÷ step = - ((- t) ÷ step))%Z as ->.
    { rewrite Z.quot_opp_l by lia. lia. }
    pose proof (Z.quot_pos (- t) step ltac:(lia) Hs).
    assert (- t ÷ step ≤ - t)%Z; [|lia].
    rewrite Z.quot_div_nonneg by lia.
    apply Z.div_le_upper_bound; nia.
Qed.

Section race_cases.
Context {F : Type} `{!Float64 F, !MathPow F} {P : Type} `{!Player F P}.
Implicit Types (e : Elo F) (players : list P) (times : list Z).

Lemma Race_eq e players times step :
  (0 < step)%Z → Forall int64_range times →
  Race e players times step = Race_spec e players times step.
Proof.
  intros Hstep Htimes. unfold Race, Race_spec.
  pose proof (for_range_fill_from
    (λ t, q ← int64_div t step; Some (of_int64 q))
    (λ t, of_int64 (t ÷ step)%Z) times fzero) as Hfill.
  erewrite for_range_ext; [rewrite Hfill; [done|]|].
  2:{ intros i s _. simpl. destruct (times !! i); simpl; [|done].
      by destruct (int64_div z step). }
  intros t Ht. unfold int64_div. rewrite decide_False by lia. simpl.
  rewrite int64_wrap_id; [done|].
  apply quot_int64_range; [|done]. rewrite Forall_forall in Htimes. by apply Htimes.
Qed.

Lemma Race_total e players (times : list Z) step :
  step ≠ 0%Z → is_Some (Race e players times step).
Proof.
  intros Hstep. unfold Race.
  pose proof (for_range_fill_from
    (λ t, q ← int64_div t step; Some (of_int64 q))
    (λ t, of_int64 (int64_wrap (t ÷ step))) times fzero) as Hfill.
  erewrite for_range_ext; [rewrite Hfill|].
  - apply Golf_total.
  - intros t _. unfold int64_div. by rewrite decide_False.
  - intros i s _. simpl. destruct (times !! i) as [t|]; simpl; [|done].
    by destruct (int64_div t step).
Qed.
End race_cases.

(** ** The sorted order is unique when the scores are distinct *)

Section order_invariance.
Context {F : Type} `{!Float64 F, !MathPow F, !FloatOrder F}.
Local Open Scope F_scope.
Implicit Types (e : Elo F) (R K S : list F) (p : list nat).






End order_invariance.

(** ** Exact arithmetic *)

Section exact.
Local Open Scope R_scope.
Implicit Types (e : Elo R).

Lemma ltb_true (a b : R) : Exact.ltb a b = true ↔ a < b.
Proof. unfold Exact.ltb. destruct (Rlt_dec a b); split; done || lra. Qed.

Lemma ltb_false (a b : R) : Exact.ltb a b = false ↔ b <= a.
Proof. unfold Exact.ltb. destruct (Rlt_dec a b); split; done || lra. Qed.

#[global] Instance Exact_order : FloatOrder R.
Proof.
  split.
  - intros x. apply ltb_false. simpl. lra.
  - intros x y z. simpl. rewrite !ltb_true. lra.
Qed.

Lemma Pow_pos (x y : R) : 0 < Pow x y.
Proof. apply exp_pos. Qed.

Lemma foldl_Rmin_spec (x : R) rest :
  foldl Rmin x rest ∈ x :: rest ∧ Forall (λ y, foldl Rmin x rest <= y) (x :: rest).
Proof.
  revert x. induction rest as [|y rest IH]; intros x; simpl.
  - split; [left|]. apply Forall_cons. split; [lra|constructor].
  - destruct (IH (Rmin x y)) as [Hin Hle]. split.
    + apply elem_of_cons in Hin as [->|Hin]; [|by do 2 right].
      unfold Rmin. destruct (Rle_dec x y); [left|right; left].
    + inversion_clear Hle as [|? ? Hxy Hrest].
      pose proof (Rmin_l x y). pose proof (Rmin_r x y).
      apply Forall_cons. split; [lra|]. apply Forall_cons. split; [lra|done].
Qed.

Lemma foldl_Rmax_spec (x : R) rest :
  foldl Rmax x rest ∈ x :: rest ∧ Forall (λ y, y <= foldl Rmax x rest) (x :: rest).
Proof.
  revert x. induction rest as [|y rest IH]; intros x; simpl.
  - split; [left|]. apply Forall_cons. split; [lra|constructor].
  - destruct (IH (Rmax x y)) as [Hin Hle]. split.
    + apply elem_of_cons in Hin as [->|Hin]; [|by do 2 right].
      unfold Rmax. destruct (Rle_dec x y); [right; left|left].
    + inversion_clear Hle as [|? ? Hxy Hrest].
      pose proof (Rmax_l x y). pose proof (Rmax_r x y).
      apply Forall_cons. split; [lra|]. apply Forall_cons. split; [lra|done].
Qed.

Lemma foldl_Rmax_shift (c x : R) rest :
  foldl Rmax (x - c) ((λ f, f - c) <$> rest) = foldl Rmax x rest - c.
Proof.
  revert x. induction rest as [|y rest IH]; intros x; simpl; [done|].
  rewrite <-IH. f_equal. unfold Rmax.
  destruct (Rle_dec (x - c) (y - c)), (Rle_dec x y); lra.
Qed.

End exact.

(** ** binary64 *)

Section binary64.
Import SpecFloat.

Lemma SFltb_irrefl f : SFltb f f = false.
Proof.
  destruct f as [s|s| |s m e]; try destruct s; unfold SFltb; simpl; try reflexivity;
    rewrite Z.compare_refl; change (Pos.compare_cont Eq m m) with (Pos.compare m m);
    rewrite Pos.compare_refl; reflexivity.
Qed.

Lemma SFltb_trans f1 f2 f3 :
  SFltb f1 f2 = true → SFltb f2 f3 = true → SFltb f1 f3 = true.
Proof.
  unfold SFltb.
  destruct f1 as [s1|s1| |s1 m1 e1], f2 as [s2|s2| |s2 m2 e2], f3 as [s3|s3| |s3 m3 e3];
    try destruct s1; try destruct s2; try destruct s3; simpl; try (intros; congruence);
    change (Pos.compare_cont Eq ?a ?b) with (Pos.compare a b);
    destruct (Z.compare_spec e1 e2), (Z.compare_spec e2 e3), (Z.compare_spec e1 e3);
    try (intros; congruence); try lia;
    destruct (Pos.compare_spec m1 m2), (Pos.compare_spec m2 m3), (Pos.compare_spec m1 m3);
    simpl; try (intros; congruence); try lia.
Qed.

(** [<] on binary64 is a strict order, NaN included (it is below nothing
    and nothing is below it). *)
#[global] Instance B64_order : FloatOrder float.
Proof.
  split.
  - intros x. simpl. rewrite ltb_spec. apply SFltb_irrefl.
  - intros x y z. simpl. rewrite !ltb_spec. apply SFltb_trans.
Qed.

(** Without NaN, [<] on binary64 is a strict weak order. *)
Lemma SFltb_between f1 f2 f3 :
  f2 ≠ S754_nan →
  SFltb f1 f3 = true → SFltb f1 f2 = true ∨ SFltb f2 f3 = true.
Proof.
  unfold SFltb.
  destruct f1 as [s1|s1| |s1 m1 e1], f2 as [s2|s2| |s2 m2 e2], f3 as [s3|s3| |s3 m3 e3];
    try destruct s1; try destruct s2; try destruct s3; simpl;
    try (intros; congruence); try (intros; by left); try (intros; by right);
    change (Pos.compare_cont Eq ?a ?b) with (Pos.compare a b);
    destruct (Z.compare_spec e1 e2), (Z.compare_spec e2 e3), (Z.compare_spec e1 e3);
    try (intros; congruence); try (intros; by left); try (intros; by right); try lia;
    destruct (Pos.compare_spec m1 m2), (Pos.compare_spec m2 m3), (Pos.compare_spec m1 m3);
    simpl; try (intros; congruence); try (intros; by left); try (intros; by right); try lia.
Qed.

Lemma is_nan_spec (x : float) : PrimFloat.is_nan x = false → Prim2SF x ≠ S754_nan.
Proof.
  unfold PrimFloat.is_nan. rewrite FloatAxioms.eqb_spec. intros H Hn.
  rewrite Hn in H. done.
Qed.

Lemma no_nan_weak_order (s : list float) :
  Forall (λ x, PrimFloat.is_nan x = false) s → weak_order_on s.
Proof.
  rewrite Forall_forall. intros Hs. split.
  - intros x y z _ _ _. apply flt_trans.
  - intros x y z _ Hy _. simpl. rewrite !ltb_spec.
    apply SFltb_between, is_nan_spec. by apply Hs.
Qed.

(** A finite number is a zero or has a mantissa and an exponent. *)
Lemma finite_cases (k : float) :
  is_finite k = true →
  (∃ s, Prim2SF k = S754_zero s) ∨ (∃ s m e, Prim2SF k = S754_finite s m e).
Proof.
  unfold is_finite. intros H. apply negb_true_iff, orb_false_iff in H as [Hn Hi].
  unfold Prim2SF. rewrite Hn, Hi.
  destruct (is_zero k); [left; by eexists|].
  destruct (Z.frexp k) as [r ex].
  destruct (shr_fexp _ _ _ _ _) as [sh e'].
  destruct (shr_m sh); [left|right|left]; by repeat eexists.
Qed.

Lemma finite_nonzero_cases (q : float) :
  is_finite q = true → is_zero q = false →
  ∃ s m e, Prim2SF q = S754_finite s m e.
Proof.
  intros Hf Hz. destruct (finite_cases q Hf) as [[s Hs]|H]; [|done].
  exfalso. unfold is_zero in Hz. rewrite FloatAxioms.eqb_spec, Hs in Hz.
  by destruct s.
Qed.

Lemma infinity_not_finite (x : float) s :
  Prim2SF x = S754_infinity s → is_finite x = false.
Proof.
  intros Hx. rewrite <-(FloatAxioms.SF2Prim_Prim2SF x), Hx. by destruct s.
Qed.

Lemma Prim2SF_zero : Prim2SF 0%float = S754_zero false.
Proof. reflexivity. Qed.

Lemma Prim2SF_half : Prim2SF 0.5%float = S754_finite false 4503599627370496 (-53).
Proof. reflexivity. Qed.

(** The diff of a competitor with a finite K-factor who scores what was
    expected stays zero. *)
Lemma zero_plus_finite_times_zero (k : float) :
  is_finite k = true → (0 + k * (0.5 - 0.5) = 0)%float.
Proof.
  intros Hk. change (0.5 - 0.5)%float with 0%float.
  apply FloatAxioms.Prim2SF_inj.
  rewrite FloatAxioms.add_spec, FloatAxioms.mul_spec, Prim2SF_zero.
  destruct (finite_cases k Hk) as [[s ->]|(s & m & e & ->)]; by destruct s.
Qed.

(** Adding zero changes no number but the negative zero. *)
Lemma plus_zero (r : float) : r ≠ neg_zero → (r + 0 = r)%float.
Proof.
  intros Hr. apply FloatAxioms.Prim2SF_inj.
  rewrite FloatAxioms.add_spec, Prim2SF_zero.
  destruct (Prim2SF r) as [[]|[]| |s m e] eqn:Hsf; try reflexivity.
  destruct Hr. by rewrite <-(FloatAxioms.SF2Prim_Prim2SF r), Hsf.
Qed.

(** The mantissa and the exponent of a finite binary64 number: 53 digits,
    or fewer at the lowest exponent. *)
Lemma finite_shape (q : float) s m e :
  Prim2SF q = S754_finite s m e →
  (Z.pos (digits2_pos m) = 53 ∧ -1074 ≤ e ≤ 971)%Z
  ∨ (Z.pos (digits2_pos m) < 53 ∧ e = -1074)%Z.
Proof.
  intros Hq. pose proof (FloatAxioms.Prim2SF_valid q) as Hv. rewrite Hq in Hv.
  simpl in Hv. unfold bounded, canonical_mantissa in Hv.
  apply andb_true_iff in Hv as [Hc He].
  apply Z.eqb_eq in Hc. apply Z.leb_le in He.
  unfold fexp, emin, prec, emax in *. lia.
Qed.

(** Doubling: the exponent goes up by one, or the mantissa doubles at the
    lowest exponent; no rounding. *)
Lemma double_spec s m e :
  (Z.pos (digits2_pos m) = 53 ∧ -1074 ≤ e ≤ 971)%Z
  ∨ (Z.pos (digits2_pos m) < 53 ∧ e = -1074)%Z →
  SF64add (S754_finite s m e) (S754_finite s m e)
  = if decide (Z.pos (digits2_pos m) = 53)%Z
    then if decide (e + 1 ≤ 971)%Z then S754_finite s m (e + 1) else S754_infinity s
    else S754_finite s (m~0) e.
Proof.
  intros Hshape. unfold SF64add, SFadd.
  rewrite Z.min_id. unfold shl_align. rewrite Z.sub_diag. simpl fst.
  assert (binary_normalize prec emax
            (cond_Zopp s (Z.pos m) + cond_Zopp s (Z.pos m)) e false
          = binary_round prec emax s (m~0) e) as ->.
  { destruct s; simpl; by rewrite Pos.add_diag. }
  unfold binary_round. simpl digits2_pos. rewrite Pos2Z.inj_succ.
  set (d := Z.pos (digits2_pos m)) in *.
  case_decide as Hd.
  - assert (fexp prec emax (Z.succ d + e) = e + 1)%Z as ->
      by (unfold fexp, emin, prec, emax; lia).
    unfold shl_align. replace (e + 1 - e)%Z with 1%Z by lia.
    unfold binary_round_aux, shr_fexp. simpl Zdigits2. rewrite Pos2Z.inj_succ. fold d.
    assert (fexp prec emax (Z.succ d + e) - e = 1)%Z as ->
      by (unfold fexp, emin, prec, emax; lia).
    simpl. fold d.
    assert (fexp prec emax (d + (e + 1)) - (e + 1) = 0)%Z as ->
      by (unfold fexp, emin, prec, emax; lia).
    simpl. unfold emax, prec.
    case_decide.
    + by rewrite (proj2 (Z.leb_le _ _)) by lia.
    + by rewrite (proj2 (Z.leb_gt _ _)) by lia.
  - assert (fexp prec emax (Z.succ d + e) = e)%Z as ->
      by (unfold fexp, emin, prec, emax; lia).
    unfold shl_align. rewrite Z.sub_diag.
    unfold binary_round_aux, shr_fexp. simpl Zdigits2. rewrite Pos2Z.inj_succ. fold d.
    assert (fexp prec emax (Z.succ d + e) - e = 0)%Z as ->
      by (unfold fexp, emin, prec, emax; lia).
    simpl. rewrite Pos2Z.inj_succ. fold d.
    assert (fexp prec emax (Z.succ d + e) - e = 0)%Z as ->
      by (unfold fexp, emin, prec, emax; lia).
    simpl. unfold emax, prec.
    by rewrite (proj2 (Z.leb_le _ _)) by lia.
Qed.

Lemma div_eucl_exact (a b : Z) : (0 < b)%Z → Z.div_eucl (a * b) b = (a, 0%Z).
Proof.
  intros Hb. pose proof (Z.div_mul a b ltac:(lia)) as Hq.
  pose proof (Z.mod_mul a b ltac:(lia)) as Hr.
  unfold Z.div, Z.modulo in Hq, Hr.
  destruct (Z.div_eucl (a * b) b) as [q r]. simpl in *. by subst.
Qed.

Lemma new_location_exact (n : Z) : new_location n 0 = loc_Exact.
Proof. unfold new_location. by destruct (Z.even n). Qed.

(** A finite number that is not zero, divided by its double: the quotient
    of the mantissas is a power of two and the remainder is zero. *)
Lemma half_spec s m e :
  (Z.pos (digits2_pos m) = 53 ∧ -1074 ≤ e ≤ 971)%Z
  ∨ (Z.pos (digits2_pos m) < 53 ∧ e = -1074)%Z →
  (Z.pos (digits2_pos m) = 53 → e + 1 ≤ 971)%Z →
  SF64div (S754_finite s m e) (SF64add (S754_finite s m e) (S754_finite s m e))
  = S754_finite false 4503599627370496 (-53).
Proof.
  intros Hshape Hfin. rewrite double_spec by done.
  set (d := Z.pos (digits2_pos m)) in *.
  case_decide as Hd.
  - rewrite decide_True by lia. unfold SF64div, SFdiv, SFdiv_core_binary.
    simpl Zdigits2. fold d.
    assert (fexp prec emax (d + e - (d + (e + 1))) = -54)%Z as ->
      by (replace (d + e - (d + (e + 1)))%Z with (-1)%Z by lia; reflexivity).
    replace (e - (e + 1))%Z with (-1)%Z by lia.
    change (Z.min (-54) (-1) )%Z with (-54)%Z.
    change (-1 - -54)%Z with 53%Z. cbv iota.
    rewrite Z.shiftl_mul_pow2 by lia. rewrite (Z.mul_comm (Z.pos m)).
    rewrite div_eucl_exact by lia. rewrite new_location_exact.
    by destruct s.
  - unfold SF64div, SFdiv, SFdiv_core_binary.
    simpl Zdigits2. rewrite Pos2Z.inj_succ. fold d.
    assert (fexp prec emax (d + e - (Z.succ d + e)) = -54)%Z as ->
      by (replace (d + e - (Z.succ d + e))%Z with (-1)%Z by lia; reflexivity).
    rewrite Z.sub_diag.
    change (Z.min (-54) 0)%Z with (-54)%Z.
    change (0 - -54)%Z with 54%Z. cbv iota.
    rewrite Z.shiftl_mul_pow2 by lia.
    replace (Z.pos m * 2 ^ 54)%Z with (2 ^ 53 * Z.pos m~0)%Z by lia.
    rewrite div_eucl_exact by lia. rewrite new_location_exact.
    by destruct s.
Qed.

(** On binary64, a finite number that is not zero and whose double is
    finite, divided by its double, is exactly 0.5: between two competitors
    with the same rating the expected score is 0.5 without rounding. *)
Lemma half_of_double (q : float) :
  is_finite q = true → is_zero q = false → is_finite (q + q) = true →
  (q / (q + q) = 0.5)%float.
Proof.
  intros Hf Hz Hff.
  destruct (finite_nonzero_cases q Hf Hz) as (s & m & e & Hq).
  pose proof (finite_shape q s m e Hq) as Hshape.
  apply FloatAxioms.Prim2SF_inj.
  rewrite FloatAxioms.div_spec, FloatAxioms.add_spec, Hq, Prim2SF_half.
  apply half_spec; [done|]. intros Hd.
  destruct (decide (e + 1 ≤ 971)%Z) as [|Hbig]; [done|]. exfalso.
  pose proof (FloatAxioms.add_spec q q) as Hadd.
  rewrite Hq, double_spec in Hadd by done.
  rewrite decide_True, decide_False in Hadd by done.
  apply infinity_not_finite in Hadd. congruence.
Qed.
End binary64.

(** The race of [TestRace] on binary64, whatever [math.Pow] computes. *)
Lemma Race_test_b64 (pw : MathPow float) (e : Elo float) :
  Race e [mk_player 1700 20; mk_player 1500 20; mk_player 1300 20]%float
    [100 * Millisecond; 120 * Millisecond; 140 * Millisecond]%Z (10 * Millisecond)%Z
  = Calculate e [1700; 1500; 1300]%float [20; 20; 20]%float [1; 0.5; 0]%float.
Proof.
  rewrite Race_eq; [|done|].
  2:{ repeat constructor; done. }
  unfold Race_spec. rewrite Golf_eq.
  assert (normalize ((λ t, of_int64 (t ÷ (10 * Millisecond))%Z)
            <$> [100 * Millisecond; 120 * Millisecond; 140 * Millisecond]%Z)
          = Some [0; 0.5; 1]%float) as -> by (vm_compute; reflexivity).
  reflexivity.
Qed.

(** ** The program over a store *)

Section mem_basics.
Context {F : Type} `{!Float64 F, !MathPow F}.
Implicit Types (h : Mem.store F) (s : Mem.slice) (v : list F).

Lemma bind_eq {A B} (m : Mem.M F A) (f : A → Mem.M F B) h :
  (m ≫= f) h = match m h with Some (a, h') => f a h' | None => None end.
Proof. done. Qed.

Lemma bind_Some {A B} (m : Mem.M F A) (f : A → Mem.M F B) h a h' :
  m h = Some (a, h') → (m ≫= f) h = f a h'.
Proof. intros H. unfold mbind, Mem.M_bind. by rewrite H. Qed.

Lemma bind_None {A B} (m : Mem.M F A) (f : A → Mem.M F B) h :
  m h = None → (m ≫= f) h = None.
Proof. intros H. unfold mbind, Mem.M_bind. by rewrite H. Qed.

Lemma bind_lift {A B} (o : option A) (f : A → Mem.M F B) h :
  (Mem.lift o ≫= f) h = match o with Some a => f a h | None => None end.
Proof. by destruct o. Qed.

Lemma bind_assoc {A B C} (m : Mem.M F A) (f : A → Mem.M F B) (g : B → Mem.M F C) h :
  ((m ≫= f) ≫= g) h = (m ≫= λ a, f a ≫= g) h.
Proof. rewrite !bind_eq. by destruct (m h) as [[a h']|]. Qed.

Lemma holds_Ref h l v : Mem.holds h (Mem.Ref l) v ↔ h !! l = Some (Mem.Floats v).
Proof.
  unfold Mem.holds, Mem.floats. split.
  - destruct (h !! l) as [[w|w]|]; naive_solver.
  - by intros ->.
Qed.

Lemma holds_Empty h v : Mem.holds h Mem.Empty v ↔ v = [].
Proof. unfold Mem.holds, Mem.floats. naive_solver. Qed.

Lemma holds_mono h h' s v : h ⊆ h' → Mem.holds h s v → Mem.holds h' s v.
Proof.
  intros Hsub. destruct s as [|l]; [by rewrite !holds_Empty|].
  rewrite !holds_Ref. intros H. by eapply lookup_weaken.
Qed.

Lemma len_holds h s v : Mem.holds h s v → Mem.len s h = Some (length v, h).
Proof. intros H. unfold Mem.len. by rewrite (bind_Some _ _ _ _ _ H). Qed.

Lemma get_holds h s v i : Mem.holds h s v → Mem.get s i h = Mem.lift (v !! i) h.
Proof. intros H. unfold Mem.get. by rewrite (bind_Some _ _ _ _ _ H). Qed.

Lemma set_Ref h l v i x :
  h !! l = Some (Mem.Floats v) →
  Mem.set (Mem.Ref l) i x h
  = match set_index v i x with
    | Some v' => Some ((), <[l:=Mem.Floats v']> h)
    | None => None
    end.
Proof. intros H. unfold Mem.set. by rewrite H. Qed.

Lemma alloc_fresh h (a : Mem.array F) :
  ∃ l, h !! l = None ∧ Mem.alloc a h = Some (Mem.Ref l, <[l:=a]> h).
Proof.
  exists (fresh (dom h)). split; [|done].
  apply not_elem_of_dom, is_fresh.
Qed.

Lemma Clone_holds h s v :
  Mem.holds h s v →
  ∃ c h', Mem.Clone s h = Some (c, h') ∧ h ⊆ h' ∧ Mem.fresh_in h c ∧ Mem.holds h' c v.
Proof.
  intros H. unfold Mem.Clone. rewrite (bind_Some _ _ _ _ _ H).
  destruct v as [|x v].
  - exists Mem.Empty, h. by rewrite holds_Empty.
  - destruct (alloc_fresh h (Mem.Floats (x :: v))) as (l & Hl & ->).
    exists (Mem.Ref l), (<[l:=Mem.Floats (x :: v)]> h).
    split; [done|]. split; [by apply insert_subseteq|]. split; [done|].
    apply holds_Ref, lookup_insert_eq.
Qed.

(** A computation that only reads is the lifting of a computation on the
    elements. *)
Lemma cmp_holds h s v a b : Mem.holds h s v → Mem.cmp s a b h = Mem.lift (cmp v a b) h.
Proof.
  intros H. unfold Mem.cmp, cmp.
  rewrite bind_eq, (get_holds _ _ _ _ H).
  destruct (v !! a) as [sA|]; simpl; [|done].
  rewrite bind_eq, (get_holds _ _ _ _ H).
  destruct (v !! b) as [sB|]; simpl; [|done].
  destruct (flt sA sB); [done|]. by destruct (flt sB sA).
Qed.

Lemma insert_left_lift {A} (cmpM : A → A → Mem.M F Z) (cmpP : A → A → option Z) h x acc :
  (∀ a b, cmpM a b h = Mem.lift (cmpP a b) h) →
  insert_left cmpM x acc h = Mem.lift (insert_left cmpP x acc) h.
Proof.
  intros Hcmp. induction acc as [|y rest IH]; simpl; [done|].
  rewrite bind_eq, Hcmp.
  destruct (cmpP x y) as [c|]; simpl; [|done].
  case_decide; [|done].
  rewrite bind_eq, IH.
  by destruct (insert_left cmpP x rest).
Qed.

Lemma sort_from_lift {A} (cmpM : A → A → Mem.M F Z) (cmpP : A → A → option Z) h acc todo :
  (∀ a b, cmpM a b h = Mem.lift (cmpP a b) h) →
  sort_from cmpM acc todo h = Mem.lift (sort_from cmpP acc todo) h.
Proof.
  intros Hcmp. revert acc. induction todo as [|x todo IH]; intros acc; simpl; [done|].
  rewrite bind_eq, (insert_left_lift _ cmpP) by done.
  destruct (insert_left cmpP x acc) as [acc'|]; simpl; [|done]. apply IH.
Qed.

Lemma for_from_lift {St} (body : nat → St → option St) from n st h :
  for_from from n (λ i st, Mem.lift (F:=F) (body i st)) st h
  = Mem.lift (for_from from n body st) h.
Proof.
  revert from st. induction n as [|n IH]; intros from st; simpl; [done|].
  rewrite bind_lift. destruct (body from st) as [st'|]; simpl; [|done]. apply IH.
Qed.

(** A loop over the store follows the loop over lists, as long as each
    iteration does: [Rel] relates the lists to the store. *)
Lemma for_from_sim {St} (Rel : St → Mem.store F → Prop)
    (bodyP : nat → St → option St) (bodyM : nat → unit → Mem.M F unit) from n st h :
  Rel st h →
  (∀ i st st' h, from ≤ i < from + n → Rel st h → bodyP i st = Some st' →
                 ∃ h', bodyM i () h = Some ((), h') ∧ Rel st' h') →
  ∀ st', for_from from n bodyP st = Some st' →
         ∃ h', for_from from n bodyM () h = Some ((), h') ∧ Rel st' h'.
Proof.
  revert from st h. induction n as [|n IH]; intros from st h HRel Hstep st' Hrun; simpl in *.
  - injection Hrun as <-. by exists h.
  - destruct (bodyP from st) as [st1|] eqn:Hbody; simpl in Hrun; [|done].
    destruct (Hstep from st st1 h) as (h1 & Hh1 & HRel1); [lia|done..|].
    rewrite (bind_Some _ _ _ _ _ Hh1).
    apply (IH (S from) st1 h1); [done| |done].
    intros i st2 st2' h2 Hi. apply Hstep. lia.
Qed.

(** The same, for a loop over lists that may panic: then the loop over the
    store panics too. *)
Lemma for_from_sim_panic {St} (Rel : St → Mem.store F → Prop)
    (bodyP : nat → St → option St) (bodyM : nat → unit → Mem.M F unit) from n st h :
  Rel st h →
  (∀ i st h, from ≤ i < from + n → Rel st h →
             match bodyP i st with
             | Some st' => ∃ h', bodyM i () h = Some ((), h') ∧ Rel st' h'
             | None => bodyM i () h = None
             end) →
  match for_from from n bodyP st with
  | Some st' => ∃ h', for_from from n bodyM () h = Some ((), h') ∧ Rel st' h'
  | None => for_from from n bodyM () h = None
  end.
Proof.
  revert from st h. induction n as [|n IH]; intros from st h HRel Hstep; simpl.
  - by exists h.
  - pose proof (Hstep from st h ltac:(lia) HRel) as Hbody.
    destruct (bodyP from st) as [st1|]; simpl.
    + destruct Hbody as (h1 & Hh1 & HRel1). rewrite (bind_Some _ _ _ _ _ Hh1).
      apply IH; [done|]. intros i st2 h2 Hi. apply Hstep. lia.
    + by rewrite (bind_None _ _ _ Hbody).
Qed.
End mem_basics.

Section mem_normalize.
Context {F : Type} `{!Float64 F, !MathPow F}.
Implicit Types (h : Mem.store F) (s : Mem.slice) (v : list F).
Local Arguments Mem.write : simpl never.

Lemma bind_get h s v i {B} (f : F → Mem.M F B) :
  Mem.holds h s v →
  (Mem.get s i ≫= f) h = match v !! i with Some x => f x h | None => None end.
Proof. intros H. rewrite bind_eq, (get_holds _ _ _ _ H). by destruct (v !! i). Qed.

Lemma write_id h s v : Mem.holds h s v → Mem.write h s v = h.
Proof.
  destruct s as [|l]; [done|]. rewrite holds_Ref. simpl. apply insert_id.
Qed.

Lemma write_write h s v v' : Mem.write (Mem.write h s v) s v' = Mem.write h s v'.
Proof. destruct s as [|l]; [done|]. simpl. apply insert_insert_eq. Qed.

Lemma holds_write h l v : Mem.holds (Mem.write h (Mem.Ref l) v) (Mem.Ref l) v.
Proof. apply holds_Ref. simpl. apply lookup_insert_eq. Qed.

Lemma set_holds h l v i x v' :
  Mem.holds h (Mem.Ref l) v → set_index v i x = Some v' →
  Mem.set (Mem.Ref l) i x h = Some ((), Mem.write h (Mem.Ref l) v').
Proof. rewrite holds_Ref. intros H Hset. by rewrite (set_Ref _ _ _ _ _ H), Hset. Qed.

(** A loop that works on one array. *)
Lemma for_range_one_array h l v n
    (bodyP : nat → list F → option (list F)) (bodyM : nat → unit → Mem.M F unit) :
  (∀ i st st' h1, Mem.holds h1 (Mem.Ref l) st → bodyP i st = Some st' →
                  bodyM i () h1 = Some ((), Mem.write h1 (Mem.Ref l) st')) →
  Mem.holds h (Mem.Ref l) v →
  ∀ v', for_range n bodyP v = Some v' →
        for_range n bodyM () h = Some ((), Mem.write h (Mem.Ref l) v').
Proof.
  intros Hstep Hv v' Hrun. unfold for_range in *.
  destruct (for_from_sim (λ st h1, h1 = Mem.write h (Mem.Ref l) st)
              bodyP bodyM 0 n v h) with (st' := v') as (h' & -> & ->); try done.
  - by rewrite write_id.
  - intros i st st' h1 _ -> Hbody. eexists. split.
    + apply (Hstep i st st'); [apply holds_write|done].
    + apply write_write.
Qed.

Lemma isEqual_from_holds h s v i n :
  Mem.holds h s v → Mem.isEqual_from s i n h = Mem.lift (isEqual_from v i n) h.
Proof.
  intros H. revert i. induction n as [|n IH]; intros i; simpl; [done|].
  rewrite (bind_get _ _ v) by done. destruct (v !! i) as [x|]; simpl; [|done].
  rewrite (bind_get _ _ v) by done. destruct (v !! (i + 1)) as [y|]; simpl; [|done].
  destruct (flt feps (fabs (fsub x y))); [done|]. apply IH.
Qed.

Lemma Min_holds h s v : Mem.holds h s v → Mem.Min s h = Mem.lift (Min v) h.
Proof. intros H. unfold Mem.Min. by rewrite (bind_Some _ _ _ _ _ H). Qed.

Lemma Max_holds h s v : Mem.holds h s v → Mem.Max s h = Mem.lift (Max v) h.
Proof. intros H. unfold Mem.Max. by rewrite (bind_Some _ _ _ _ _ H). Qed.

Lemma update_each_holds (g : F → F) h s v :
  Mem.holds h s v →
  Mem.update_each g s h = Some ((), Mem.write h s (g <$> v)).
Proof.
  intros H. unfold Mem.update_each. rewrite (bind_Some _ _ _ _ _ (len_holds _ _ _ H)).
  destruct s as [|l]; [by apply holds_Empty in H as ->|].
  apply (for_range_one_array h l v (length v)
           (λ i st, f ← st !! i; set_index st i (g f))); [|done|apply for_range_map].
  intros i st st' h1 Hst Hbody.
  rewrite (bind_get _ _ st) by done.
  destruct (st !! i) as [f|]; simpl in *; [|done].
  by apply (set_holds _ _ st).
Qed.

(** [normalize] works in place: the array of its argument gets the elements
    that [normalize] on lists computes, and nothing else changes. *)
Lemma normalize_holds h s v :
  Mem.holds h s v →
  ∃ v', normalize v = Some v' ∧ length v' = length v
        ∧ Mem.normalize s h = Some ((), Mem.write h s v').
Proof.
  intros H. destruct (normalize_total v) as (v' & Hv' & Hlen).
  exists v'. split; [done|]. split; [done|].
  unfold Mem.normalize. rewrite (bind_Some _ _ _ _ _ (len_holds _ _ _ H)).
  unfold normalize in Hv'. case_decide as Hl.
  { injection Hv' as <-. by rewrite write_id. }
  destruct s as [|l]; [apply holds_Empty in H as ->; simpl in Hl; lia|].
  rewrite bind_eq, (isEqual_from_holds _ _ v) by done.
  destruct (isEqual_from v 0 (length v - 1)) as [[]|]; simpl in *; [| |done].
  - by apply (for_range_one_array h l v (length v) (λ i st, set_index st i fhalf));
      [intros i st st' h1 Hst Hbody; by apply (set_holds _ _ st)|..].
  - rewrite bind_eq, (Min_holds _ _ _ H).
    destruct (Min v) as [mn|]; simpl in *; [|done].
    rewrite update_each_map in Hv'. simpl in Hv'.
    rewrite (bind_Some _ _ _ _ _ (update_each_holds _ _ _ _ H)).
    rewrite bind_eq, (Max_holds _ _ _ (holds_write _ _ _)).
    destruct (Max _) as [mx|]; simpl in *; [|done].
    rewrite update_each_map in Hv'. injection Hv' as <-.
    rewrite (update_each_holds _ _ _ _ (holds_write _ _ _)).
    by rewrite write_write.
Qed.
End mem_normalize.

Section mem_calculate.
Context {F : Type} `{!Float64 F, !MathPow F}.
Implicit Types (h hh : Mem.store F) (R K S r k s diffs : list F).

Lemma set_local hh l v i x v' :
  hh !! l = Some (Mem.Floats v) → set_index v i x = Some v' →
  Mem.set (Mem.Ref l) i x hh = Some ((), <[l:=Mem.Floats v']> hh).
Proof. intros H Hset. by rewrite (set_Ref _ _ _ _ _ H), Hset. Qed.

Lemma bind_get_Some hh (sl : Mem.slice) v i x {B} (f : F → Mem.M F B) :
  Mem.holds hh sl v → v !! i = Some x → (Mem.get sl i ≫= f) hh = f x hh.
Proof. intros H Hx. by rewrite (bind_get _ _ _ _ _ H), Hx. Qed.

Lemma bind_set_local hh l v i x v' {B} (f : unit → Mem.M F B) :
  hh !! l = Some (Mem.Floats v) → set_index v i x = Some v' →
  (Mem.set (Mem.Ref l) i x ≫= f) hh = f () (<[l:=Mem.Floats v']> hh).
Proof. intros H Hset. by rewrite (bind_Some _ _ _ _ _ (set_local _ _ _ _ _ _ H Hset)). Qed.

Lemma holds_local hh l v : hh !! l = Some (Mem.Floats v) → Mem.holds hh (Mem.Ref l) v.
Proof. apply holds_Ref. Qed.

Lemma gather_body_sim idx (sR sK sS : Mem.slice) lr lk ls R K S h hh r k s i st' :
  h ⊆ hh → Mem.holds h sR R → Mem.holds h sK K → Mem.holds h sS S →
  h !! lr = None → h !! lk = None → h !! ls = None →
  lr ≠ lk → lr ≠ ls → lk ≠ ls →
  hh !! lr = Some (Mem.Floats r) → hh !! lk = Some (Mem.Floats k) →
  hh !! ls = Some (Mem.Floats s) →
  gather_body idx R K S i (r, k, s) = Some st' →
  ∃ hh',
    Mem.gather_body idx sR sK sS (Mem.Ref lr) (Mem.Ref lk) (Mem.Ref ls) i () hh
    = Some ((), hh')
    ∧ h ⊆ hh'
    ∧ hh' !! lr = Some (Mem.Floats st'.1.1)
    ∧ hh' !! lk = Some (Mem.Floats st'.1.2)
    ∧ hh' !! ls = Some (Mem.Floats st'.2).
Proof.
  intros Hsub HR HK HS Hlr Hlk Hls Hrk Hrs Hks Hr Hk Hs Hbody.
  unfold gather_body in Hbody.
  destruct (idx !! i) as [j|] eqn:Hj; simpl in Hbody; [|done].
  destruct (R !! j) as [x|] eqn:Hx; simpl in Hbody; [|done].
  destruct (set_index r i x) as [r'|] eqn:Hr'; simpl in Hbody; [|done].
  destruct (K !! j) as [y|] eqn:Hy; simpl in Hbody; [|done].
  destruct (set_index k i y) as [k'|] eqn:Hk'; simpl in Hbody; [|done].
  destruct (S !! j) as [z|] eqn:Hz; simpl in Hbody; [|done].
  destruct (set_index s i z) as [s'|] eqn:Hs'; simpl in Hbody; [|done].
  injection Hbody as <-. simpl.
  eexists. split.
  - unfold Mem.gather_body. rewrite bind_lift, Hj.
    rewrite (bind_get_Some _ _ R _ x) by (done || by eapply holds_mono).
    rewrite (bind_set_local _ _ r _ _ r') by done.
    rewrite (bind_get_Some _ _ K _ y)
      by (done || (eapply holds_mono; [|done]; extends)).
    rewrite (bind_set_local _ _ k _ _ k') by (done || lookups).
    rewrite (bind_get_Some _ _ S _ z)
      by (done || (eapply holds_mono; [|done]; extends)).
    apply (set_local _ _ s); [lookups|done].
  - split; [extends|].
    split; [lookups|]. split; lookups.
Qed.

Lemma pair_body_sim (e : Elo F) lr lk ls ld hh r k s diffs a diffs' :
  ld ≠ lr → ld ≠ lk → ld ≠ ls →
  hh !! lr = Some (Mem.Floats r) → hh !! lk = Some (Mem.Floats k) →
  hh !! ls = Some (Mem.Floats s) → hh !! ld = Some (Mem.Floats diffs) →
  pair_body e r k s a diffs = Some diffs' →
  Mem.pair_body e (Mem.Ref lr) (Mem.Ref lk) (Mem.Ref ls) (Mem.Ref ld) a () hh
  = Some ((), <[ld:=Mem.Floats diffs']> hh).
Proof.
  intros Hdr Hdk Hds Hr Hk Hs Hd Hbody. unfold pair_body in Hbody.
  destruct (r !! a) as [ra|] eqn:Hra; simpl in Hbody; [|done].
  destruct (r !! (a + 1)) as [rb|] eqn:Hrb; simpl in Hbody; [|done].
  destruct (diffs !! a) as [da|] eqn:Hda; simpl in Hbody; [|done].
  destruct (k !! a) as [ka|] eqn:Hka; simpl in Hbody; [|done].
  destruct (s !! a) as [sa|] eqn:Hsa; simpl in Hbody; [|done].
  destruct (set_index diffs a _) as [d1|] eqn:Hd1; simpl in Hbody; [|done].
  destruct (d1 !! (a + 1)) as [db|] eqn:Hdb; simpl in Hbody; [|done].
  destruct (k !! (a + 1)) as [kb|] eqn:Hkb; simpl in Hbody; [|done].
  destruct (s !! (a + 1)) as [sb|] eqn:Hsb; simpl in Hbody; [|done].
  unfold Mem.pair_body.
  rewrite (bind_get_Some _ _ r _ ra) by (done || by apply holds_local).
  rewrite (bind_get_Some _ _ r _ rb) by (done || by apply holds_local).
  rewrite (bind_get_Some _ _ diffs _ da) by (done || by apply holds_local).
  rewrite (bind_get_Some _ _ k _ ka) by (done || by apply holds_local).
  rewrite (bind_get_Some _ _ s _ sa) by (done || by apply holds_local).
  rewrite (bind_set_local _ _ diffs _ _ d1) by done.
  rewrite (bind_get_Some _ _ d1 _ db)
    by (done || (apply holds_local; lookups)).
  rewrite (bind_get_Some _ _ k _ kb)
    by (done || (apply holds_local; lookups)).
  rewrite (bind_get_Some _ _ s _ sb)
    by (done || (apply holds_local; lookups)).
  rewrite (set_local _ _ d1 _ _ diffs') by (done || lookups).
  by rewrite insert_insert_eq.
Qed.

Lemma scatter_body_sim idx ld ln hh diffs nr i nr' :
  ln ≠ ld →
  hh !! ld = Some (Mem.Floats diffs) → hh !! ln = Some (Mem.Floats nr) →
  scatter_body idx diffs i nr = Some nr' →
  Mem.scatter_body idx (Mem.Ref ld) (Mem.Ref ln) i () hh
  = Some ((), <[ln:=Mem.Floats nr']> hh).
Proof.
  intros Hnd Hd Hn Hbody. unfold scatter_body in Hbody.
  destruct (idx !! i) as [j|] eqn:Hj; simpl in Hbody; [|done].
  destruct (nr !! j) as [old|] eqn:Hold; simpl in Hbody; [|done].
  destruct (diffs !! i) as [d|] eqn:Hdi; simpl in Hbody; [|done].
  unfold Mem.scatter_body. rewrite bind_lift, Hj.
  rewrite (bind_get_Some _ _ nr _ old) by (done || by apply holds_local).
  rewrite (bind_get_Some _ _ diffs _ d) by (done || by apply holds_local).
  by apply (set_local _ _ nr).
Qed.

(** [Calculate] over the store does what [Calculate] over lists does, keeps
    every array of the caller, and returns a slice of its own. *)
Lemma Calculate_refines (e : Elo F) h (sR sK sS : Mem.slice) R K S :
  Mem.holds h sR R → Mem.holds h sK K → Mem.holds h sS S →
  Mem.returns_fresh h (Calculate e R K S) (Mem.Calculate e sR sK sS h).
Proof.
  intros HR HK HS. unfold Mem.Calculate.
  rewrite (bind_Some _ _ _ _ _ (len_holds _ _ _ HR)).
  rewrite (bind_Some _ _ _ _ _ (len_holds _ _ _ HK)).
  rewrite (bind_Some _ _ _ _ _ (len_holds _ _ _ HS)).
  destruct (decide (length R = length K ∧ length R = length S)) as [[HlK HlS]|Hne].
  2:{ rewrite Calculate_mismatch by done. rewrite decide_True by lia.
      exists Mem.Empty, h. by rewrite holds_Empty. }
  rewrite decide_False by lia.
  destruct (decide (length R < 2)) as [Hl|Hl].
  { rewrite Calculate_short by done.
    destruct (Clone_holds h sR R HR) as (c & h' & Hc & Hsub & Hfresh & Hhold).
    case_decide; [|rewrite decide_True by lia];
      rewrite (bind_Some _ _ _ _ _ Hc); by exists c, h'. }
  rewrite !decide_False by lia.
  destruct (Calculate_loops e R K S)
    as (r & k & s & diffs & nr & Hg & Hp & Hsc & ->); [done|done|lia|].
  set (l := length R) in *. set (idx := sorted_idx S) in *.
  (* idx and its sort *)
  rewrite bind_eq. unfold for_range at 1. rewrite for_from_lift.
  pose proof (idx_loop l) as Hidx. unfold for_range, make in Hidx. rewrite Hidx. simpl.
  rewrite bind_eq. unfold SortStableFunc.
  rewrite (sort_from_lift _ (cmp S)) by (intros; by apply cmp_holds).
  pose proof (SortStableFunc_idx S) as Hsort. unfold SortStableFunc in Hsort.
  rewrite <-HlS in Hsort. fold l in Hsort. rewrite Hsort. simpl. fold idx.
  (* r, k, s *)
  unfold Mem.make.
  destruct (alloc_fresh h (Mem.Floats (replicate l fzero))) as (lr & Hlr & Hmr).
  rewrite (bind_Some _ _ _ _ _ Hmr).
  destruct (alloc_fresh (<[lr:=Mem.Floats (replicate l fzero)]> h)
              (Mem.Floats (replicate l fzero))) as (lk & Hlk & Hmk).
  rewrite (bind_Some _ _ _ _ _ Hmk).
  apply lookup_insert_None in Hlk as [Hlk Hrk].
  destruct (alloc_fresh (<[lk:=Mem.Floats (replicate l fzero)]>
                           (<[lr:=Mem.Floats (replicate l fzero)]> h))
              (Mem.Floats (replicate l fzero))) as (ls & Hls & Hms).
  rewrite (bind_Some _ _ _ _ _ Hms).
  apply lookup_insert_None in Hls as [Hls Hks].
  apply lookup_insert_None in Hls as [Hls Hrs].
  (* the loop that fills r, k, s *)
  destruct (for_from_sim
    (λ st hh, h ⊆ hh
              ∧ hh !! lr = Some (Mem.Floats st.1.1)
              ∧ hh !! lk = Some (Mem.Floats st.1.2)
              ∧ hh !! ls = Some (Mem.Floats st.2))
    (gather_body idx R K S)
    (Mem.gather_body idx sR sK sS (Mem.Ref lr) (Mem.Ref lk) (Mem.Ref ls))
    0 (length idx) (make l fzero, make l fzero, make l fzero)
    (<[ls:=Mem.Floats (replicate l fzero)]>
       (<[lk:=Mem.Floats (replicate l fzero)]>
          (<[lr:=Mem.Floats (replicate l fzero)]> h)))) with (st' := (r, k, s))
    as (h1 & Hrun1 & Hsub1 & Hr1 & Hk1 & Hs1); [| |exact Hg|].
  { simpl. unfold make. split; [extends|]. split; [lookups|]. split; lookups. }
  { intros i [[r0 k0] s0] st' hh _ (Hsub & Hr0 & Hk0 & Hs0) Hbody. simpl in *.
    by eapply gather_body_sim. }
  unfold for_range. rewrite (bind_Some _ _ _ _ _ Hrun1). simpl in Hr1, Hk1, Hs1.
  (* diffs *)
  destruct (alloc_fresh h1 (Mem.Floats (replicate l fzero))) as (ld & Hld & Hmd).
  rewrite (bind_Some _ _ _ _ _ Hmd).
  pose proof (lookup_weaken_None _ _ _ Hld Hsub1) as Hhd.
  assert (ld ≠ lr) as Hdr by congruence.
  assert (ld ≠ lk) as Hdk by congruence.
  assert (ld ≠ ls) as Hds by congruence.
  destruct (for_from_sim
    (λ st hh, h ⊆ hh
              ∧ hh !! lr = Some (Mem.Floats r)
              ∧ hh !! lk = Some (Mem.Floats k)
              ∧ hh !! ls = Some (Mem.Floats s)
              ∧ hh !! ld = Some (Mem.Floats st))
    (pair_body e r k s)
    (Mem.pair_body e (Mem.Ref lr) (Mem.Ref lk) (Mem.Ref ls) (Mem.Ref ld))
    0 (l - 1) (make l fzero)
    (<[ld:=Mem.Floats (replicate l fzero)]> h1)) with (st' := diffs)
    as (h2 & Hrun2 & Hsub2 & _ & _ & _ & Hd2); [| |exact Hp|].
  { split; [by apply insert_subseteq_r|]. unfold make. split; [lookups|].
    split; [lookups|]. split; lookups. }
  { intros i d0 d1 hh _ (Hsub & Hr0 & Hk0 & Hs0 & Hd0) Hbody.
    eexists. split; [by eapply pair_body_sim|].
    split; [by apply insert_subseteq_r|].
    split; [lookups|]. split; [lookups|]. split; lookups. }
  rewrite (bind_Some _ _ _ _ _ Hrun2).
  (* newRatings *)
  destruct (Clone_holds h2 sR R) as (c & h3 & Hc & Hsub3 & Hfresh & Hhold).
  { by eapply holds_mono. }
  rewrite (bind_Some _ _ _ _ _ Hc).
  destruct c as [|ln].
  { apply holds_Empty in Hhold. subst l. rewrite Hhold in Hl. simpl in Hl. lia. }
  simpl in Hfresh. apply holds_Ref in Hhold.
  pose proof (lookup_weaken_None _ _ _ Hfresh Hsub2) as Hln.
  assert (ln ≠ ld) as Hnd by congruence.
  destruct (for_from_sim
    (λ st hh, h ⊆ hh
              ∧ hh !! ld = Some (Mem.Floats diffs)
              ∧ hh !! ln = Some (Mem.Floats st))
    (scatter_body idx diffs)
    (Mem.scatter_body idx (Mem.Ref ld) (Mem.Ref ln))
    0 (length idx) R h3) with (st' := nr)
    as (h4 & Hrun4 & Hsub4 & _ & Hn4); [| |exact Hsc|].
  { split; [by etrans|]. split; [by eapply lookup_weaken|done]. }
  { intros i n0 n1 hh _ (Hsub & Hd0 & Hn0) Hbody.
    eexists. split; [by eapply scatter_body_sim|].
    split; [by apply insert_subseteq_r|]. split; lookups. }
  rewrite (bind_Some _ _ _ _ _ Hrun4).
  exists (Mem.Ref ln), h4. split; [done|]. split; [done|]. split; [done|].
  by apply holds_Ref.
Qed.
End mem_calculate.

Section mem_adapters.
Context {F : Type} `{!Float64 F, !MathPow F} {P : Type} `{!Player F P}.
Implicit Types (h hh : Mem.store F) (e : Elo F) (players : list P).
Local Arguments Mem.write : simpl never.

Lemma holds_durations_mono h hh (st : Mem.slice) (ts : list Z) :
  h ⊆ hh → Mem.holds_durations h st ts → Mem.holds_durations hh st ts.
Proof.
  intros Hsub. unfold Mem.holds_durations, Mem.durations.
  destruct st as [|lt]; [by intros [= <-]|].
  destruct (h !! lt) as [[v|v]|] eqn:Hlt; intros Ht; try done.
  injection Ht as <-. by rewrite (lookup_weaken _ _ _ _ Hlt Hsub).
Qed.

Lemma returns_fresh_weaken h hh pure run :
  h ⊆ hh → Mem.returns_fresh hh pure run → Mem.returns_fresh h pure run.
Proof.
  intros Hsub. unfold Mem.returns_fresh. destruct pure as [[nr err]|]; [|done].
  intros (res & h' & -> & Hsub' & Hfresh & Hholds). exists res, h'.
  split; [done|]. split; [by etrans|]. split; [|done].
  destruct res as [|l]; [done|]. simpl in *. by eapply lookup_weaken_None.
Qed.

Lemma ratings_and_kfactors_refines players h :
  ∃ lr lk hh,
    Mem.ratings_and_kfactors players h = Some ((Mem.Ref lr, Mem.Ref lk), hh)
    ∧ h ⊆ hh
    ∧ hh !! lr = Some (Mem.Floats (Rating <$> players))
    ∧ hh !! lk = Some (Mem.Floats (KFactor <$> players)).
Proof.
  unfold Mem.ratings_and_kfactors, Mem.make. set (n := length players).
  destruct (alloc_fresh h (Mem.Floats (replicate n fzero))) as (lr & Hlr & Hmr).
  rewrite (bind_Some _ _ _ _ _ Hmr).
  destruct (alloc_fresh (<[lr:=Mem.Floats (replicate n fzero)]> h)
              (Mem.Floats (replicate n fzero))) as (lk & Hlk & Hmk).
  rewrite (bind_Some _ _ _ _ _ Hmk).
  apply lookup_insert_None in Hlk as [Hlk Hrk].
  pose proof (ratings_and_kfactors_eq players) as Hpure.
  unfold ratings_and_kfactors in Hpure. fold n in Hpure.
  destruct (for_from_sim
    (λ st hh, h ⊆ hh
              ∧ hh !! lr = Some (Mem.Floats st.1)
              ∧ hh !! lk = Some (Mem.Floats st.2))
    (λ i '(r, k),
       p ← players !! i;
       r ← set_index r i (Rating p);
       p ← players !! i;
       k ← set_index k i (KFactor p);
       Some (r, k))
    (λ i _, p ← Mem.lift (players !! i);
            _ ← Mem.set (Mem.Ref lr) i (Rating p);
            p ← Mem.lift (players !! i);
            Mem.set (Mem.Ref lk) i (KFactor p))
    0 n (make n fzero, make n fzero)
    (<[lk:=Mem.Floats (replicate n fzero)]>
       (<[lr:=Mem.Floats (replicate n fzero)]> h)))
    with (st' := (Rating <$> players, KFactor <$> players))
    as (hh & Hrun & Hsub & Hr & Hk); [| |exact Hpure|].
  { simpl. unfold make. split; [extends|]. split; lookups. }
  { intros i [r k] st' h1 _ (Hsub & Hr & Hk) Hbody. simpl in *.
    destruct (players !! i) as [p|] eqn:Hp; simpl in Hbody; [|done].
    destruct (set_index r i (Rating p)) as [r'|] eqn:Hr'; simpl in Hbody; [|done].
    destruct (set_index k i (KFactor p)) as [k'|] eqn:Hk'; simpl in Hbody; [|done].
    injection Hbody as <-. simpl. eexists. split.
    - rewrite bind_lift. rewrite (bind_set_local _ _ r _ _ r') by done.
      rewrite bind_lift. apply (set_local _ _ k); [lookups|done].
    - split; [extends|]. split; lookups. }
  unfold for_range. rewrite (bind_Some _ _ _ _ _ Hrun).
  by exists lr, lk, hh.
Qed.

(** What [FFA] and [Golf] do after the two loops: clone the scores, change
    the clone, and call [Calculate]. *)
Lemma clone_then_Calculate e h hh (sr sk sc : Mem.slice) rs ks scores
    (changeP : list F → option (list F)) (changeM : Mem.slice → Mem.M F unit) :
  (∀ h1 s v, Mem.holds h1 s v →
             ∃ v', changeP v = Some v' ∧ length v' = length v
                   ∧ changeM s h1 = Some ((), Mem.write h1 s v')) →
  h ⊆ hh → Mem.holds hh sr rs → Mem.holds hh sk ks → Mem.holds h sc scores →
  Mem.returns_fresh h
    (s ← changeP scores; Calculate e rs ks s)
    ((s ← Mem.Clone sc; _ ← changeM s; Mem.Calculate e sr sk s) hh).
Proof.
  intros Hchange Hsub Hr Hk Hsc.
  destruct (Clone_holds hh sc scores) as (c & h1 & Hc & Hsub1 & Hfresh & Hhold).
  { by eapply holds_mono. }
  rewrite (bind_Some _ _ _ _ _ Hc).
  destruct (Hchange h1 c scores Hhold) as (v' & -> & Hlen & Hrun).
  rewrite (bind_Some _ _ _ _ _ Hrun). simpl.
  assert (hh ⊆ Mem.write h1 c v') as Hsub2.
  { destruct c as [|lc]; [done|]. unfold Mem.write. by apply insert_subseteq_r. }
  apply (returns_fresh_weaken _ (Mem.write h1 c v')); [by etrans|].
  apply Calculate_refines; try by eapply holds_mono.
  destruct c as [|lc]; [|apply holds_write].
  apply holds_Empty in Hhold as ->. apply holds_Empty.
  by destruct v'.
Qed.

Lemma FFA_refines e players h (sc : Mem.slice) scores :
  Mem.holds h sc scores →
  Mem.returns_fresh h (FFA e players scores) (Mem.FFA e players sc h).
Proof.
  intros Hsc. rewrite FFA_eq. unfold Mem.FFA.
  destruct (ratings_and_kfactors_refines players h) as (lr & lk & hh & Hrk & Hsub & Hr & Hk).
  rewrite (bind_Some _ _ _ _ _ Hrk).
  apply (clone_then_Calculate e h hh (Mem.Ref lr) (Mem.Ref lk) sc _ _ scores
           normalize Mem.normalize); try done; try by apply holds_Ref.
  intros h1 s v Hv. by apply normalize_holds.
Qed.

Lemma Golf_refines e players h (sc : Mem.slice) scores :
  Mem.holds h sc scores →
  Mem.returns_fresh h (Golf e players scores) (Mem.Golf e players sc h).
Proof.
  intros Hsc. rewrite Golf_eq. unfold Mem.Golf.
  destruct (ratings_and_kfactors_refines players h) as (lr & lk & hh & Hrk & Hsub & Hr & Hk).
  rewrite (bind_Some _ _ _ _ _ Hrk).
  pose proof (clone_then_Calculate e h hh (Mem.Ref lr) (Mem.Ref lk) sc
    (Rating <$> players) (KFactor <$> players) scores
    (λ v : list F, normalize v ≫= λ s : list F, Some ((λ n, fsub fone n) <$> s))
    (λ s, _ ← Mem.normalize s; Mem.update_each (λ n, fsub fone n) s)) as Hmain.
  replace (normalize scores ≫= λ s, Calculate e (Rating <$> players)
             (KFactor <$> players) ((λ n, fsub fone n) <$> s))
    with ((normalize scores ≫= λ s : list F, Some ((λ n, fsub fone n) <$> s))
            ≫= λ s, Calculate e (Rating <$> players) (KFactor <$> players) s)
    by (by destruct (normalize scores)).
  match goal with
  | |- Mem.returns_fresh _ _ ?run =>
      replace run with
        ((s ← Mem.Clone sc;
          _ ← (_ ← Mem.normalize s; Mem.update_each (λ n, fsub fone n) s);
          Mem.Calculate e (Mem.Ref lr) (Mem.Ref lk) s) hh)
  end.
  - apply Hmain; try done; try by apply holds_Ref.
    intros h1 s v Hv.
    destruct (normalize_holds h1 s v Hv) as (v' & -> & Hlen & Hrun).
    exists ((λ n, fsub fone n) <$> v'). split; [done|].
    split; [by rewrite length_fmap|].
    rewrite (bind_Some _ _ _ _ _ Hrun).
    assert (Mem.holds (Mem.write h1 s v') s v') as Hv'.
    { destruct s as [|l]; [|apply holds_write].
      apply holds_Empty in Hv as ->. apply holds_Empty. by destruct v'. }
    rewrite (update_each_holds _ _ _ _ Hv'). by rewrite write_write.
  - rewrite !bind_eq. destruct (Mem.Clone sc hh) as [[c h1]|]; [|done].
    by rewrite bind_assoc.
Qed.

(** [lerp] works in place. *)
Lemma lerp_holds h (s : Mem.slice) (v : list F) :
  Mem.holds h s v →
  ∃ v', lerp v = Some v' ∧ Mem.lerp s h = Some ((), Mem.write h s v').
Proof.
  intros H. destruct (lerp_total v) as (v' & Hv' & _). exists v'. split; [done|].
  unfold Mem.lerp. rewrite (bind_Some _ _ _ _ _ (len_holds _ _ _ H)).
  unfold lerp in Hv'. case_decide as Hl0.
  { injection Hv' as <-. by rewrite write_id. }
  destruct s as [|l]; [apply holds_Empty in H as ->; done|].
  case_decide; [by apply (set_holds _ _ v)|].
  apply (for_range_one_array h l v (length v)
           (λ i st, set_index st i
              (fsub fone (fmul (of_int64 (Z.of_nat i))
                 (fdiv fone (of_int64 (Z.of_nat (length v - 1)))))))); [|done..].
  intros i st st' h1 Hst Hbody. by apply (set_holds _ _ st).
Qed.

Lemma Place_refines e (players : list P) h :
  Mem.returns_fresh h (Place e players) (Mem.Place e players h).
Proof.
  unfold Place, Mem.Place, Mem.make.
  destruct (alloc_fresh h (Mem.Floats (replicate (length players) fzero)))
    as (ls & Hls & Hms).
  rewrite (bind_Some _ _ _ _ _ Hms).
  destruct (lerp_holds (<[ls:=Mem.Floats (replicate (length players) fzero)]> h)
              (Mem.Ref ls) (make (length players) fzero))
    as (v' & -> & Hrun); [apply holds_Ref; unfold make; lookups|].
  rewrite (bind_Some _ _ _ _ _ Hrun). simpl.
  apply (returns_fresh_weaken _
           (Mem.write (<[ls:=Mem.Floats (replicate (length players) fzero)]> h)
              (Mem.Ref ls) v')).
  - unfold Mem.write. extends.
  - apply FFA_refines, holds_write.
Qed.

Lemma Race_refines e players h (st : Mem.slice) times step :
  Mem.holds_durations h st times →
  Mem.returns_fresh h (Race e players times step) (Mem.Race e players st step h).
Proof.
  intros Ht. unfold Race, Mem.Race, Mem.make.
  rewrite (bind_Some _ _ _ _ _ Ht).
  destruct (alloc_fresh h (Mem.Floats (replicate (length times) fzero)))
    as (ls & Hls & Hms).
  rewrite (bind_Some _ _ _ _ _ Hms).
  pose proof (for_from_sim_panic
    (λ s hh, h ⊆ hh ∧ hh !! ls = Some (Mem.Floats s))
    (λ i s, t ← times !! i; q ← int64_div t step; set_index s i (of_int64 q))
    (λ i _, ts ← Mem.durations st;
            t ← Mem.lift (ts !! i);
            q ← Mem.lift (int64_div t step);
            Mem.set (Mem.Ref ls) i (of_int64 q))
    0 (length times) (make (length times) fzero)
    (<[ls:=Mem.Floats (replicate (length times) fzero)]> h)) as Hloop.
  unfold for_range.
  destruct (for_from 0 (length times) _ (make (length times) fzero)) as [s|]; simpl.
  - destruct Hloop as (hh & Hrun & Hsub & Hs).
    { split; [by apply insert_subseteq|]. unfold make. lookups. }
    { intros i s0 hh _ [Hsub Hs].
      pose proof (holds_durations_mono _ _ _ _ Hsub Ht) as Ht'.
      rewrite (bind_Some _ _ _ _ _ Ht'), bind_lift.
      destruct (times !! i) as [t|]; simpl; [|done]. rewrite bind_lift.
      destruct (int64_div t step) as [q|]; simpl; [|done].
      rewrite Hs.
      destruct (set_index s0 i (of_int64 q)) as [s1|]; [|done].
      eexists. split; [done|]. split; [by apply insert_subseteq_r|lookups]. }
    rewrite (bind_Some _ _ _ _ _ Hrun).
    apply (returns_fresh_weaken _ hh); [done|].
    apply Golf_refines. by apply holds_Ref.
  - rewrite bind_eq, Hloop; [done| |].
    { split; [by apply insert_subseteq|]. unfold make. lookups. }
    intros i s0 hh _ [Hsub Hs].
    pose proof (holds_durations_mono _ _ _ _ Hsub Ht) as Ht'.
    rewrite (bind_Some _ _ _ _ _ Ht'), bind_lift.
    destruct (times !! i) as [t|]; simpl; [|done]. rewrite bind_lift.
    destruct (int64_div t step) as [q|]; simpl; [|done].
    rewrite Hs.
    destruct (set_index s0 i (of_int64 q)) as [s1|]; [|done].
    eexists. split; [done|]. split; [by apply insert_subseteq_r|lookups].
Qed.

Lemma H2H_refines e (players : P * P) (scores : F * F) h :
  Mem.returns_value h (H2H e players scores) (Mem.H2H e players scores h).
Proof.
  unfold H2H, Mem.H2H.
  destruct (alloc_fresh h (Mem.Floats (slice_of scores))) as (ll & Hll & Hml).
  rewrite (bind_Some _ _ _ _ _ Hml).
  pose proof (FFA_refines e (slice_of players)
                (<[ll:=Mem.Floats (slice_of scores)]> h) (Mem.Ref ll) (slice_of scores))
    as Hffa.
  destruct (FFA e (slice_of players) (slice_of scores)) as [[nr err]|]; simpl in *.
  - destruct Hffa as (res & h' & Hrun & Hsub & _ & Hres); [apply holds_Ref; lookups|].
    rewrite (bind_Some _ _ _ _ _ Hrun). simpl.
    rewrite (bind_Some _ _ _ _ _ Hres). rewrite bind_lift.
    destruct (copy _ nr !! 0) as [a|]; simpl; [|done]. rewrite bind_lift.
    destruct (copy _ nr !! 1) as [b|]; simpl; [|done].
    exists h'. split; [done|]. etrans; [|exact Hsub]. by apply insert_subseteq.
  - rewrite bind_eq, Hffa; [done|]. apply holds_Ref. lookups.
Qed.
End mem_adapters.

(** * The statements of the specification *)

(** C1, as amended.  On binary64: when all competitors have the same rating
    [r0], which is not the negative zero, all normalized scores are 0.5,
    every K-factor is finite, and [math.Pow(10, r0/e.Base)] (written
    [Qpow e r0]) is finite, not zero, and finite when doubled, [Calculate]
    returns the ratings it was given, bit for bit.  In particular 1500
    against 1500 with the default base, K-factors 20 and scores 0.5 leaves
    1500 and 1500, for every value of [math.Pow(10, 1500/400)] of this
    kind. *)
Theorem equal_ratings_tie_unchanged (pw : MathPow float) :
  (∀ (e : Elo float) (r0 : float) (ratings kFactors normalizedScores : list float),
      length ratings = length kFactors →
      length ratings = length normalizedScores →
      Forall (λ x, x = r0) ratings → r0 ≠ neg_zero →
      Forall (λ x, x = 0.5%float) normalizedScores →
      Forall (λ k, is_finite k = true) kFactors →
      is_finite (Qpow e r0) = true → is_zero (Qpow e r0) = false →
      is_finite (Qpow e r0 + Qpow e r0) = true →
      Calculate e ratings kFactors normalizedScores = Some (ratings, None))
  ∧ (is_finite (Qpow Default 1500%float) = true →
     is_zero (Qpow Default 1500%float) = false →
     is_finite (Qpow Default 1500%float + Qpow Default 1500%float) = true →
     Calculate Default [1500; 1500]%float [20; 20]%float [0.5; 0.5]%float
     = Some ([1500; 1500]%float, None)).
Proof.
  assert (∀ (e : Elo float) (r0 : float) (ratings kFactors normalizedScores : list float),
            length ratings = length kFactors →
            length ratings = length normalizedScores →
            Forall (λ x, x = r0) ratings → r0 ≠ neg_zero →
            Forall (λ x, x = 0.5%float) normalizedScores →
            Forall (λ k, is_finite k = true) kFactors →
            is_finite (Qpow e r0) = true → is_zero (Qpow e r0) = false →
            is_finite (Qpow e r0 + Qpow e r0) = true →
            Calculate e ratings kFactors normalizedScores = Some (ratings, None))
    as Hgen.
  { intros e r0 ratings kFactors normalizedScores HK HS Hr Hr0 Hs Hk Hf Hz Hff.
    apply (Calculate_tie_between_equals e r0); try done.
    - by apply half_of_double.
    - eapply Forall_impl; [exact Hk|]. intros k. apply zero_plus_finite_times_zero.
    - by apply plus_zero. }
  split; [exact Hgen|]. intros Hf Hz Hff.
  apply (Hgen Default 1500%float); try done.
  - by repeat constructor.
  - by repeat constructor.
  - by repeat constructor.
Qed.

(** The tie of [TestCalculate] between 1500 and 1500 with the base 1500:
    [math.Pow] is called on the exponent 1, where its documentation fixes
    the result. *)
Lemma equal_ratings_tie_unchanged_witness :
  Calculate (MathPow0:=B64.Pow_0_1) (mk_Elo 1500%float)
    [1500; 1500]%float [20; 20]%float [0.5; 0.5]%float
  = Some ([1500; 1500]%float, None).
Proof.
  apply (proj1 (equal_ratings_tie_unchanged B64.Pow_0_1)
           (mk_Elo 1500%float) 1500%float); try reflexivity;
    try discriminate; by repeat constructor.
Defined.

(** Equal scores other than 0.5 change equal ratings: with the score 1 for
    both, each of the two gains half the K-factor. *)
Lemma tie_with_full_scores :
  Calculate (MathPow0:=B64.Pow_0_1) (mk_Elo 1500%float)
    [1500; 1500]%float [20; 20]%float [1; 1]%float
  = Some ([1510; 1510]%float, None).
Proof. vm_compute. reflexivity. Qed.

(** On binary64 each of the other hypotheses is needed as well.  Two
    competitors rated negative zero come out with the positive zero. *)
Lemma tie_at_negative_zero :
  Calculate (MathPow0:=B64.Pow_0_1) Default
    [neg_zero; neg_zero] [20; 20]%float [0.5; 0.5]%float
  = Some ([0; 0]%float, None).
Proof. vm_compute. reflexivity. Qed.

(** An infinite K-factor turns the rating into NaN. *)
Lemma tie_with_infinite_K :
  Calculate (MathPow0:=B64.Pow_0_1) (mk_Elo 1500%float)
    [1500; 1500]%float [infinity; 20%float] [0.5; 0.5]%float
  = Some ([nan; 1500%float], None).
Proof. vm_compute. reflexivity. Qed.

(** With the base zero the exponent is infinite, [math.Pow] returns an
    infinity, and both ratings become NaN. *)
Lemma tie_at_Base_zero (pw : MathPow float) :
  pw 10%float infinity = infinity →
  Calculate (mk_Elo 0%float) [1500; 1500]%float [20; 20]%float [0.5; 0.5]%float
  = Some ([nan; nan], None).
Proof. intros Hpw. cbv in Hpw. cbv. rewrite Hpw. cbv. reflexivity. Qed.

Section C1.
Local Open Scope R_scope.

(** C1, refuted as stated.  The "upset tie" of [TestCalculate]: 1700 against
    1300, K-factor 20 each, both scores 0.5.  The scores are equal and the
    ratings change: the higher rated loses points to the lower rated (the
    test expects 1691.8 and 1308.2). *)
Lemma upset_tie_changes_ratings :
  ∃ n1 n2,
    Calculate Default [1700; 1300] [20; 20] [/ 2; / 2] = Some ([n1; n2], None)
    ∧ n1 < 1700 ∧ 1300 < n2.
Proof.
  run_exact.
  assert (Exact.ltb (/ 2) (/ 2) = false) as -> by (apply ltb_false; lra).
  run_exact.
  eexists _, _. split; [reflexivity|].
  set (Qa := Rpower 10 (1700 / 400)). set (Qb := Rpower 10 (1300 / 400)).
  assert (0 < Qb) by apply exp_pos.
  assert (Qb < Qa) by (apply Rpower_lt; lra).
  assert (/ 2 < Qa / (Qa + Qb)).
  { apply Rmult_lt_reg_r with (Qa + Qb); [lra|]. field_simplify; lra. }
  assert (Qb / (Qa + Qb) < / 2).
  { apply Rmult_lt_reg_r with (Qa + Qb); [lra|]. field_simplify; lra. }
  lra.
Qed.
End C1.


Section C2.
Local Open Scope R_scope.


End C2.

Section C3.
Local Open Scope R_scope.
Implicit Types (e : Elo R).

(** C3, as amended.  In exact arithmetic, with a base that is not zero:
    between two competitors with the same K-factor whose normalized scores
    are the outcome of a match between two (1 and 0, 0 and 1, 0.5 and 0.5,
    or any two scores that add up to 1), what one gains the other loses. *)
Theorem two_competitors_zero_sum e (r1 r2 k s1 s2 : R) :
  Base e ≠ 0 → s1 + s2 = 1 →
  ∃ n1 n2,
    Calculate e [r1; r2] [k; k] [s1; s2] = Some ([n1; n2], None)
    ∧ (n1 - r1) + (n2 - r2) = 0.
Proof.
  intros _ Hs.
  assert (∀ x, 0 < Rpower 10 x) as Hpos by (intros; apply exp_pos).
  pose proof (Hpos (r1 / Base e)). pose proof (Hpos (r2 / Base e)).
  run_exact. destruct (Exact.ltb s2 s1); run_exact;
    [|destruct (Exact.ltb s1 s2); run_exact];
    (eexists _, _; split; [reflexivity|]);
    replace s2 with (1 - s1) by lra; field; lra.
Qed.

(** The win of [TestCalculate] between 1700 and 1300. *)
Lemma two_competitors_zero_sum_witness :
  ∃ n1 n2,
    Calculate Default [1700; 1300] [20; 20] [1; 0] = Some ([n1; n2], None)
    ∧ (n1 - 1700) + (n2 - 1300) = 0.
Proof. apply (two_competitors_zero_sum Default 1700 1300 20 1 0); simpl; lra. Defined.

(** The scores have to add up to 1: in general the two changes add up to
    the K-factor times what the sum of the scores exceeds 1 by. *)
Lemma two_competitors_sum_of_changes e (r1 r2 k s1 s2 : R) :
  Base e ≠ 0 →
  ∃ n1 n2,
    Calculate e [r1; r2] [k; k] [s1; s2] = Some ([n1; n2], None)
    ∧ (n1 - r1) + (n2 - r2) = k * (s1 + s2 - 1).
Proof.
  intros _.
  assert (∀ x, 0 < Rpower 10 x) as Hpos by (intros; apply exp_pos).
  pose proof (Hpos (r1 / Base e)). pose proof (Hpos (r2 / Base e)).
  run_exact. destruct (Exact.ltb s2 s1); run_exact;
    [|destruct (Exact.ltb s1 s2); run_exact];
    (eexists _, _; split; [reflexivity|]); field; lra.
Qed.
End C3.

(** C3, refuted as stated.  On binary64 the two changes are rounded one by
    one.  The winner rated 400 against the loser rated 0, K-factor 20 each
    and the default base: [math.Pow] is called on the exponents 1 and 0,
    where its documentation fixes the results 10 and 1; the winner ends at
    401.81818181818181 and the loser at -1.8181818181818183, so that the
    winner gains a little less than the loser loses: the two changes add up
    to about -5.3e-15, not to zero. *)
Lemma zero_sum_fails_on_binary64 :
  ∃ n1 n2,
    Calculate (MathPow0:=B64.Pow_0_1) Default [400; 0]%float [20; 20]%float [1; 0]%float
    = Some ([n1; n2], None)
    ∧ ((n1 - 400) + (n2 - 0) <? 0)%float = true
    ∧ (n1 - 400 =? - (n2 - 0))%float = false.
Proof. vm_compute. eexists _, _. split; [reflexivity|]. split; reflexivity. Qed.

(** The same for every function in the place of [math.Pow] that returns 1
    on the exponent 0 and the base on the exponent 1. *)
Lemma zero_sum_up_to_rounding (pw : MathPow float) :
  pw 10%float 0%float = 1%float →
  pw 10%float 1%float = 10%float →
  ∃ n1 n2,
    Calculate (mk_Elo 400%float) [400; 0]%float [20; 20]%float [1; 0]%float
    = Some ([n1; n2], None)
    ∧ ((n1 - 400) + (n2 - 0) <? 0)%float = true.
Proof.
  intros Pow_10_0 Pow_10_1.
  cbv. rewrite Pow_10_0, Pow_10_1. cbv.
  eexists _, _. split; reflexivity.
Qed.

(** C4.  [Calculate] does not panic, whatever it is given.  It returns an
    error exactly when its three arguments do not all have the same length,
    and the ratings it returns with an error are nil. *)
Theorem Calculate_error_iff_lengths_differ {F} `{!Float64 F, !MathPow F}
    (e : Elo F) (ratings kFactors normalizedScores : list F) :
  ∃ newRatings err,
    Calculate e ratings kFactors normalizedScores = Some (newRatings, err)
    ∧ (is_Some err ↔
         ¬ (length ratings = length kFactors
            ∧ length kFactors = length normalizedScores))
    ∧ (is_Some err → newRatings = []).
Proof.
  destruct (decide (length ratings = length kFactors
                    ∧ length ratings = length normalizedScores)) as [[HK HS]|Hne].
  - assert (∃ nr, Calculate e ratings kFactors normalizedScores = Some (nr, None))
      as [nr Hnr].
    { destruct (decide (length ratings < 2)).
      - exists ratings. by apply Calculate_short.
      - destruct (Calculate_long e ratings kFactors normalizedScores)
          as (r & k & s & diffs & nr & _ & _ & _ & _ & _ & _ & _ & Hnr); try done; try lia.
        by exists nr. }
    exists nr, None. split; [done|]. split.
    + split; [by intros [? ?]|]. intros Hn. destruct Hn. split; congruence.
    + by intros [? ?].
  - exists [], (Some ErrLength). split; [by apply Calculate_mismatch|].
    split; [|done]. split; [|by eexists]. intros _ [? ?]. apply Hne. split; congruence.
Qed.

(** C5.  With equal lengths and no or one competitor, [Calculate] returns
    the ratings it was given, element for element, and no error; over the
    store, it returns them in a slice of its own, which shares nothing with
    the arrays of the caller, and leaves these as they were. *)
Theorem Calculate_zero_or_one {F} `{!Float64 F, !MathPow F}
    (e : Elo F) (ratings kFactors normalizedScores : list F) :
  length ratings = length kFactors →
  length ratings = length normalizedScores →
  length ratings ≤ 1 →
  Calculate e ratings kFactors normalizedScores = Some (ratings, None)
  ∧ ∀ (h : Mem.store F) (sR sK sS : Mem.slice),
      Mem.holds h sR ratings → Mem.holds h sK kFactors →
      Mem.holds h sS normalizedScores →
      ∃ res h',
        Mem.Calculate e sR sK sS h = Some (res, None, h')
        ∧ h ⊆ h'
        ∧ Mem.fresh_in h res
        ∧ Mem.holds h' res ratings.
Proof.
  intros HK HS Hl.
  assert (Calculate e ratings kFactors normalizedScores = Some (ratings, None)) as Hpure
    by (apply Calculate_short; done || lia).
  split; [done|]. intros h sR sK sS HsR HsK HsS.
  pose proof (Calculate_refines e h sR sK sS _ _ _ HsR HsK HsS) as Href.
  by rewrite Hpure in Href.
Qed.

Section C5.
Local Open Scope R_scope.

(** The "no opponents" case of [TestCalculate]. *)
Lemma Calculate_zero_or_one_witness :
  Calculate Default [1500] [20] [1] = Some ([1500], None)
  ∧ ∀ (h : Mem.store R) (sR sK sS : Mem.slice),
      Mem.holds h sR [1500] → Mem.holds h sK [20] → Mem.holds h sS [1] →
      ∃ res h',
        Mem.Calculate Default sR sK sS h = Some (res, None, h')
        ∧ h ⊆ h'
        ∧ Mem.fresh_in h res
        ∧ Mem.holds h' res [1500].
Proof. apply (Calculate_zero_or_one Default [1500] [20] [1]); simpl; lia. Defined.
End C5.

(** C6.  The code fails the claim on the scores 0, 6e-10 and 1.2e-9.  They
    are not all equal within 1e-9: the first and the last are 1.2e-9 apart,
    so the claim, and the comment in [normalize] ("normalize ties (when
    min==max) to 0.5"), have them rescaled to 0, 0.5 and 1.  But the loop
    compares neighbours only, and no two neighbours are further apart than
    1e-9: [normalize] takes the three scores for a tie and sets them to 0.5,
    so that the lowest does not become 0 nor the highest 1. *)
Lemma normalize_drift_is_tie :
  ¬ all_close [0; 6e-10; 1.2e-9]%float
  ∧ normalize [0; 6e-10; 1.2e-9]%float = Some [0.5; 0.5; 0.5]%float
  ∧ normalize [0; 6e-10; 1.2e-9]%float
    ≠ Some ((λ x, (x - 0) / (1.2e-9 - 0)) <$> [0; 6e-10; 1.2e-9])%float.
Proof.
  split; [|split].
  - intros H. specialize (H 0 2 0%float 1.2e-9%float eq_refl eq_refl).
    vm_compute in H. discriminate.
  - vm_compute. reflexivity.
  - intros H. float_discriminate H.
Qed.

(** [FFA] hands these scores to [normalize]: three players with the scores
    0, 6e-10 and 1.2e-9 are rated as if they had tied. *)
Lemma FFA_drift_is_tie {P} `{!Player float P} (pw : MathPow float)
    (e : Elo float) (players : list P) :
  FFA e players [0; 6e-10; 1.2e-9]%float
  = Calculate e (Rating <$> players) (KFactor <$> players) [0.5; 0.5; 0.5]%float.
Proof.
  rewrite FFA_eq.
  assert (normalize [0; 6e-10; 1.2e-9]%float = Some [0.5; 0.5; 0.5]%float) as ->
    by (vm_compute; reflexivity).
  done.
Qed.

(** On binary64 the subtraction can overflow: between scores near the two
    ends of the range the highest score becomes NaN instead of 1. *)
Lemma normalize_overflows :
  normalize [1e308; -1e308]%float = Some [nan; 0%float].
Proof. vm_compute. reflexivity. Qed.

(** C7, as amended.  [normalize] leaves a sequence of fewer than two
    elements as it is, and sets every element of a longer sequence to 0.5
    when all its elements are equal within 1e-9. *)
Theorem normalize_ties {F} `{!Float64 F} (s : list F) :
  (length s < 2 → normalize s = Some s)
  ∧ (2 ≤ length s → all_close s → normalize s = Some (replicate (length s) fhalf)).
Proof.
  split; [apply normalize_short|].
  intros Hl Hs. apply normalize_tie; [done|]. by apply all_close_neighbours.
Qed.

(** The tie of [TestH2H]: the scores 35 and 35 become 0.5 and 0.5. *)
Lemma normalize_ties_witness :
  all_close [35%float; 35%float]
  ∧ normalize [35%float; 35%float] = Some [0.5%float; 0.5%float].
Proof.
  assert (all_close [35%float; 35%float]) as Hclose.
  { intros i j x y Hx Hy.
    assert (x = 35%float) as ->.
    { destruct i as [|[|i]]; simplify_eq/=; done. }
    assert (y = 35%float) as ->.
    { destruct j as [|[|j]]; simplify_eq/=; done. }
    reflexivity. }
  split; [done|].
  exact (proj2 (normalize_ties [35%float; 35%float]) ltac:(simpl; lia) Hclose).
Defined.

(** C7, refuted as stated.  A single score is all-equal, and [normalize]
    leaves it as it is: 3 stays 3 and does not become 0.5. *)
Lemma normalize_single_score_untouched :
  all_close [3%float]
  ∧ normalize [3%float] = Some [3%float]
  ∧ normalize [3%float] ≠ Some (replicate 1 fhalf).
Proof.
  split; [|split; [reflexivity|]].
  - intros [|i] [|j] x y Hx Hy; simplify_eq/=; reflexivity.
  - intros H. float_discriminate H.
Qed.

(** C8.  For a positive step, [Race] is [Race_spec], that is [Golf] on the
    truncated quotients of the durations by the step; and the race of 100ms, 120ms and 140ms in
    steps of 10ms between players rated 1700, 1500 and 1300, K-factor 20
    each, returns what [Calculate] returns on the scores 1, 0.5 and 0. *)
Theorem Race_is_Golf_of_quotients :
  (∀ F (fl : Float64 F) (pw : MathPow F) P (pl : Player F P)
     (e : Elo F) (players : list P) (times : list Z) (step : Z),
      (0 < step)%Z → Forall int64_range times →
      Race e players times step = Race_spec e players times step)
  ∧ (∀ (pw : MathPow float) (e : Elo float),
      Race e [mk_player 1700 20; mk_player 1500 20; mk_player 1300 20]%float
        [100 * Millisecond; 120 * Millisecond; 140 * Millisecond]%Z
        (10 * Millisecond)%Z
      = Calculate e [1700; 1500; 1300]%float [20; 20; 20]%float [1; 0.5; 0]%float).
Proof.
  split.
  - intros. by apply Race_eq.
  - apply Race_test_b64.
Qed.

(** The solo race of [TestRace], in exact arithmetic. *)
Lemma Race_is_Golf_of_quotients_witness :
  Race (F:=R) Default [mk_player 1700%R 20%R] [100 * Millisecond]%Z (10 * Millisecond)%Z
  = Race_spec (F:=R) Default [mk_player 1700%R 20%R] [100 * Millisecond]%Z
      (10 * Millisecond)%Z.
Proof.
  apply (proj1 Race_is_Golf_of_quotients); [done|].
  repeat constructor; done.
Defined.

(** C9.  Every public operation returns (for [Race]: when the step is not
    zero), and over the store it does what it does over lists, leaves every
    array the store had before the call as it was, the arguments among
    them, and returns its ratings in a slice that is empty or whose array
    was not in the store before the call.  [Place] takes no array of
    numbers; [H2H] takes its arrays by value and returns one. *)
Theorem no_operation_mutates_its_arguments {F} `{!Float64 F, !MathPow F}
    {P} `{!Player F P} (e : Elo F) (h : Mem.store F) :
  (∀ (sR sK sS : Mem.slice) (R K S : list F),
      Mem.holds h sR R → Mem.holds h sK K → Mem.holds h sS S →
      is_Some (Calculate e R K S)
      ∧ Mem.returns_fresh h (Calculate e R K S) (Mem.Calculate e sR sK sS h))
  ∧ (∀ (players : list P) (sc : Mem.slice) (scores : list F),
      Mem.holds h sc scores →
      is_Some (FFA e players scores)
      ∧ Mem.returns_fresh h (FFA e players scores) (Mem.FFA e players sc h))
  ∧ (∀ (players : list P) (sc : Mem.slice) (scores : list F),
      Mem.holds h sc scores →
      is_Some (Golf e players scores)
      ∧ Mem.returns_fresh h (Golf e players scores) (Mem.Golf e players sc h))
  ∧ (∀ (players : list P) (st : Mem.slice) (times : list Z) (step : Z),
      Mem.holds_durations h st times →
      (step ≠ 0%Z → is_Some (Race e players times step))
      ∧ Mem.returns_fresh h (Race e players times step) (Mem.Race e players st step h))
  ∧ (∀ players : list P,
      is_Some (Place e players)
      ∧ Mem.returns_fresh h (Place e players) (Mem.Place e players h))
  ∧ (∀ (players : P * P) (scores : F * F),
      is_Some (H2H e players scores)
      ∧ Mem.returns_value h (H2H e players scores) (Mem.H2H e players scores h)).
Proof.
  split; [|split; [|split; [|split; [|split]]]].
  - intros sR sK sS R K S HR HK HS. split; [apply Calculate_total|].
    by apply Calculate_refines.
  - intros players sc scores Hsc. split; [apply FFA_total|]. by apply FFA_refines.
  - intros players sc scores Hsc. split; [apply Golf_total|]. by apply Golf_refines.
  - intros players st times step Ht. split; [apply Race_total|]. by apply Race_refines.
  - intros players. split; [apply Place_total|]. apply Place_refines.
  - intros players scores. split; [apply H2H_total|]. apply H2H_refines.
Qed.

Section C9.
Local Open Scope R_scope.

(** The win of [TestCalculate] between 1700 and 1300, with the three
    arguments in three arrays of the store. *)
Lemma no_operation_mutates_its_arguments_witness :
  is_Some (Calculate Default [1700; 1300] [20; 20] [1; 0])
  ∧ Mem.returns_fresh
      (<[0%nat:=Mem.Floats [1700; 1300]]>
         (<[1%nat:=Mem.Floats [20; 20]]> (<[2%nat:=Mem.Floats [1; 0]]> ∅)))
      (Calculate Default [1700; 1300] [20; 20] [1; 0])
      (Mem.Calculate Default (Mem.Ref 0) (Mem.Ref 1) (Mem.Ref 2)
         (<[0%nat:=Mem.Floats [1700; 1300]]>
            (<[1%nat:=Mem.Floats [20; 20]]> (<[2%nat:=Mem.Floats [1; 0]]> ∅)))).
Proof.
  apply (proj1 (no_operation_mutates_its_arguments (P:=player R) Default _));
    apply holds_Ref; lookups.
Defined.
End C9.

(** C10.  Inside [H2H] the call of [FFA] gets two ratings, two K-factors and
    two normalized scores: it returns two ratings and no error, and [H2H]
    returns these two, which are what [Calculate] makes of the two players. *)
Theorem H2H_no_error {F} `{!Float64 F, !MathPow F} {P} `{!Player F P}
    (e : Elo F) (players : P * P) (scores : F * F) :
  ∃ s a b,
    normalize [scores.1; scores.2] = Some s
    ∧ length s = 2
    ∧ Calculate e [Rating players.1; Rating players.2]
        [KFactor players.1; KFactor players.2] s = Some ([a; b], None)
    ∧ FFA e (slice_of players) (slice_of scores) = Some ([a; b], None)
    ∧ H2H e players scores = Some (a, b).
Proof.
  destruct players as [p1 p2], scores as [s1 s2]. simpl.
  destruct (normalize_total [s1; s2]) as (s & Hs & Hlen). simpl in Hlen.
  destruct (Calculate_long e [Rating p1; Rating p2] [KFactor p1; KFactor p2] s)
    as (r & k & s' & diffs & nr & _ & _ & _ & _ & _ & Hnl & _ & Hnr); simpl; try done; try lia.
  destruct nr as [|a [|b [|]]]; simpl in Hnl; try lia.
  exists s, a, b. repeat split; try done.
  - rewrite FFA_eq. unfold slice_of. simpl. rewrite Hs. done.
  - unfold H2H. rewrite FFA_eq. unfold slice_of. simpl. rewrite Hs. simpl.
    rewrite Hnr. done.
Qed.

(** * Further properties of the program *)

(** ** The pair loop, place by place *)

Section pair_loop.
Context {F : Type} `{!Float64 F, !MathPow F}.
Local Open Scope F_scope.
Implicit Types (e : Elo F) (r k s diffs R K S : list F).

Lemma diff_lower_Some e r k s l i :
  length r = l → length k = l → length s = l → i < l →
  is_Some (diff_lower e r k s i).
Proof.
  intros Hr Hk Hs Hi. destruct i as [|p]; simpl; [done|].
  destruct (lookup_lt_is_Some_2 r p) as [rp ->]; [lia|].
  destruct (lookup_lt_is_Some_2 r (S p)) as [ri ->]; [lia|].
  destruct (lookup_lt_is_Some_2 k (S p)) as [ki ->]; [lia|].
  destruct (lookup_lt_is_Some_2 s (S p)) as [si ->]; [lia|].
  done.
Qed.

(** The pair loop leaves at every place the diff from the comparison with
    the place before and the one from the comparison with the place behind,
    added to zero in this order. *)
Lemma pair_loop_diffs e r k s l :
  length r = l → length k = l → length s = l →
  ∃ diffs,
    for_range (l - 1) (pair_body e r k s) (make l fzero) = Some diffs
    ∧ length diffs = l
    ∧ ∀ i, i < l → diffs !! i = diff_at e r k s i.
Proof.
  intros Hr Hk Hs.
  destruct (for_range_inv
    (λ a diffs,
       length diffs = l
       ∧ ∀ i, i < l →
           diffs !! i = if decide (i < a) then diff_at e r k s i
                        else if decide (i = a) then diff_lower e r k s i
                        else Some fzero)
    (pair_body e r k s) (l - 1) (make l fzero)) as (diffs & Hrun & Hlen & Hd).
  - split; [apply length_replicate|]. intros i Hi. rewrite decide_False by lia.
    unfold make. rewrite lookup_replicate_2 by done.
    by destruct (decide (i = 0)) as [->|].
  - intros a diffs Ha [Hlen Hinv].
    destruct (lookup_lt_is_Some_2 r a) as [ra Hra]; [lia|].
    destruct (lookup_lt_is_Some_2 r (a + 1)) as [rb Hrb]; [lia|].
    destruct (lookup_lt_is_Some_2 k a) as [ka Hka]; [lia|].
    destruct (lookup_lt_is_Some_2 s a) as [sa Hsa]; [lia|].
    destruct (lookup_lt_is_Some_2 k (a + 1)) as [kb Hkb]; [lia|].
    destruct (lookup_lt_is_Some_2 s (a + 1)) as [sb Hsb]; [lia|].
    destruct (diff_lower_Some e r k s l a) as [da Hda]; [done..|lia|].
    pose proof (Hinv a ltac:(lia)) as Hat.
    rewrite decide_False, decide_True, Hda in Hat by lia.
    pose proof (Hinv (a + 1)%nat ltac:(lia)) as Hnext.
    rewrite decide_False, decide_False in Hnext by lia.
    eexists. split.
    + unfold pair_body. rewrite Hra, Hrb. simpl. rewrite Hat, Hka, Hsa. simpl.
      rewrite set_index_Some by lia. simpl.
      rewrite list_lookup_insert_ne, Hnext, Hkb, Hsb by lia. simpl.
      apply set_index_Some. rewrite length_insert. lia.
    + split; [by rewrite !length_insert|]. intros i Hi.
      destruct (decide (i = (a + 1)%nat)) as [->|Hb].
      { rewrite list_lookup_insert_eq by (rewrite length_insert; lia).
        rewrite decide_False, decide_True by lia.
        rewrite Nat.add_1_r in *. simpl. by rewrite Hra, Hrb, Hkb, Hsb. }
      rewrite list_lookup_insert_ne by done.
      destruct (decide (i = a)) as [->|Hia].
      { rewrite list_lookup_insert_eq by lia. rewrite decide_True by lia.
        unfold diff_at. by rewrite Hda, Hrb, Hra, Hka, Hsa. }
      rewrite list_lookup_insert_ne by done. rewrite Hinv by done.
      destruct (decide (i < a)), (decide (i < S a)); try lia; [done|].
      rewrite decide_False by done. by rewrite decide_False by lia.
  - exists diffs. split; [done|]. split; [done|]. intros i Hi.
    rewrite Hd by done. destruct (decide (i < l - 1)); [done|].
    rewrite decide_True by lia. unfold diff_at.
    destruct (diff_lower e r k s i) as [d|]; simpl; [|done].
    by rewrite lookup_ge_None_2 by lia.
Qed.

(** Two or more competitors: the order of the scores, and the new rating of
    the competitor at every place of it. *)
Lemma Calculate_places e R K S :
  length R = length K → length R = length S → 2 ≤ length R →
  ∃ idx r k s newRatings,
    SortStableFunc (seq 0 (length S)) (cmp S) = Some idx
    ∧ idx ≡ₚ seq 0 (length S)
    ∧ gathered R idx r ∧ gathered K idx k ∧ gathered S idx s
    ∧ Calculate e R K S = Some (newRatings, None)
    ∧ length newRatings = length R
    ∧ ∀ i j, idx !! i = Some j →
        ∃ x d, R !! j = Some x ∧ diff_at e r k s i = Some d
               ∧ newRatings !! j = Some (x + d).
Proof.
  intros HK HS Hl.
  destruct (Calculate_long e R K S)
    as (r & k & s & diffs & nr & Hr & Hk & Hs & Hdiffs & Hdl & Hnl & Hnr & Hcalc);
    [done..|].
  pose proof (sorted_idx_length S) as Hil.
  destruct (pair_loop_diffs e r k s (length R)) as (diffs' & Hdiffs' & _ & Hat).
  { rewrite (gathered_length _ _ _ Hr). lia. }
  { rewrite (gathered_length _ _ _ Hk). lia. }
  { rewrite (gathered_length _ _ _ Hs). lia. }
  assert (diffs' = diffs) as -> by congruence.
  exists (sorted_idx S), r, k, s, nr.
  split; [apply SortStableFunc_idx|]. split; [apply sorted_idx_perm|].
  do 5 (split; [done|]). intros i j Hj.
  assert (i < length R) as Hi by (apply lookup_lt_Some in Hj; lia).
  assert (j < length R) as Hjl.
  { apply list_elem_of_lookup_2, sorted_idx_lt in Hj. lia. }
  destruct (lookup_lt_is_Some_2 R j Hjl) as [x Hx].
  destruct (lookup_lt_is_Some_2 diffs i) as [d Hd]; [lia|].
  exists x, d. split; [done|]. split; [by rewrite <-Hat|]. by eapply Hnr.
Qed.
End pair_loop.

(** ** The order of the scores *)

Section stable_insertion.
Context {A : Type} (lt : A → A → bool) (B : relation A).

(** Inserting [x] keeps the prefix in the order [B] when [x] comes before
    what it passes, after what it stops at, and after what comes before
    that. *)
Lemma insert_by_stable x acc :
  (∀ y, y ∈ acc → lt x y = true → B x y) →
  (∀ y, y ∈ acc → lt x y = false → B y x) →
  (∀ y z, y ∈ acc → z ∈ acc → B z y → lt x y = false → lt x z = false) →
  StronglySorted (flip B) acc →
  StronglySorted (flip B) (insert_by lt x acc).
Proof.
  induction acc as [|y rest IH]; intros H1 H2 H3 Hs; simpl.
  { repeat constructor. }
  apply StronglySorted_cons in Hs as [Hy Hrest].
  destruct (lt x y) eqn:Hxy.
  - apply StronglySorted_cons. split.
    + rewrite insert_by_perm. constructor; [|done]. apply H1; [by left|done].
    + apply IH; [..|done].
      * intros z Hz. apply H1. by right.
      * intros z Hz. apply H2. by right.
      * intros z w Hz Hw. apply H3; by right.
  - apply StronglySorted_cons. split; [|by apply StronglySorted_cons].
    constructor; [apply H2; [by left|done]|].
    apply Forall_forall. intros z Hz. apply H2; [by right|].
    apply (H3 y z); [by left|by right| |done].
    rewrite Forall_forall in Hy. by apply Hy.
Qed.
End stable_insertion.

Section stable_order.
Context {F : Type} `{!Float64 F}.
Local Open Scope F_scope.
Implicit Types (S : list F).

Lemma foldl_insert_stable S acc k m :
  weak_order_on S → k + m ≤ length S →
  Forall (λ j, j < k) acc →
  StronglySorted (flip (before S)) acc →
  StronglySorted (flip (before S))
    (foldl (λ rev_prefix a, insert_by (lt_idx S) a rev_prefix) acc (seq k m)).
Proof.
  intros [Htrans Hbetween]. revert acc k.
  induction m as [|m IH]; intros acc k Hkm Hacc Hs; simpl; [done|].
  rewrite Forall_forall in Hacc.
  assert (∀ j, j ≤ k → ∃ x, S !! j = Some x ∧ x ∈ S) as Hin.
  { intros j Hj. destruct (lookup_lt_is_Some_2 S j) as [x Hx]; [lia|].
    exists x. split; [done|]. by eapply list_elem_of_lookup_2. }
  apply IH; [lia| |].
  - apply Forall_forall. intros j. rewrite insert_by_perm, elem_of_cons.
    intros [->|Hj%Hacc]; lia.
  - apply insert_by_stable; [..|done].
    + intros y _ Hky. by left.
    + intros y Hy%Hacc Hky. right. split; [|done].
      unfold below. by rewrite Hky.
    + intros y z Hy%Hacc Hz%Hacc Hzy Hky.
      destruct (lt_idx S k z) eqn:Hkz; [exfalso|done].
      destruct (Hin k) as (xk & Hxk & ?); [lia|].
      destruct (Hin y) as (xy & Hxy & ?); [lia|].
      destruct (Hin z) as (xz & Hxz & ?); [lia|].
      unfold before, below, lt_idx in *. rewrite ?Hxk, ?Hxy, ?Hxz in *.
      destruct Hzy as [Hzy|[Hyz _]].
      * rewrite (Htrans xk xz xy) in Hky; done.
      * destruct (Hbetween xk xy xz) as [?|?]; congruence.
Qed.

(** On scores that [<] orders weakly, the order [Calculate] visits the
    competitors in is the stable sorted order: ascending by score, and by
    place in the input where neither score is below the other. *)
Lemma sorted_idx_stable S :
  weak_order_on S → StronglySorted (before S) (sorted_idx S).
Proof.
  intros HS. apply StronglySorted_flip_reverse.
  apply foldl_insert_stable; [done|simpl; lia|constructor|constructor].
Qed.

(** There is one such order only: every stable sort of the indices ends with
    the order [Calculate] is given here, whichever way it gets there. *)
Lemma stable_order_unique `{!FloatOrder F} S idx :
  weak_order_on S →
  idx ≡ₚ seq 0 (length S) → StronglySorted (before S) idx →
  idx = sorted_idx S.
Proof.
  intros HS Hperm Hsorted.
  apply (StronglySorted_unique_strong (before S));
    [|done|by apply sorted_idx_stable|by rewrite sorted_idx_perm].
  intros a b _ _ Hab Hba.
  assert (∀ i j, below (lt_idx S) i j → below (lt_idx S) j i → False) as Hasym.
  { unfold below, lt_idx. intros i j Hij Hji.
    destruct (S !! i) as [x|]; [|done]. destruct (S !! j) as [y|]; [|done].
    pose proof (flt_trans x y x Hij Hji) as Hxx.
    rewrite flt_irrefl in Hxx. done. }
  destruct Hab as [Hab|[Hnba Hlt]], Hba as [Hba|[Hnab Hlt']].
  - destruct (Hasym a b Hab Hba).
  - done.
  - done.
  - lia.
Qed.
End stable_order.

(** On reals [<] orders every list of scores weakly. *)
Lemma exact_weak_order (s : list R) : weak_order_on s.
Proof.
  split; intros x y z _ _ _; simpl; rewrite !ltb_true; [lra|].
  intros Hxz. destruct (Rlt_dec x y); [by left|right; lra].
Qed.

(** ** What the operations return *)

Section results.
Context {F : Type} `{!Float64 F, !MathPow F} {P : Type} `{!Player F P}.
Local Open Scope F_scope.
Implicit Types (e : Elo F) (R K S scores : list F) (players : list P).

(** [Calculate] returns an error and no ratings, or no error and as many
    ratings as it was given. *)
Lemma Calculate_result e R K S :
  ∃ newRatings err,
    Calculate e R K S = Some (newRatings, err)
    ∧ (is_Some err ↔ ¬ (length R = length K ∧ length R = length S))
    ∧ (is_Some err → newRatings = [])
    ∧ (err = None → length newRatings = length R).
Proof.
  destruct (decide (length R = length K ∧ length R = length S)) as [[HK HS]|Hne].
  - assert (∃ nr, Calculate e R K S = Some (nr, None) ∧ length nr = length R)
      as (nr & Hnr & Hlen).
    { destruct (decide (length R < 2)).
      - exists R. by rewrite Calculate_short.
      - destruct (Calculate_long e R K S)
          as (r & k & s & diffs & nr & _ & _ & _ & _ & _ & Hlen & _ & Hnr);
          [done|done|lia|]. by exists nr. }
    exists nr, None. split; [done|]. split; [|split; [by intros [? ?]|done]].
    split; [by intros [? ?]|]. intros Hn. by destruct Hn.
  - exists [], (Some ErrLength). split; [by apply Calculate_mismatch|].
    split; [|split; [done|by intros ?]]. split; [done|by eexists].
Qed.

(** The same for an adapter that hands [Calculate] the ratings and K-factors
    of the players and [n] scores. *)
Lemma adapter_result e players S (n : nat) :
  length S = n →
  ∃ newRatings err,
    Calculate e (Rating <$> players) (KFactor <$> players) S = Some (newRatings, err)
    ∧ (is_Some err ↔ n ≠ length players)
    ∧ (is_Some err → newRatings = [])
    ∧ (err = None → length newRatings = length players).
Proof.
  intros HS.
  destruct (Calculate_result e (Rating <$> players) (KFactor <$> players) S)
    as (nr & err & Hrun & Herr & Hnil & Hlen).
  rewrite !length_fmap in Herr. rewrite !length_fmap in Hlen.
  exists nr, err. split; [done|]. split; [|done].
  rewrite Herr. split; [intros Hne Heq; apply Hne; split; congruence|].
  intros Hne [_ Heq]. congruence.
Qed.

(** The scores [Race] hands to [Golf] when the step is not zero. *)
Lemma Race_scores e players (times : list Z) step :
  step ≠ 0%Z →
  Race e players times step
  = Golf e players ((λ t, of_int64 (int64_wrap (t ÷ step))) <$> times).
Proof.
  intros Hstep. unfold Race.
  pose proof (for_range_fill_from
    (λ t, q ← int64_div t step; Some (of_int64 q))
    (λ t, of_int64 (int64_wrap (t ÷ step))) times fzero) as Hfill.
  erewrite for_range_ext; [rewrite Hfill; [done|]|].
  - intros t _. unfold int64_div. by rewrite decide_False.
  - intros i s _. simpl. destruct (times !! i) as [t|]; simpl; [|done].
    by destruct (int64_div t step).
Qed.
End results.

(** ** Expected scores in exact arithmetic *)

Section exact_pairs.
Local Open Scope R_scope.
Implicit Types (e : Elo R) (r k s R K S : list R).

Lemma Qpow_pos e (x : R) : 0 < Qpow e x.
Proof. apply exp_pos. Qed.

Lemma Ea_bounds e (ra rb : R) : 0 < Ea e ra rb < 1.
Proof.
  unfold Ea. exact_ops. pose proof (Qpow_pos e ra). pose proof (Qpow_pos e rb).
  split.
  - apply Rdiv_lt_0_compat; lra.
  - apply Rmult_lt_reg_r with (Qpow e ra + Qpow e rb); [lra|].
    unfold Rdiv. rewrite Rmult_assoc, Rinv_l by lra. lra.
Qed.

Lemma Eb_bounds e (ra rb : R) : 0 < Eb e ra rb < 1.
Proof.
  unfold Eb. exact_ops. pose proof (Qpow_pos e ra). pose proof (Qpow_pos e rb).
  split.
  - apply Rdiv_lt_0_compat; lra.
  - apply Rmult_lt_reg_r with (Qpow e ra + Qpow e rb); [lra|].
    unfold Rdiv. rewrite Rmult_assoc, Rinv_l by lra. lra.
Qed.

(** Adding the same number to two ratings changes neither expected score. *)
Lemma Qpow_shift e (x c : R) : Qpow e (x + c) = Qpow e x * Qpow e c.
Proof.
  unfold Qpow. exact_ops. unfold Pow, Exact.pow. rewrite <-Rpower_plus.
  f_equal. unfold Rdiv. ring.
Qed.

Lemma Ea_shift e (ra rb c : R) : Ea e (ra + c) (rb + c) = Ea e ra rb.
Proof.
  unfold Ea. rewrite !Qpow_shift. exact_ops.
  pose proof (Qpow_pos e ra). pose proof (Qpow_pos e rb). pose proof (Qpow_pos e c).
  field. split; [lra|nra].
Qed.

Lemma Eb_shift e (ra rb c : R) : Eb e (ra + c) (rb + c) = Eb e ra rb.
Proof.
  unfold Eb. rewrite !Qpow_shift. exact_ops.
  pose proof (Qpow_pos e ra). pose proof (Qpow_pos e rb). pose proof (Qpow_pos e c).
  field. split; [lra|nra].
Qed.

(** The diff at a place is the sum of at most two terms [k * (s - E)] with
    [E] strictly between 0 and 1, one for each neighbour there is. *)
Lemma diff_at_terms e r k s l i :
  length r = l → length k = l → length s = l → (i < l)%nat →
  ∃ ki si t1 t2,
    k !! i = Some ki ∧ s !! i = Some si
    ∧ diff_at e r k s i = Some (t1 + t2)
    ∧ (i = 0%nat ∧ t1 = 0 ∨ ∃ E, i ≠ 0%nat ∧ 0 < E < 1 ∧ t1 = ki * (si - E))
    ∧ (S i = l ∧ t2 = 0 ∨ ∃ E, S i ≠ l ∧ 0 < E < 1 ∧ t2 = ki * (si - E)).
Proof.
  intros Hr Hk Hs Hi.
  destruct (lookup_lt_is_Some_2 r i) as [ri Hri]; [lia|].
  destruct (lookup_lt_is_Some_2 k i) as [ki Hki]; [lia|].
  destruct (lookup_lt_is_Some_2 s i) as [si Hsi]; [lia|].
  assert (∃ t1, diff_lower e r k s i = Some t1
            ∧ (i = 0%nat ∧ t1 = 0 ∨ ∃ E, i ≠ 0%nat ∧ 0 < E < 1 ∧ t1 = ki * (si - E)))
    as (t1 & Hlow & Ht1).
  { destruct i as [|p]; simpl; [exists 0; split; [done|by left]|].
    destruct (lookup_lt_is_Some_2 r p) as [rp Hrp]; [lia|].
    rewrite Hrp, Hri, Hki, Hsi. simpl. eexists. split; [done|]. right.
    exists (Eb e rp ri). split; [done|]. split; [apply Eb_bounds|unfold Eb; exact_ops; lra]. }
  unfold diff_at. rewrite Hlow. simpl.
  destruct (decide (S i = l)) as [Hlast|Hlast].
  - exists ki, si, t1, 0. rewrite (lookup_ge_None_2 r (i + 1)) by lia.
    split; [done|]. split; [done|]. split; [f_equal; lra|]. split; [done|by left].
  - destruct (lookup_lt_is_Some_2 r (i + 1)) as [rn Hrn]; [lia|].
    rewrite Hrn, Hri, Hki, Hsi. simpl.
    exists ki, si, t1, (ki * (si - Ea e ri rn)).
    split; [done|]. split; [done|]. split; [done|]. split; [done|]. right.
    exists (Ea e ri rn). split; [done|]. split; [apply Ea_bounds|done].
Qed.

Lemma diff_at_shift e r k s c i :
  diff_at e ((λ x, x + c) <$> r) k s i = diff_at e r k s i.
Proof.
  unfold diff_at.
  assert (diff_lower e ((λ x, x + c) <$> r) k s i = diff_lower e r k s i) as ->.
  { destruct i as [|p]; simpl; [done|]. rewrite !list_lookup_fmap.
    destruct (r !! p) as [rp|]; simpl; [|done].
    destruct (r !! S p) as [ri|]; simpl; [|done].
    destruct (k !! S p) as [ki|]; simpl; [|done].
    destruct (s !! S p) as [si|]; simpl; [|done].
    by rewrite Eb_shift. }
  destruct (diff_lower e r k s i) as [d|]; simpl; [|done].
  rewrite !list_lookup_fmap.
  destruct (r !! (i + 1)%nat) as [rn|]; simpl; [|done].
  destruct (r !! i) as [ri|]; simpl; [|done].
  destruct (k !! i) as [ki|]; simpl; [|done].
  destruct (s !! i) as [si|]; simpl; [|done].
  by rewrite Ea_shift.
Qed.

(** Two competitors: what each of them gets. *)
Lemma Calculate_two e (r1 r2 k1 k2 s1 s2 : R) :
  Calculate e [r1; r2] [k1; k2] [s1; s2]
  = Some ([r1 + k1 * (s1 - Qpow e r1 / (Qpow e r1 + Qpow e r2));
           r2 + k2 * (s2 - Qpow e r2 / (Qpow e r1 + Qpow e r2))], None).
Proof.
  pose proof (Qpow_pos e r1) as H1. pose proof (Qpow_pos e r2) as H2.
  unfold Qpow in *. simpl in H1, H2. unfold Pow, Exact.pow in *.
  run_exact. destruct (Exact.ltb s2 s1); run_exact;
    [|destruct (Exact.ltb s1 s2); run_exact];
    (do 2 f_equal; f_equal; [|f_equal]; field; lra).
Qed.
End exact_pairs.

(** ** [normalize] in exact arithmetic *)

Section exact_normalize.
Local Open Scope R_scope.
Implicit Types (s : list R).

Lemma close_exact (x y : R) : close x y ↔ Rabs (x - y) <= / 1000000000.
Proof. unfold close. exact_ops. apply ltb_false. Qed.

Lemma apart_exact (x y : R) : apart x y ↔ / 1000000000 < Rabs (x - y).
Proof. unfold apart. exact_ops. apply ltb_true. Qed.

(** A map that keeps the distances keeps what the first loop of
    [normalize] finds. *)
Lemma neighbours_close_isometry (g : R → R) s :
  (∀ x y, Rabs (g x - g y) = Rabs (x - y)) →
  neighbours_close (g <$> s) ↔ neighbours_close s.
Proof.
  intros Hg. split.
  - intros H j x y Hx Hy. apply close_exact. rewrite <-Hg. apply close_exact.
    apply (H j); by rewrite list_lookup_fmap, ?Hx, ?Hy.
  - intros H j x y. rewrite !list_lookup_fmap.
    destruct (s !! j) as [x0|] eqn:Hx; [|done].
    destruct (s !! (j + 1)%nat) as [y0|] eqn:Hy; [|done].
    intros [= <-] [= <-]. apply close_exact. rewrite Hg. apply close_exact.
    by apply (H j).
Qed.

Lemma lowest_unique s (lo lo' : R) :
  lo ∈ s → Forall (λ x, lo <= x) s → lo' ∈ s → Forall (λ x, lo' <= x) s → lo = lo'.
Proof.
  rewrite !Forall_forall. intros Hin Hle Hin' Hle'.
  pose proof (Hle lo' Hin'). pose proof (Hle' lo Hin). lra.
Qed.

Lemma highest_unique s (hi hi' : R) :
  hi ∈ s → Forall (λ x, x <= hi) s → hi' ∈ s → Forall (λ x, x <= hi') s → hi = hi'.
Proof.
  rewrite !Forall_forall. intros Hin Hle Hin' Hle'.
  pose proof (Hle hi' Hin'). pose proof (Hle' hi Hin). lra.
Qed.

(** Without a tie, [normalize] maps the lowest score to 0, the highest to
    1, and the others in proportion; the two are different. *)
Lemma normalize_spread_exact s :
  (2 ≤ length s)%nat → ¬ neighbours_close s →
  ∃ lo hi,
    (lo ∈ s ∧ Forall (λ x, lo <= x) s)
    ∧ (hi ∈ s ∧ Forall (λ x, x <= hi) s)
    ∧ lo < hi
    ∧ normalize s = Some ((λ x, (x - lo) / (hi - lo)) <$> s).
Proof.
  intros Hl Hs.
  destruct (normalize_spread s Hl Hs) as (mn & mx & Hmn & Hmx & Hnorm).
  destruct s as [|x rest]; [simpl in Hl; lia|].
  unfold low in Hmn. simpl in Hmn. injection Hmn as <-.
  unfold span in Hmx. simpl in Hmx. injection Hmx as <-.
  destruct (foldl_Rmin_spec x rest) as [Hlo_in Hlo]. set (lo := foldl Rmin x rest) in *.
  destruct (foldl_Rmax_spec x rest) as [Hhi_in Hhi]. set (hi := foldl Rmax x rest) in *.
  assert (foldl Rmax (x - lo) ((λ f, f - lo) <$> rest) = hi - lo) as Hspan
    by apply foldl_Rmax_shift.
  exists lo, hi. split; [done|]. split; [done|]. split.
  - destruct (Rlt_dec lo hi) as [|Hge]; [done|]. exfalso. apply Hs.
    intros j a b Ha Hb. apply close_exact.
    rewrite Forall_forall in Hlo, Hhi.
    pose proof (Hlo a (list_elem_of_lookup_2 _ _ _ Ha)).
    pose proof (Hlo b (list_elem_of_lookup_2 _ _ _ Hb)).
    pose proof (Hhi a (list_elem_of_lookup_2 _ _ _ Ha)).
    pose proof (Hhi b (list_elem_of_lookup_2 _ _ _ Hb)).
    replace (a - b) with 0 by lra. rewrite Rabs_R0. lra.
  - rewrite Hnorm. f_equal. apply list_fmap_ext. intros i y _. simpl.
    unfold Rdiv. do 2 f_equal. apply Hspan.
Qed.

Lemma normalize_by_extremes s (lo hi : R) :
  (2 ≤ length s)%nat → ¬ neighbours_close s →
  lo ∈ s → Forall (λ x, lo <= x) s → hi ∈ s → Forall (λ x, x <= hi) s →
  normalize s = Some ((λ x, (x - lo) / (hi - lo)) <$> s).
Proof.
  intros Hl Hs Hlo_in Hlo Hhi_in Hhi.
  destruct (normalize_spread_exact s Hl Hs)
    as (lo' & hi' & [Hlo_in' Hlo'] & [Hhi_in' Hhi'] & _ & ->).
  by rewrite (lowest_unique s lo lo'), (highest_unique s hi hi').
Qed.

(** Only the differences between the scores count. *)
Lemma normalize_shift s (c : R) :
  (2 ≤ length s)%nat → normalize ((λ x, x + c) <$> s) = normalize s.
Proof.
  intros Hl.
  assert (neighbours_close ((λ x, x + c) <$> s) ↔ neighbours_close s) as Hiff.
  { apply neighbours_close_isometry. intros x y. f_equal. lra. }
  destruct (neighbours_close_cases s Hl) as [Hs|Hs].
  - rewrite !normalize_tie; [by rewrite length_fmap|done..|by rewrite length_fmap|tauto].
  - destruct (normalize_spread_exact s Hl Hs)
      as (lo & hi & [Hlo_in Hlo] & [Hhi_in Hhi] & Hlt & ->).
    rewrite (normalize_by_extremes _ (lo + c) (hi + c)).
    + f_equal. rewrite <-list_fmap_compose. apply list_fmap_ext.
      intros i x _. simpl. field. lra.
    + by rewrite length_fmap.
    + tauto.
    + apply list_elem_of_fmap. by exists lo.
    + apply Forall_fmap. eapply Forall_impl; [exact Hlo|]. simpl. intros. lra.
    + apply list_elem_of_fmap. by exists hi.
    + apply Forall_fmap. eapply Forall_impl; [exact Hhi|]. simpl. intros. lra.
Qed.

(** Turning the scores upside down turns the normalized scores upside
    down. *)
Lemma normalize_opp s :
  (2 ≤ length s)%nat →
  normalize (Ropp <$> s) = fmap (M:=option) (fmap (M:=list) (λ n, 1 - n)) (normalize s).
Proof.
  intros Hl.
  assert (neighbours_close (Ropp <$> s) ↔ neighbours_close s) as Hiff.
  { apply neighbours_close_isometry. intros x y.
    replace (- x - - y) with (- (x - y)) by lra. apply Rabs_Ropp. }
  destruct (neighbours_close_cases s Hl) as [Hs|Hs].
  - rewrite !normalize_tie; [|done..|by rewrite length_fmap|tauto].
    simpl. rewrite length_fmap, fmap_replicate. do 2 f_equal. lra.
  - destruct (normalize_spread_exact s Hl Hs)
      as (lo & hi & [Hlo_in Hlo] & [Hhi_in Hhi] & Hlt & ->).
    rewrite (normalize_by_extremes _ (- hi) (- lo)).
    + simpl. f_equal. rewrite <-!list_fmap_compose. apply list_fmap_ext.
      intros i x _. simpl. field. lra.
    + by rewrite length_fmap.
    + tauto.
    + apply list_elem_of_fmap. by exists hi.
    + apply Forall_fmap. eapply Forall_impl; [exact Hhi|]. simpl. intros. lra.
    + apply list_elem_of_fmap. by exists lo.
    + apply Forall_fmap. eapply Forall_impl; [exact Hlo|]. simpl. intros. lra.
Qed.

Lemma ratio_bounds (lo hi x : R) :
  lo < hi → lo <= x <= hi → 0 <= (x - lo) / (hi - lo) <= 1.
Proof.
  intros Hlt Hx. assert (0 < / (hi - lo)) by (apply Rinv_0_lt_compat; lra). split.
  - apply Rmult_le_pos; lra.
  - apply Rmult_le_reg_r with (hi - lo); [lra|].
    unfold Rdiv. rewrite Rmult_assoc, Rinv_l by lra. lra.
Qed.

Lemma ratio_mono (lo hi x y : R) :
  lo < hi → x <= y → (x - lo) / (hi - lo) <= (y - lo) / (hi - lo).
Proof.
  intros Hlt Hxy. assert (0 < / (hi - lo)) by (apply Rinv_0_lt_compat; lra).
  unfold Rdiv. apply Rmult_le_compat_r; lra.
Qed.

(** Two scores further apart than 1e-9: 1 for the higher, 0 for the lower. *)
Lemma normalize_two (s1 s2 : R) :
  (/ 1000000000 < s1 - s2 → normalize [s1; s2] = Some [1; 0])
  ∧ (/ 1000000000 < s2 - s1 → normalize [s1; s2] = Some [0; 1]).
Proof.
  assert (∀ a b, / 1000000000 < Rabs (a - b) → ¬ neighbours_close [a; b]) as Hapart.
  { intros a b Hab Hclose. specialize (Hclose 0%nat a b eq_refl eq_refl).
    apply close_exact in Hclose. lra. }
  split; intros Hlt.
  - rewrite (normalize_by_extremes _ s2 s1); [| simpl; lia | | | | | ].
    + simpl. do 2 f_equal; [|f_equal]; field; lra.
    + apply Hapart. rewrite Rabs_right; lra.
    + apply list_elem_of_lookup. by exists 1%nat.
    + repeat (apply Forall_cons; split; [lra|]). by apply Forall_nil.
    + apply list_elem_of_lookup. by exists 0%nat.
    + repeat (apply Forall_cons; split; [lra|]). by apply Forall_nil.
  - rewrite (normalize_by_extremes _ s1 s2); [| simpl; lia | | | | | ].
    + simpl. do 2 f_equal; [|f_equal]; field; lra.
    + apply Hapart. rewrite Rabs_left; lra.
    + apply list_elem_of_lookup. by exists 0%nat.
    + repeat (apply Forall_cons; split; [lra|]). by apply Forall_nil.
    + apply list_elem_of_lookup. by exists 1%nat.
    + repeat (apply Forall_cons; split; [lra|]). by apply Forall_nil.
Qed.
End exact_normalize.

(** ** The adapters *)

Section adapter_scores.
Context {F : Type} `{!Float64 F, !MathPow F}.
Local Open Scope F_scope.
Implicit Types (e : Elo F) (R K S : list F).

(** With fewer than two scores, [Calculate] does not look at them. *)
Lemma Calculate_short_scores e R K S S' :
  length S = length S' → length S < 2 → Calculate e R K S = Calculate e R K S'.
Proof.
  intros Hlen Hl.
  destruct (decide (length R = length K ∧ length R = length S)) as [[HK HS]|Hne].
  - by rewrite !Calculate_short by lia.
  - by rewrite !Calculate_mismatch by lia.
Qed.

(** The scores [lerp] writes for two or more places. *)
Lemma lerp_fill (s : list F) :
  2 ≤ length s →
  lerp s
  = Some ((λ i : nat, fone - of_int64 (Z.of_nat i)
                             * (fone / of_int64 (Z.of_nat (length s - 1))))
          <$> seq 0 (length s)).
Proof.
  intros Hl. unfold lerp. rewrite !decide_False by lia.
  apply (for_range_fill
           (λ i : nat, fone - of_int64 (Z.of_nat i)
                              * (fone / of_int64 (Z.of_nat (length s - 1))))).
Qed.
End adapter_scores.

Section exact_adapters.
Local Open Scope R_scope.

(** The scores of [Place] for [n] places in exact arithmetic: from 1 for
    the first place down to 0 for the last, in equal steps. *)
Lemma lerp_exact (n : nat) :
  (2 ≤ n)%nat →
  lerp (make n 0) = Some ((λ i : nat, 1 - INR i / INR (n - 1)) <$> seq 0 n).
Proof.
  intros Hn. rewrite lerp_fill by (unfold make; rewrite length_replicate; lia).
  unfold make. rewrite length_replicate. f_equal. apply list_fmap_ext.
  intros _ i _. exact_ops. rewrite <-!INR_IZR_INZ. field.
  apply not_0_INR. lia.
Qed.

(** Up to 10^9 places, [normalize] leaves these scores as they are. *)
Lemma normalize_ranks (n : nat) :
  (2 ≤ n)%nat → (Z.of_nat n ≤ 1000000000)%Z →
  normalize ((λ i : nat, 1 - INR i / INR (n - 1)) <$> seq 0 n)
  = Some ((λ i : nat, 1 - INR i / INR (n - 1)) <$> seq 0 n).
Proof.
  intros Hn Hmax. set (g := λ i : nat, 1 - INR i / INR (n - 1)).
  assert (0 < INR (n - 1)) as Hpos by (apply lt_0_INR; lia).
  assert (INR (n - 1) < 1000000000) as Hlt.
  { rewrite INR_IZR_INZ. apply IZR_lt. lia. }
  rewrite (normalize_by_extremes _ 0 1).
  - f_equal. rewrite <-list_fmap_compose. apply list_fmap_ext.
    intros _ i _. simpl. field.
  - by rewrite length_fmap, length_seq.
  - intros Hclose.
    specialize (Hclose 0%nat (g 0%nat) (g 1%nat)).
    rewrite !list_lookup_fmap, !lookup_seq_lt in Hclose by lia.
    specialize (Hclose eq_refl eq_refl). apply close_exact in Hclose.
    unfold g in Hclose. simpl in Hclose.
    replace (1 - 0 / INR (n - 1) - (1 - 1 / INR (n - 1))) with (/ INR (n - 1))
      in Hclose by (field; lra).
    rewrite Rabs_right in Hclose.
    + assert (/ 1000000000 < / INR (n - 1)) by (apply Rinv_lt_contravar; nra). lra.
    + apply Rle_ge. left. by apply Rinv_0_lt_compat.
  - apply list_elem_of_fmap. exists (n - 1)%nat. split.
    + unfold g. field. lra.
    + apply elem_of_seq. lia.
  - apply Forall_fmap, Forall_forall. intros i Hi%elem_of_seq. simpl. unfold g.
    assert (INR i <= INR (n - 1)) by (apply le_INR; lia).
    assert (INR i / INR (n - 1) <= 1); [|lra].
    apply Rmult_le_reg_r with (INR (n - 1)); [done|].
    unfold Rdiv. rewrite Rmult_assoc, Rinv_l by lra. lra.
  - apply list_elem_of_fmap. exists 0%nat. split.
    + unfold g. simpl. field. lra.
    + apply elem_of_seq. lia.
  - apply Forall_fmap, Forall_forall. intros i Hi%elem_of_seq. simpl. unfold g.
    assert (0 <= INR i) by apply pos_INR.
    assert (0 <= INR i / INR (n - 1)); [|lra].
    apply Rmult_le_pos; [done|]. left. by apply Rinv_0_lt_compat.
Qed.
End exact_adapters.

(** ** The change of a rating in exact arithmetic *)

Lemma gathered_fmap {A B} (f : A → B) (xs : list A) idx ys :
  gathered xs idx ys → gathered (f <$> xs) idx (f <$> ys).
Proof.
  induction 1 as [|j y idx ys Hj _ IH]; [constructor|].
  rewrite fmap_cons. constructor; [|done]. by rewrite list_lookup_fmap, Hj.
Qed.

Section exact_change.
Local Open Scope R_scope.
Implicit Types (e : Elo R) (R K S : list R).

(** With two or more competitors, the change of a rating is the sum of two
    terms, one for the neighbour before and one for the neighbour behind in
    the order of the scores.  A term is [k * (s - E)] with the K-factor and
    the score of the competitor and an expected score [E] strictly between
    0 and 1, or 0 where there is no neighbour; there is a neighbour on one
    side at least, and between two competitors on one side only. *)
Lemma Calculate_change_terms e R K S :
  length R = length K → length R = length S → (2 ≤ length R)%nat →
  ∃ newRatings,
    Calculate e R K S = Some (newRatings, None)
    ∧ ∀ j x kj sj y,
        R !! j = Some x → K !! j = Some kj → S !! j = Some sj →
        newRatings !! j = Some y →
        ∃ t1 t2,
          y = x + (t1 + t2)
          ∧ (t1 = 0 ∨ ∃ E, 0 < E < 1 ∧ t1 = kj * (sj - E))
          ∧ (t2 = 0 ∨ ∃ E, 0 < E < 1 ∧ t2 = kj * (sj - E))
          ∧ ((∃ E, 0 < E < 1 ∧ t1 = kj * (sj - E))
             ∨ (∃ E, 0 < E < 1 ∧ t2 = kj * (sj - E)))
          ∧ (length R = 2%nat → t1 = 0 ∨ t2 = 0).
Proof.
  intros HK HS Hl.
  destruct (Calculate_places e R K S)
    as (idx & r & k & s & nr & _ & Hperm & Hr & Hk & Hs & Hcalc & Hnl & Hplaces);
    [done..|].
  assert (length idx = length R) as Hil by (by rewrite Hperm, length_seq).
  exists nr. split; [done|]. intros j x kj sj y Hx Hkj Hsj Hy.
  assert (j ∈ idx) as [i Hi]%list_elem_of_lookup_1.
  { rewrite Hperm, elem_of_seq. apply lookup_lt_Some in Hx. lia. }
  destruct (Hplaces i j Hi) as (x' & d & Hx' & Hd & Hy').
  destruct (Forall2_lookup_l _ _ _ _ _ Hk Hi) as (ki & Hki & HKj).
  destruct (Forall2_lookup_l _ _ _ _ _ Hs Hi) as (si & Hsi & HSj).
  destruct (diff_at_terms e r k s (length R) i)
    as (ki' & si' & t1 & t2 & Hki' & Hsi' & Hd' & Ht1 & Ht2).
  { rewrite (gathered_length _ _ _ Hr). lia. }
  { rewrite (gathered_length _ _ _ Hk). lia. }
  { rewrite (gathered_length _ _ _ Hs). lia. }
  { apply lookup_lt_Some in Hi. lia. }
  exact_ops. simplify_eq.
  exists t1, t2. split; [done|].
  destruct Ht1 as [[-> ->]|(E1 & Hi0 & HE1 & ->)], Ht2 as [[Hlast ->]|(E2 & Hnlast & HE2 & ->)].
  - lia.
  - split; [by left|]. split; [right; by exists E2|]. split; [right; by exists E2|].
    by left.
  - split; [right; by exists E1|]. split; [by left|]. split; [left; by exists E1|].
    by right.
  - split; [right; by exists E1|]. split; [right; by exists E2|].
    split; [left; by exists E1|]. apply lookup_lt_Some in Hi. lia.
Qed.
End exact_change.

(** * Further properties of the program: statements *)

(** X1.  With three arguments of the same length, [Calculate] returns no
    error and as many ratings as it was given. *)
Theorem Calculate_keeps_length {F} `{!Float64 F, !MathPow F}
    (e : Elo F) (ratings kFactors normalizedScores : list F) :
  length ratings = length kFactors →
  length ratings = length normalizedScores →
  ∃ newRatings,
    Calculate e ratings kFactors normalizedScores = Some (newRatings, None)
    ∧ length newRatings = length ratings.
Proof.
  intros HK HS.
  destruct (Calculate_result e ratings kFactors normalizedScores)
    as (nr & err & Hrun & Herr & _ & Hlen).
  destruct err as [msg|].
  - destruct (proj1 Herr) as []; [by eexists|done].
  - exists nr. split; [done|]. by apply Hlen.
Qed.

(** X2.  With two or more competitors whose scores [<] orders weakly (as it
    does when no score is NaN), [Calculate] visits the competitors in the
    stable sorted order of the scores: [idx] holds every index once,
    ascending by score, and by place in the input where neither score is
    below the other.  It reads ratings, K-factors and scores in this order
    into [r], [k] and [s], and the competitor [j] at place [i] of the order
    gets the rating it had plus [diff_at e r k s i]: zero, plus
    [k[i] * (s[i] - Eb)] from the comparison with the place before if there
    is one, plus [k[i] * (s[i] - Ea)] from the comparison with the place
    behind if there is one.  No other competitor enters. *)
Theorem Calculate_adjacent_pairs {F} `{!Float64 F, !MathPow F}
    (e : Elo F) (ratings kFactors normalizedScores : list F) :
  length ratings = length kFactors →
  length ratings = length normalizedScores →
  2 ≤ length ratings →
  weak_order_on normalizedScores →
  ∃ idx r k s newRatings,
    idx ≡ₚ seq 0 (length normalizedScores)
    ∧ StronglySorted (before normalizedScores) idx
    ∧ gathered ratings idx r ∧ gathered kFactors idx k
    ∧ gathered normalizedScores idx s
    ∧ Calculate e ratings kFactors normalizedScores = Some (newRatings, None)
    ∧ length newRatings = length ratings
    ∧ ∀ i j, idx !! i = Some j →
        ∃ x d, ratings !! j = Some x ∧ diff_at e r k s i = Some d
               ∧ newRatings !! j = Some (fadd x d).
Proof.
  intros HK HS Hl Hweak.
  destruct (Calculate_places e ratings kFactors normalizedScores HK HS Hl)
    as (idx & r & k & s & nr & Hsort & Hperm & Hrest).
  rewrite SortStableFunc_idx in Hsort. injection Hsort as <-.
  exists (sorted_idx normalizedScores), r, k, s, nr.
  split; [done|]. split; [by apply sorted_idx_stable|done].
Qed.

(** X3.  [FFA] and [Golf] do not panic.  Each returns an error exactly when
    the number of scores is not the number of players, and then no ratings;
    without an error it returns one rating for every player. *)
Theorem FFA_Golf_error_iff_lengths_differ {F} `{!Float64 F, !MathPow F}
    {P} `{!Player F P} (e : Elo F) (players : list P) (scores : list F) :
  (∃ newRatings err,
      FFA e players scores = Some (newRatings, err)
      ∧ (is_Some err ↔ length scores ≠ length players)
      ∧ (is_Some err → newRatings = [])
      ∧ (err = None → length newRatings = length players))
  ∧ (∃ newRatings err,
      Golf e players scores = Some (newRatings, err)
      ∧ (is_Some err ↔ length scores ≠ length players)
      ∧ (is_Some err → newRatings = [])
      ∧ (err = None → length newRatings = length players)).
Proof.
  destruct (normalize_total scores) as (s & Hs & Hlen). split.
  - rewrite FFA_eq, Hs. simpl. by apply adapter_result.
  - rewrite Golf_eq, Hs. simpl. apply adapter_result. by rewrite length_fmap.
Qed.

(** X4.  With a step that is not zero, [Race] does not panic.  It returns an
    error exactly when the number of times is not the number of players,
    and then no ratings; without an error it returns one rating for every
    player. *)
Theorem Race_error_iff_lengths_differ {F} `{!Float64 F, !MathPow F}
    {P} `{!Player F P} (e : Elo F) (players : list P) (times : list Z) (step : Z) :
  step ≠ 0%Z →
  ∃ newRatings err,
    Race e players times step = Some (newRatings, err)
    ∧ (is_Some err ↔ length times ≠ length players)
    ∧ (is_Some err → newRatings = [])
    ∧ (err = None → length newRatings = length players).
Proof.
  intros Hstep. rewrite Race_scores by done. rewrite Golf_eq.
  destruct (normalize_total ((λ t, of_int64 (int64_wrap (t ÷ step))) <$> times))
    as (s & -> & Hlen).
  simpl. apply adapter_result. by rewrite length_fmap, Hlen, length_fmap.
Qed.

(** X5.  With the step zero and at least one time, [Race] panics: the
    division of the first time by the step is an integer division by zero. *)
Theorem Race_zero_step_panics {F} `{!Float64 F, !MathPow F}
    {P} `{!Player F P} (e : Elo F) (players : list P) (times : list Z) :
  times ≠ [] → Race e players times 0 = None.
Proof. destruct times as [|t times]; [done|]. intros _. reflexivity. Qed.

(** X6.  [Place] does not panic and returns no error: it returns one rating
    for every player. *)
Theorem Place_never_errors {F} `{!Float64 F, !MathPow F}
    {P} `{!Player F P} (e : Elo F) (players : list P) :
  ∃ newRatings,
    Place e players = Some (newRatings, None)
    ∧ length newRatings = length players.
Proof.
  unfold Place.
  destruct (lerp_total (make (length players) fzero)) as (scores & -> & Hlen).
  unfold make in Hlen. rewrite length_replicate in Hlen. simpl.
  destruct (normalize_total scores) as (s & Hs & Hls).
  rewrite FFA_eq, Hs. simpl.
  destruct (adapter_result e players s _ Hls) as (nr & err & -> & Herr & _ & Hnr).
  destruct err as [msg|].
  - destruct (proj1 Herr); [by eexists|done].
  - exists nr. split; [done|]. by apply Hnr.
Qed.

(** X7.  Without an opponent nothing changes: for no player or one player,
    [Place], and [FFA], [Golf] and [Race] (step not zero) given as many
    scores or times, return the ratings of the players as they are. *)
Theorem adapters_without_opponent {F} `{!Float64 F, !MathPow F}
    {P} `{!Player F P} (e : Elo F) (players : list P) :
  length players ≤ 1 →
  Place e players = Some (Rating <$> players, None)
  ∧ (∀ scores : list F, length scores = length players →
       FFA e players scores = Some (Rating <$> players, None)
       ∧ Golf e players scores = Some (Rating <$> players, None))
  ∧ (∀ (times : list Z) (step : Z), length times = length players → step ≠ 0%Z →
       Race e players times step = Some (Rating <$> players, None)).
Proof.
  intros Hl.
  assert (∀ scores : list F, length scores = length players →
            FFA e players scores = Some (Rating <$> players, None)
            ∧ Golf e players scores = Some (Rating <$> players, None)) as Hboth.
  { intros scores Hlen. destruct (normalize_total scores) as (s & Hs & Hls).
    rewrite FFA_eq, Golf_eq, Hs. simpl.
    split; apply Calculate_short; rewrite ?length_fmap; lia. }
  split; [|split; [done|]].
  - unfold Place.
    destruct (lerp_total (make (length players) fzero)) as (scores & -> & Hlen).
    unfold make in Hlen. rewrite length_replicate in Hlen. simpl.
    by apply Hboth.
  - intros times step Hlen Hstep. rewrite Race_scores by done.
    apply Hboth. by rewrite length_fmap.
Qed.

(** X8.  Two scores that are not further apart than 1e-9 are a tie: [H2H]
    returns what [Calculate] returns for the two players with the scores 0.5
    and 0.5. *)
Theorem H2H_tie_is_half_each {F} `{!Float64 F, !MathPow F}
    {P} `{!Player F P} (e : Elo F) (players : P * P) (scores : F * F) :
  close scores.1 scores.2 →
  ∃ a b,
    Calculate e [Rating players.1; Rating players.2]
      [KFactor players.1; KFactor players.2] [fhalf; fhalf] = Some ([a; b], None)
    ∧ H2H e players scores = Some (a, b).
Proof.
  destruct players as [p1 p2], scores as [s1 s2]. simpl. intros Hclose.
  assert (normalize [s1; s2] = Some [fhalf; fhalf]) as Hs.
  { apply (normalize_tie [s1; s2]); [simpl; lia|].
    intros j x y Hx Hy. destruct j as [|j]; [by simplify_eq/=|].
    apply lookup_lt_Some in Hy. simpl in Hy. lia. }
  destruct (Calculate_long e [Rating p1; Rating p2] [KFactor p1; KFactor p2]
              [fhalf; fhalf])
    as (r & k & s' & diffs & nr & _ & _ & _ & _ & _ & Hnl & _ & Hnr);
    simpl; try done; try lia.
  destruct nr as [|a [|b [|]]]; simpl in Hnl; try lia.
  exists a, b. split; [done|].
  unfold H2H. rewrite FFA_eq. unfold slice_of. simpl. rewrite Hs. simpl.
  by rewrite Hnr.
Qed.

(** X9.  [normalize] and [lerp] work in place: neither panics, and the
    store after the call is the store before it with the new scores, as
    many as before, in the array of the slice; no other array changes and
    none is added. *)
Theorem normalize_and_lerp_in_place {F} `{!Float64 F, !MathPow F}
    (h : Mem.store F) (s : Mem.slice) (v : list F) :
  Mem.holds h s v →
  (∃ v', normalize v = Some v' ∧ length v' = length v
         ∧ Mem.normalize s h = Some ((), Mem.write h s v'))
  ∧ (∃ v', lerp v = Some v' ∧ length v' = length v
           ∧ Mem.lerp s h = Some ((), Mem.write h s v')).
Proof.
  intros Hv. split; [by apply normalize_holds|].
  destruct (lerp_holds h s v Hv) as (v' & Hv' & Hrun).
  destruct (lerp_total v) as (v'' & Hv'' & Hlen).
  exists v'. split; [done|]. split; [congruence|done].
Qed.

Section exact_statements.
Local Open Scope R_scope.
Implicit Types (e : Elo R).

(** The witness of X1: the three-way race of [TestCalculate]. *)
Lemma Calculate_keeps_length_witness :
  ∃ newRatings,
    Calculate Default [1700; 1500; 1300] [20; 20; 20] [1; / 2; 0]
    = Some (newRatings, None)
    ∧ length newRatings = length [1700; 1500; 1300].
Proof.
  apply (Calculate_keeps_length Default [1700; 1500; 1300] [20; 20; 20] [1; / 2; 0]);
    reflexivity.
Defined.

(** The witness of X2: the same race. *)
Lemma Calculate_adjacent_pairs_witness :
  ∃ idx r k s newRatings,
    idx ≡ₚ seq 0 (length [1; / 2; 0])
    ∧ StronglySorted (before [1; / 2; 0]) idx
    ∧ gathered [1700; 1500; 1300] idx r ∧ gathered [20; 20; 20] idx k
    ∧ gathered [1; / 2; 0] idx s
    ∧ Calculate Default [1700; 1500; 1300] [20; 20; 20] [1; / 2; 0]
      = Some (newRatings, None)
    ∧ length newRatings = length [1700; 1500; 1300]
    ∧ ∀ i j, idx !! i = Some j →
        ∃ x d, [1700; 1500; 1300] !! j = Some x
               ∧ diff_at Default r k s i = Some d
               ∧ newRatings !! j = Some (x + d)%fl.
Proof.
  apply (Calculate_adjacent_pairs Default [1700; 1500; 1300] [20; 20; 20] [1; / 2; 0]);
    try (simpl; lia).
  apply exact_weak_order.
Defined.

(** The witness of X4: the solo race of [TestRace]. *)
Lemma Race_error_iff_lengths_differ_witness :
  ∃ newRatings err,
    Race Default [mk_player 1700 20] [100 * Millisecond]%Z (10 * Millisecond)%Z
    = Some (newRatings, err)
    ∧ (is_Some err ↔ length [100 * Millisecond]%Z ≠ length [mk_player 1700 20])
    ∧ (is_Some err → newRatings = [])
    ∧ (err = None → length newRatings = length [mk_player 1700 20]).
Proof.
  apply (Race_error_iff_lengths_differ Default [mk_player 1700 20]
           [100 * Millisecond]%Z (10 * Millisecond)%Z).
  unfold Millisecond. lia.
Defined.

(** The witness of X5: the same race with the step zero. *)
Lemma Race_zero_step_panics_witness :
  Race Default [mk_player 1700 20] [100 * Millisecond]%Z 0 = None.
Proof.
  apply (Race_zero_step_panics Default [mk_player 1700 20] [100 * Millisecond]%Z).
  discriminate.
Defined.

(** The witness of X7: one player. *)
Lemma adapters_without_opponent_witness :
  Place Default [mk_player 1700 20] = Some (Rating <$> [mk_player 1700 20], None)
  ∧ (∀ scores : list R, length scores = length [mk_player 1700 20] →
       FFA Default [mk_player 1700 20] scores
       = Some (Rating <$> [mk_player 1700 20], None)
       ∧ Golf Default [mk_player 1700 20] scores
         = Some (Rating <$> [mk_player 1700 20], None))
  ∧ (∀ (times : list Z) (step : Z),
       length times = length [mk_player 1700 20] → step ≠ 0%Z →
       Race Default [mk_player 1700 20] times step
       = Some (Rating <$> [mk_player 1700 20], None)).
Proof. apply (adapters_without_opponent Default [mk_player 1700 20]). simpl. lia. Defined.

(** The witness of X8: the tie of [TestH2H], 35 to 35. *)
Lemma H2H_tie_is_half_each_witness :
  ∃ a b,
    Calculate Default [1700; 1300] [20; 20] [/ 2; / 2] = Some ([a; b], None)
    ∧ H2H Default (mk_player 1700 20, mk_player 1300 20) (35, 35) = Some (a, b).
Proof.
  refine (H2H_tie_is_half_each Default (mk_player 1700 20, mk_player 1300 20) (35, 35) _).
  apply close_exact. simpl. rewrite Rminus_diag, Rabs_R0. lra.
Defined.

(** The witness of X9: the scores of [TestH2H], 35 and 20, in an array. *)
Lemma normalize_and_lerp_in_place_witness :
  (∃ v', normalize [35; 20] = Some v' ∧ length v' = length [35; 20]
         ∧ Mem.normalize (Mem.Ref 0) (<[0%nat:=Mem.Floats [35; 20]]> ∅)
           = Some ((), Mem.write (<[0%nat:=Mem.Floats [35; 20]]> ∅) (Mem.Ref 0) v'))
  ∧ (∃ v', lerp [35; 20] = Some v' ∧ length v' = length [35; 20]
           ∧ Mem.lerp (Mem.Ref 0) (<[0%nat:=Mem.Floats [35; 20]]> ∅)
             = Some ((), Mem.write (<[0%nat:=Mem.Floats [35; 20]]> ∅) (Mem.Ref 0) v')).
Proof.
  apply (normalize_and_lerp_in_place
           (<[0%nat:=Mem.Floats [35; 20]]> ∅) (Mem.Ref 0) [35; 20]).
  apply holds_Ref. lookups.
Defined.

Lemma Qpow_ratio e (x y : R) : Rpower 10 ((y - x) / Base e) = Qpow e y / Qpow e x.
Proof.
  unfold Qpow. exact_ops. unfold Pow, Exact.pow.
  replace ((y - x) / Base e) with (y / Base e + - (x / Base e))
    by (unfold Rdiv; ring).
  by rewrite Rpower_plus, Rpower_Ropp.
Qed.

Lemma Qpow_Base e : Base e ≠ 0 → Qpow e (Base e) = 10.
Proof.
  intros HB. unfold Qpow. exact_ops. unfold Pow, Exact.pow.
  replace (Base e / Base e) with 1 by (by field). apply Rpower_1. lra.
Qed.

Lemma Qpow_lt e (x y : R) : 0 < Base e → x < y → Qpow e x < Qpow e y.
Proof.
  intros HB Hxy. unfold Qpow. exact_ops. apply Rpower_lt; [lra|].
  unfold Rdiv. apply Rmult_lt_compat_r; [|done]. by apply Rinv_0_lt_compat.
Qed.

(** X10.  In exact arithmetic and with a [Base] that is not zero, two
    competitors get the update of the Elo system as it is usually written:
    the expected score of a competitor is
    [1 / (1 + 10 ^ ((opponent - own) / Base))], and the new rating is the old
    one plus the K-factor times the score minus the expected score. *)
Theorem two_competitors_textbook e (r1 r2 k1 k2 s1 s2 : R) :
  Base e ≠ 0 →
  Calculate e [r1; r2] [k1; k2] [s1; s2]
  = Some ([r1 + k1 * (s1 - 1 / (1 + Rpower 10 ((r2 - r1) / Base e)));
           r2 + k2 * (s2 - 1 / (1 + Rpower 10 ((r1 - r2) / Base e)))], None).
Proof.
  intros _. rewrite Calculate_two, !Qpow_ratio.
  pose proof (Qpow_pos e r1). pose proof (Qpow_pos e r2).
  do 2 f_equal. f_equal; [|f_equal]; field; lra.
Qed.

(** The witness of X10: the win of [TestCalculate]. *)
Lemma two_competitors_textbook_witness :
  Calculate Default [1700; 1300] [20; 20] [1; 0]
  = Some ([1700 + 20 * (1 - 1 / (1 + Rpower 10 ((1300 - 1700) / Base Default)));
           1300 + 20 * (0 - 1 / (1 + Rpower 10 ((1700 - 1300) / Base Default)))],
          None).
Proof. apply (two_competitors_textbook Default 1700 1300 20 20 1 0). simpl. lra. Defined.

(** X11.  In exact arithmetic, [Base] is the rating difference that gives
    odds of ten to one: a competitor rated [Base] above the other is expected
    to score 10/11, the other 1/11. *)
Theorem Base_gap_ten_to_one e (r k1 k2 s1 s2 : R) :
  Base e ≠ 0 →
  Calculate e [r + Base e; r] [k1; k2] [s1; s2]
  = Some ([r + Base e + k1 * (s1 - 10 / 11); r + k2 * (s2 - 1 / 11)], None).
Proof.
  intros HB. rewrite Calculate_two, Qpow_shift, Qpow_Base by done.
  pose proof (Qpow_pos e r).
  do 2 f_equal. f_equal; [|f_equal]; field; lra.
Qed.

(** The witness of X11: the default base, 400. *)
Lemma Base_gap_ten_to_one_witness :
  Calculate Default [1300 + Base Default; 1300] [20; 20] [1; 0]
  = Some ([1300 + Base Default + 20 * (1 - 10 / 11); 1300 + 20 * (0 - 1 / 11)], None).
Proof. apply (Base_gap_ten_to_one Default 1300 20 20 1 0). simpl. lra. Defined.

(** X12.  In exact arithmetic, with a positive [Base] and positive
    K-factors, the same result is worth less to a competitor rated higher
    and more to the opponent: between two competitors, raising the rating of
    the first lowers the change of the first and raises the change of the
    second. *)
Theorem stronger_gets_less e (r1 r1' r2 k1 k2 s1 s2 : R) :
  0 < Base e → 0 < k1 → 0 < k2 → r1 < r1' →
  ∃ n1 n2 n1' n2',
    Calculate e [r1; r2] [k1; k2] [s1; s2] = Some ([n1; n2], None)
    ∧ Calculate e [r1'; r2] [k1; k2] [s1; s2] = Some ([n1'; n2'], None)
    ∧ n1' - r1' < n1 - r1
    ∧ n2 - r2 < n2' - r2.
Proof.
  intros HB Hk1 Hk2 Hr. rewrite !Calculate_two.
  eexists _, _, _, _. split; [done|]. split; [done|].
  pose proof (Qpow_pos e r1). pose proof (Qpow_pos e r2).
  pose proof (Qpow_lt e r1 r1' HB Hr).
  set (Q1 := Qpow e r1) in *. set (Q1' := Qpow e r1') in *. set (Q2 := Qpow e r2) in *.
  assert (Q1 / (Q1 + Q2) < Q1' / (Q1' + Q2)).
  { apply Rmult_lt_reg_r with ((Q1 + Q2) * (Q1' + Q2)); [nra|].
    replace (Q1 / (Q1 + Q2) * ((Q1 + Q2) * (Q1' + Q2))) with (Q1 * (Q1' + Q2))
      by (field; lra).
    replace (Q1' / (Q1' + Q2) * ((Q1 + Q2) * (Q1' + Q2))) with (Q1' * (Q1 + Q2))
      by (field; lra).
    nra. }
  assert (Q2 / (Q1' + Q2) < Q2 / (Q1 + Q2)).
  { unfold Rdiv. apply Rmult_lt_compat_l; [done|]. apply Rinv_lt_contravar; nra. }
  split; nra.
Qed.

(** The witness of X12: the winner of [TestCalculate] rated 1700 and then
    1800, against 1300. *)
Lemma stronger_gets_less_witness :
  ∃ n1 n2 n1' n2',
    Calculate Default [1700; 1300] [20; 20] [1; 0] = Some ([n1; n2], None)
    ∧ Calculate Default [1800; 1300] [20; 20] [1; 0] = Some ([n1'; n2'], None)
    ∧ n1' - 1800 < n1 - 1700
    ∧ n2 - 1300 < n2' - 1300.
Proof. apply (stronger_gets_less Default 1700 1800 1300 20 20 1 0); simpl; lra. Defined.
End exact_statements.

Section exact_statements_calculate.
Local Open Scope R_scope.
Implicit Types (e : Elo R).

(** X13.  In exact arithmetic and with a [Base] that is not zero, with
    scores between 0 and 1 and K-factors that are not negative, no rating
    changes by more than twice the K-factor of the competitor, and between
    two competitors by not more than the K-factor. *)
Theorem rating_change_bounded e (ratings kFactors normalizedScores : list R) :
  Base e ≠ 0 →
  length ratings = length kFactors →
  length ratings = length normalizedScores →
  Forall (λ k, 0 <= k) kFactors →
  Forall (λ s, 0 <= s <= 1) normalizedScores →
  ∃ newRatings,
    Calculate e ratings kFactors normalizedScores = Some (newRatings, None)
    ∧ ∀ j x k y,
        ratings !! j = Some x → kFactors !! j = Some k → newRatings !! j = Some y →
        Rabs (y - x) <= 2 * k
        ∧ (length ratings = 2%nat → Rabs (y - x) <= k).
Proof.
  intros _ HK HS HKpos HSrange.
  destruct (decide (length ratings < 2)%nat) as [Hl|Hl].
  { exists ratings. split; [by apply Calculate_short|].
    intros j x k y Hx Hk Hy. simplify_eq.
    pose proof (Forall_lookup_1 _ _ _ _ HKpos Hk) as Hk0. simpl in Hk0.
    rewrite Rminus_diag, Rabs_R0. split; [lra|intros; lra]. }
  destruct (Calculate_change_terms e ratings kFactors normalizedScores)
    as (nr & Hcalc & Hterms); [done|done|lia|].
  exists nr. split; [done|]. intros j x k y Hx Hk Hy.
  destruct (lookup_lt_is_Some_2 normalizedScores j) as [sj Hsj].
  { apply lookup_lt_Some in Hx. lia. }
  pose proof (Forall_lookup_1 _ _ _ _ HKpos Hk) as Hk0. simpl in Hk0.
  pose proof (Forall_lookup_1 _ _ _ _ HSrange Hsj) as Hs01. simpl in Hs01.
  destruct (Hterms j x k sj y Hx Hk Hsj Hy) as (t1 & t2 & -> & Ht1 & Ht2 & _ & Htwo).
  assert (- k <= t1 <= k) as Hb1.
  { destruct Ht1 as [->|(E & HE & ->)]; [lra|]. split; nra. }
  assert (- k <= t2 <= k) as Hb2.
  { destruct Ht2 as [->|(E & HE & ->)]; [lra|]. split; nra. }
  split.
  - apply Rabs_le. lra.
  - intros H2. apply Rabs_le. destruct (Htwo H2) as [->| ->]; lra.
Qed.

(** The witness of X13: the three-way race of [TestCalculate]. *)
Lemma rating_change_bounded_witness :
  ∃ newRatings,
    Calculate Default [1700; 1500; 1300] [20; 20; 20] [1; / 2; 0]
    = Some (newRatings, None)
    ∧ ∀ j x k y,
        [1700; 1500; 1300] !! j = Some x → [20; 20; 20] !! j = Some k →
        newRatings !! j = Some y →
        Rabs (y - x) <= 2 * k
        ∧ (length [1700; 1500; 1300] = 2%nat → Rabs (y - x) <= k).
Proof.
  apply (rating_change_bounded Default [1700; 1500; 1300] [20; 20; 20] [1; / 2; 0]);
    try reflexivity; [simpl; lra|..];
    repeat (apply Forall_cons; split; [lra|]); by apply Forall_nil.
Defined.

(** X14.  In exact arithmetic and with a [Base] that is not zero, with two
    or more competitors, a competitor with a positive K-factor and the
    score 1 gains and one with the score 0 loses, whatever the ratings
    are. *)
Theorem full_score_gains_zero_loses e (ratings kFactors normalizedScores : list R) :
  Base e ≠ 0 →
  length ratings = length kFactors →
  length ratings = length normalizedScores →
  (2 ≤ length ratings)%nat →
  ∃ newRatings,
    Calculate e ratings kFactors normalizedScores = Some (newRatings, None)
    ∧ ∀ j x k y,
        ratings !! j = Some x → kFactors !! j = Some k → 0 < k →
        newRatings !! j = Some y →
        (normalizedScores !! j = Some 1 → x < y)
        ∧ (normalizedScores !! j = Some 0 → y < x).
Proof.
  intros _ HK HS Hl.
  destruct (Calculate_change_terms e ratings kFactors normalizedScores)
    as (nr & Hcalc & Hterms); [done..|].
  exists nr. split; [done|]. intros j x k y Hx Hk Hk0 Hy.
  split; intros Hsj;
    destruct (Hterms j x k _ y Hx Hk Hsj Hy) as (t1 & t2 & -> & Ht1 & Ht2 & Hone & _).
  - assert (0 <= t1) by (destruct Ht1 as [->|(E & HE & ->)]; [lra|nra]).
    assert (0 <= t2) by (destruct Ht2 as [->|(E & HE & ->)]; [lra|nra]).
    destruct Hone as [(E & HE & ->)|(E & HE & ->)]; nra.
  - assert (t1 <= 0) by (destruct Ht1 as [->|(E & HE & ->)]; [lra|nra]).
    assert (t2 <= 0) by (destruct Ht2 as [->|(E & HE & ->)]; [lra|nra]).
    destruct Hone as [(E & HE & ->)|(E & HE & ->)]; nra.
Qed.

(** The witness of X14: the same race. *)
Lemma full_score_gains_zero_loses_witness :
  ∃ newRatings,
    Calculate Default [1700; 1500; 1300] [20; 20; 20] [1; / 2; 0]
    = Some (newRatings, None)
    ∧ ∀ j x k y,
        [1700; 1500; 1300] !! j = Some x → [20; 20; 20] !! j = Some k → 0 < k →
        newRatings !! j = Some y →
        ([1; / 2; 0] !! j = Some 1 → x < y)
        ∧ ([1; / 2; 0] !! j = Some 0 → y < x).
Proof.
  apply (full_score_gains_zero_loses Default
           [1700; 1500; 1300] [20; 20; 20] [1; / 2; 0]); simpl; [lra|lia..].
Defined.

(** X15.  In exact arithmetic and with a [Base] that is not zero, only the
    differences between the ratings count: with the same number added to
    every rating, [Calculate] returns the same error or the ratings it
    returned before with this number added. *)
Theorem Calculate_shift_ratings e (ratings kFactors normalizedScores : list R) (c : R) :
  Base e ≠ 0 →
  ∃ newRatings err,
    Calculate e ratings kFactors normalizedScores = Some (newRatings, err)
    ∧ Calculate e ((λ x, x + c) <$> ratings) kFactors normalizedScores
      = Some ((λ x, x + c) <$> newRatings, err).
Proof.
  intros _.
  destruct (decide (length ratings = length kFactors
                    ∧ length ratings = length normalizedScores)) as [[HK HS]|Hne].
  2:{ exists [], (Some ErrLength).
      rewrite !Calculate_mismatch; [done|by rewrite length_fmap|done]. }
  destruct (decide (length ratings < 2)%nat) as [Hl|Hl].
  { exists ratings, None. rewrite !Calculate_short; rewrite ?length_fmap; done. }
  destruct (Calculate_places e ratings kFactors normalizedScores)
    as (idx & r & k & s & nr & Hsort & Hperm & Hr & Hk & Hs & Hcalc & Hnl & Hplaces);
    [done|done|lia|].
  destruct (Calculate_places e ((λ x, x + c) <$> ratings) kFactors normalizedScores)
    as (idx' & r' & k' & s' & nr' & Hsort' & _ & Hr' & Hk' & Hs' & Hcalc' & Hnl' & Hplaces');
    [by rewrite length_fmap|by rewrite length_fmap|rewrite length_fmap; lia|].
  assert (idx' = idx) as -> by congruence.
  assert (r' = (λ x, x + c) <$> r) as ->.
  { eapply gathered_inj; [exact Hr'|]. by apply gathered_fmap. }
  assert (k' = k) as -> by (by eapply gathered_inj).
  assert (s' = s) as -> by (by eapply gathered_inj).
  exists nr, None. split; [done|]. rewrite Hcalc'. do 2 f_equal.
  rewrite length_fmap in Hnl'.
  apply list_eq. intros j. rewrite list_lookup_fmap.
  destruct (decide (j < length ratings)%nat) as [Hj|Hj].
  - assert (j ∈ idx) as [i Hi]%list_elem_of_lookup_1.
    { rewrite Hperm, elem_of_seq. lia. }
    destruct (Hplaces i j Hi) as (x & d & Hx & Hd & ->).
    destruct (Hplaces' i j Hi) as (x' & d' & Hx' & Hd' & ->).
    rewrite list_lookup_fmap, Hx in Hx'. rewrite diff_at_shift, Hd in Hd'.
    simplify_eq/=. f_equal. lra.
  - rewrite !lookup_ge_None_2; [done|lia..].
Qed.

(** The witness of X15: the win of [TestCalculate], 100 points up. *)
Lemma Calculate_shift_ratings_witness :
  ∃ newRatings err,
    Calculate Default [1700; 1300] [20; 20] [1; 0] = Some (newRatings, err)
    ∧ Calculate Default ((λ x, x + 100) <$> [1700; 1300]) [20; 20] [1; 0]
      = Some ((λ x, x + 100) <$> newRatings, err).
Proof.
  apply (Calculate_shift_ratings Default [1700; 1300] [20; 20] [1; 0] 100).
  simpl. lra.
Defined.
End exact_statements_calculate.

Section exact_statements_normalize.
Local Open Scope R_scope.

(** X16.  In exact arithmetic, [normalize] leaves two or more scores
    between 0 and 1. *)
Theorem normalize_range (s : list R) :
  (2 ≤ length s)%nat →
  ∃ s', normalize s = Some s' ∧ Forall (λ x, 0 <= x <= 1) s'.
Proof.
  intros Hl. destruct (neighbours_close_cases s Hl) as [Hs|Hs].
  - rewrite normalize_tie by done. eexists. split; [done|].
    apply Forall_replicate. exact_ops. lra.
  - destruct (normalize_spread_exact s Hl Hs)
      as (lo & hi & [_ Hlo] & [_ Hhi] & Hlt & ->).
    eexists. split; [done|]. apply Forall_fmap, Forall_forall. intros x Hx. simpl.
    rewrite Forall_forall in Hlo, Hhi.
    apply ratio_bounds; [done|]. split; [by apply Hlo|by apply Hhi].
Qed.

(** The witness of X16: the scores of [TestH2H]. *)
Lemma normalize_range_witness :
  ∃ s', normalize [35; 20] = Some s' ∧ Forall (λ x, 0 <= x <= 1) s'.
Proof. apply (normalize_range [35; 20]). simpl. lia. Defined.

(** X17.  In exact arithmetic, [normalize] keeps the order of the scores: a
    score that was not above another is not above it afterwards. *)
Theorem normalize_keeps_order (s : list R) :
  ∃ s',
    normalize s = Some s' ∧ length s' = length s
    ∧ ∀ i j x y x' y',
        s !! i = Some x → s !! j = Some y →
        s' !! i = Some x' → s' !! j = Some y' →
        x <= y → x' <= y'.
Proof.
  destruct (decide (length s < 2)%nat) as [Hl|Hl].
  { exists s. rewrite normalize_short by done. split; [done|]. split; [done|].
    intros i j x y x' y' Hx Hy Hx' Hy' Hxy. simplify_eq. done. }
  destruct (neighbours_close_cases s) as [Hs|Hs]; [lia|..].
  - rewrite normalize_tie by (done || lia). eexists. split; [done|].
    split; [by rewrite length_replicate|].
    intros i j x y x' y' _ _ [-> _]%lookup_replicate [-> _]%lookup_replicate _. lra.
  - destruct (normalize_spread_exact s) as (lo & hi & _ & _ & Hlt & ->); [lia|done|].
    eexists. split; [done|]. split; [by rewrite length_fmap|].
    intros i j x y x' y' Hx Hy. rewrite !list_lookup_fmap, Hx, Hy.
    intros [= <-] [= <-] Hxy. by apply ratio_mono.
Qed.

(** X18.  In exact arithmetic, [normalize] leaves normalized scores as they
    are: two or more scores between 0 and 1, with 0 and 1 among them and two
    neighbours further apart than 1e-9. *)
Theorem normalize_normalized (s : list R) :
  (2 ≤ length s)%nat → some_neighbours_apart s →
  0 ∈ s → 1 ∈ s → Forall (λ x, 0 <= x <= 1) s →
  normalize s = Some s.
Proof.
  intros Hl Hs H0 H1 Hrange.
  rewrite (normalize_by_extremes s 0 1); try done.
  - f_equal. rewrite <-(list_fmap_id s) at 2. apply list_fmap_ext.
    intros i x _. simpl. field.
  - by apply some_neighbours_apart_not_close.
  - eapply Forall_impl; [exact Hrange|]. simpl. intros. lra.
  - eapply Forall_impl; [exact Hrange|]. simpl. intros. lra.
Qed.

(** The witness of X18: the scores of the three-way race of
    [TestCalculate]. *)
Lemma normalize_normalized_witness : normalize [1; / 2; 0] = Some [1; / 2; 0].
Proof.
  apply (normalize_normalized [1; / 2; 0]).
  - simpl. lia.
  - exists 0%nat, 1, (/ 2). split; [done|]. split; [done|].
    apply apart_exact. rewrite Rabs_right; lra.
  - apply list_elem_of_lookup. by exists 2%nat.
  - apply list_elem_of_lookup. by exists 0%nat.
  - repeat (apply Forall_cons; split; [lra|]). by apply Forall_nil.
Defined.
End exact_statements_normalize.

Section exact_statements_adapters.
Context {P : Type} `{!Player R P}.
Local Open Scope R_scope.
Implicit Types (e : Elo R) (players : list P) (scores : list R).

(** X19.  In exact arithmetic, only the differences between the scores
    count: [FFA] and [Golf] return the same with the same number added to
    every score. *)
Theorem scores_shift_invariant e players scores (c : R) :
  FFA e players ((λ x, x + c) <$> scores) = FFA e players scores
  ∧ Golf e players ((λ x, x + c) <$> scores) = Golf e players scores.
Proof.
  rewrite !FFA_eq, !Golf_eq.
  destruct (decide (length scores < 2)%nat) as [Hl|Hl].
  - rewrite !normalize_short by (by rewrite ?length_fmap). simpl.
    split; apply Calculate_short_scores; by rewrite !length_fmap.
  - by rewrite normalize_shift by lia.
Qed.

(** X20.  In exact arithmetic, [Golf] is [FFA] on the negated scores. *)
Theorem Golf_is_FFA_negated e players scores :
  Golf e players scores = FFA e players (Ropp <$> scores).
Proof.
  rewrite FFA_eq, Golf_eq.
  destruct (decide (length scores < 2)%nat) as [Hl|Hl].
  - rewrite !normalize_short by (by rewrite ?length_fmap). simpl.
    apply Calculate_short_scores; by rewrite !length_fmap.
  - rewrite normalize_opp by lia. by destruct (normalize scores).
Qed.

(** X21.  In exact arithmetic, the margin does not count in a head-to-head
    match: with scores further apart than 1e-9, [H2H] returns what
    [Calculate] returns with the score 1 for the player with the higher
    score and 0 for the other. *)
Theorem H2H_margin_does_not_count e (players : P * P) (s1 s2 : R) :
  (/ 1000000000 < s1 - s2 →
     ∃ a b,
       Calculate e [Rating players.1; Rating players.2]
         [KFactor players.1; KFactor players.2] [1; 0] = Some ([a; b], None)
       ∧ H2H e players (s1, s2) = Some (a, b))
  ∧ (/ 1000000000 < s2 - s1 →
     ∃ a b,
       Calculate e [Rating players.1; Rating players.2]
         [KFactor players.1; KFactor players.2] [0; 1] = Some ([a; b], None)
       ∧ H2H e players (s1, s2) = Some (a, b)).
Proof.
  destruct players as [p1 p2]. simpl.
  assert (∀ s : list R, length s = 2%nat → normalize [s1; s2] = Some s →
            ∃ a b,
              Calculate e [Rating p1; Rating p2] [KFactor p1; KFactor p2] s
              = Some ([a; b], None)
              ∧ H2H e (p1, p2) (s1, s2) = Some (a, b)) as Hrun.
  { intros s Hlen Hs.
    destruct (Calculate_long e [Rating p1; Rating p2] [KFactor p1; KFactor p2] s)
      as (r & k & s' & diffs & nr & _ & _ & _ & _ & _ & Hnl & _ & Hnr);
      simpl; try done; try lia.
    destruct nr as [|a [|b [|]]]; simpl in Hnl; try lia.
    exists a, b. split; [done|].
    unfold H2H. rewrite FFA_eq. unfold slice_of. simpl. rewrite Hs. simpl.
    by rewrite Hnr. }
  split; intros Hlt; apply Hrun; try done; by apply normalize_two.
Qed.

(** X22.  In exact arithmetic, for two up to 10^9 players, [Place] is
    [Calculate] with the score [1 - i / (n - 1)] for the player at place [i]
    of [n]: 1 for the first, 0 for the last, in equal steps between. *)
Theorem Place_is_Calculate_on_ranks e players :
  (2 ≤ length players)%nat → (Z.of_nat (length players) ≤ 1000000000)%Z →
  Place e players
  = Calculate e (Rating <$> players) (KFactor <$> players)
      ((λ i : nat, 1 - INR i / INR (length players - 1)) <$> seq 0 (length players)).
Proof.
  intros Hl Hmax. unfold Place. exact_ops. rewrite lerp_exact by done. simpl.
  by rewrite FFA_eq, normalize_ranks.
Qed.
End exact_statements_adapters.

Section exact_witnesses_adapters.
Local Open Scope R_scope.

(** The witness of X21: the match of [TestH2H], 35 to 20. *)
Lemma H2H_margin_does_not_count_witness :
  ∃ a b,
    Calculate Default [1700; 1300] [20; 20] [1; 0] = Some ([a; b], None)
    ∧ H2H Default (mk_player 1700 20, mk_player 1300 20) (35, 20) = Some (a, b).
Proof.
  refine (proj1 (H2H_margin_does_not_count Default
                   (mk_player 1700 20, mk_player 1300 20) 35 20) _).
  lra.
Defined.

(** The witness of X22: the three players of [TestRace] in this order. *)
Lemma Place_is_Calculate_on_ranks_witness :
  Place Default [mk_player 1700 20; mk_player 1500 20; mk_player 1300 20]
  = Calculate Default
      (Rating <$> [mk_player 1700 20; mk_player 1500 20; mk_player 1300 20])
      (KFactor <$> [mk_player 1700 20; mk_player 1500 20; mk_player 1300 20])
      ((λ i : nat, 1 - INR i / INR (3 - 1)) <$> seq 0 3).
Proof.
  apply (Place_is_Calculate_on_ranks Default
           [mk_player 1700 20; mk_player 1500 20; mk_player 1300 20]); simpl; lia.
Defined.
End exact_witnesses_adapters.

(** X23.  On binary64 a NaN score compares equal to every score: [cmp]
    returns 0 when one of the two scores is NaN. *)
Theorem cmp_nan_is_equal (s : list float) (a b : nat) (x y : float) :
  s !! a = Some x → s !! b = Some y →
  PrimFloat.is_nan x = true ∨ PrimFloat.is_nan y = true →
  cmp s a b = Some 0%Z.
Proof.
  intros Hx Hy Hnan. unfold cmp. rewrite Hx, Hy. simpl.
  assert (∀ f, PrimFloat.is_nan f = true → Prim2SF f = SpecFloat.S754_nan) as Hspec.
  { intros f. unfold PrimFloat.is_nan. rewrite FloatAxioms.eqb_spec.
    unfold SpecFloat.SFeqb.
    destruct (Prim2SF f) as [sg|sg| |sg m ex]; try done; try (by destruct sg).
    simpl. destruct sg; rewrite Z.compare_refl;
      change (Pos.compare_cont Eq m m) with (Pos.compare m m);
      by rewrite Pos.compare_refl. }
  rewrite !FloatAxioms.ltb_spec. unfold SpecFloat.SFltb.
  destruct Hnan as [Hn%Hspec|Hn%Hspec]; rewrite Hn; simpl.
  - by destruct (Prim2SF y).
  - by destruct (Prim2SF x).
Qed.

(** The witness of X23: a NaN before a 1. *)
Lemma cmp_nan_is_equal_witness : cmp [nan; 1%float] 0 1 = Some 0%Z.
Proof.
  apply (cmp_nan_is_equal [nan; 1%float] 0 1 nan 1%float); [reflexivity..|].
  left. reflexivity.
Defined.

Section more_statements.
Context {F : Type} `{!Float64 F, !MathPow F} {P : Type} `{!Player F P}.
Local Open Scope F_scope.
Implicit Types (e : Elo F) (players : list P) (scores : list F).

(** X24.  [Race] is the same in every unit of time: with the times and the
    step, not zero, all multiplied by the same number, not zero, it returns
    the same (for times and steps that fit in int64). *)
Theorem Race_unit_invariant e players (times : list Z) (step c : Z) :
  c ≠ 0%Z → step ≠ 0%Z →
  Forall int64_range times → int64_range step →
  Forall int64_range ((λ t, c * t)%Z <$> times) → int64_range (c * step) →
  Race e players ((λ t, c * t)%Z <$> times) (c * step)
  = Race e players times step.
Proof.
  intros Hc Hstep _ _ _ _. rewrite !Race_scores by lia.
  f_equal. rewrite <-list_fmap_compose. apply list_fmap_ext.
  intros _ t _. simpl. by rewrite Z.quot_mul_cancel_l.
Qed.

(** X25.  When no two neighbouring scores are further apart than 1e-9, two
    or more scores are a tie: [FFA] is [Calculate] with the score 0.5 for
    every player, and [Golf] is [Calculate] with [1 - 0.5] for every
    player. *)
Theorem FFA_Golf_tie e players scores :
  2 ≤ length scores → neighbours_close scores →
  FFA e players scores
  = Calculate e (Rating <$> players) (KFactor <$> players)
      (replicate (length scores) fhalf)
  ∧ Golf e players scores
    = Calculate e (Rating <$> players) (KFactor <$> players)
        (replicate (length scores) (fone - fhalf)).
Proof.
  intros Hl Hs. rewrite FFA_eq, Golf_eq, normalize_tie by done. simpl.
  by rewrite fmap_replicate.
Qed.
End more_statements.

Section more_exact_statements.
Local Open Scope R_scope.

(** The witness of X24: the race of [TestRace] in milliseconds and in
    nanoseconds. *)
Lemma Race_unit_invariant_witness :
  Race Default [mk_player 1700 20; mk_player 1500 20; mk_player 1300 20]
    ((λ t, Millisecond * t)%Z <$> [100; 120; 140]%Z) (Millisecond * 10)
  = Race Default [mk_player 1700 20; mk_player 1500 20; mk_player 1300 20]
      [100; 120; 140]%Z 10.
Proof.
  apply (Race_unit_invariant Default
           [mk_player 1700 20; mk_player 1500 20; mk_player 1300 20]
           [100; 120; 140]%Z 10 Millisecond);
    unfold int64_range, Millisecond; try lia;
    repeat (apply Forall_cons; split; [simpl; lia|]); by apply Forall_nil.
Defined.

(** The witness of X25: the tie of [TestH2H], 35 to 35. *)
Lemma FFA_Golf_tie_witness :
  FFA Default [mk_player 1700 20; mk_player 1300 20] [35; 35]
  = Calculate Default (Rating <$> [mk_player 1700 20; mk_player 1300 20])
      (KFactor <$> [mk_player 1700 20; mk_player 1300 20])
      (replicate (length [35; 35]) fhalf)
  ∧ Golf Default [mk_player 1700 20; mk_player 1300 20] [35; 35]
    = Calculate Default (Rating <$> [mk_player 1700 20; mk_player 1300 20])
        (KFactor <$> [mk_player 1700 20; mk_player 1300 20])
        (replicate (length [35; 35]) (fone - fhalf)%fl).
Proof.
  apply (FFA_Golf_tie Default [mk_player 1700 20; mk_player 1300 20] [35; 35]).
  - simpl. lia.
  - intros j x y Hx Hy. destruct j as [|j].
    + simplify_eq/=. apply close_exact. rewrite Rminus_diag, Rabs_R0. lra.
    + apply lookup_lt_Some in Hy. simpl in Hy. lia.
Defined.

(** X26.  In exact arithmetic and with a [Base] that is not zero, a
    competitor with the K-factor 0 keeps the rating. *)
Theorem zero_K_keeps_rating (e : Elo R) (ratings kFactors normalizedScores : list R) :
  Base e ≠ 0 →
  length ratings = length kFactors →
  length ratings = length normalizedScores →
  ∃ newRatings,
    Calculate e ratings kFactors normalizedScores = Some (newRatings, None)
    ∧ ∀ j x, ratings !! j = Some x → kFactors !! j = Some 0 →
             newRatings !! j = Some x.
Proof.
  intros _ HK HS.
  destruct (decide (length ratings < 2)%nat) as [Hl|Hl].
  { exists ratings. by rewrite Calculate_short. }
  destruct (Calculate_change_terms e ratings kFactors normalizedScores)
    as (nr & Hcalc & Hterms); [done|done|lia|].
  destruct (Calculate_result e ratings kFactors normalizedScores)
    as (nr' & err & Hrun & _ & _ & Hlen).
  rewrite Hcalc in Hrun. injection Hrun as <- <-. specialize (Hlen eq_refl).
  exists nr. split; [done|]. intros j x Hx Hk.
  destruct (lookup_lt_is_Some_2 normalizedScores j) as [sj Hsj].
  { apply lookup_lt_Some in Hx. lia. }
  destruct (lookup_lt_is_Some_2 nr j) as [y Hy].
  { apply lookup_lt_Some in Hx. lia. }
  destruct (Hterms j x 0 sj y Hx Hk Hsj Hy) as (t1 & t2 & -> & Ht1 & Ht2 & _).
  rewrite Hy. f_equal.
  destruct Ht1 as [->|(E1 & _ & ->)], Ht2 as [->|(E2 & _ & ->)]; lra.
Qed.

(** The witness of X26: the win of [TestCalculate] with the K-factor 0 for
    the loser. *)
Lemma zero_K_keeps_rating_witness :
  ∃ newRatings,
    Calculate Default [1700; 1300] [20; 0] [1; 0] = Some (newRatings, None)
    ∧ ∀ j x, [1700; 1300] !! j = Some x → [20; 0] !! j = Some 0 →
             newRatings !! j = Some x.
Proof.
  apply (zero_K_keeps_rating Default [1700; 1300] [20; 0] [1; 0]);
    [simpl; lra|reflexivity..].
Defined.
End more_exact_statements.

Section exact_head_to_head.
Context {P : Type} `{!Player R P}.
Local Open Scope R_scope.

(** The two scores of a match, normalized in both orders. *)
Lemma normalize_pair_swap (s1 s2 : R) :
  ∃ n1 n2, normalize [s1; s2] = Some [n1; n2] ∧ normalize [s2; s1] = Some [n2; n1].
Proof.
  destruct (Rlt_dec (/ 1000000000) (s1 - s2)) as [H12|H12].
  { exists 1, 0. split; by apply normalize_two. }
  destruct (Rlt_dec (/ 1000000000) (s2 - s1)) as [H21|H21].
  { exists 0, 1. split; by apply normalize_two. }
  assert (∀ a b, Rabs (a - b) <= / 1000000000 → neighbours_close [a; b]) as Hclose.
  { intros a b Hab j x y Hx Hy. destruct j as [|j].
    - simplify_eq/=. by apply close_exact.
    - apply lookup_lt_Some in Hy. simpl in Hy. lia. }
  exists (/ 2), (/ 2). split.
  - rewrite (normalize_tie [s1; s2]); [done|simpl; lia|].
    apply Hclose, Rabs_le. lra.
  - rewrite (normalize_tie [s2; s1]); [done|simpl; lia|].
    apply Hclose, Rabs_le. lra.
Qed.

(** What [H2H] returns, given the normalized scores. *)
Lemma H2H_exact (e : Elo R) (p1 p2 : P) (s1 s2 n1 n2 : R) :
  normalize [s1; s2] = Some [n1; n2] →
  H2H e (p1, p2) (s1, s2)
  = Some (Rating p1
          + KFactor p1 * (n1 - Qpow e (Rating p1)
                                / (Qpow e (Rating p1) + Qpow e (Rating p2))),
          Rating p2
          + KFactor p2 * (n2 - Qpow e (Rating p2)
                                / (Qpow e (Rating p1) + Qpow e (Rating p2)))).
Proof.
  intros Hs. unfold H2H. rewrite FFA_eq. unfold slice_of. simpl.
  rewrite Hs. simpl. by rewrite Calculate_two.
Qed.

(** X27.  In exact arithmetic, [H2H] treats the two players alike: with the
    players and their scores both given in the other order, it returns the
    same two ratings in the other order. *)
Theorem H2H_symmetric (e : Elo R) (p1 p2 : P) (s1 s2 : R) :
  ∃ a b,
    H2H e (p1, p2) (s1, s2) = Some (a, b)
    ∧ H2H e (p2, p1) (s2, s1) = Some (b, a).
Proof.
  destruct (normalize_pair_swap s1 s2) as (n1 & n2 & H12 & H21).
  rewrite (H2H_exact e p1 p2 s1 s2 n1 n2 H12), (H2H_exact e p2 p1 s2 s1 n2 n1 H21).
  eexists _, _. split; [done|].
  by rewrite (Rplus_comm (Qpow e (Rating p2)) (Qpow e (Rating p1))).
Qed.
End exact_head_to_head.

Section exact_rescale.
Local Open Scope R_scope.

(** X28.  In exact arithmetic, when a sequence of at least two scores has
    two neighbours further apart than 1e-9, which is the test [normalize]
    makes, [normalize] replaces every score [x] by [(x - lo) / (hi - lo)],
    where [lo] is the lowest and [hi] the highest score; the divisor
    [hi - lo] is what [normalize] divides by and is not zero; the lowest
    score becomes 0 and the highest becomes 1. *)
Theorem normalize_rescales (s : list R) :
  (2 ≤ length s)%nat → some_neighbours_apart s →
  ∃ lo hi s',
    (lo ∈ s ∧ Forall (λ x, lo <= x) s)
    ∧ (hi ∈ s ∧ Forall (λ x, x <= hi) s)
    ∧ span s = Some (hi - lo) ∧ hi - lo ≠ 0
    ∧ normalize s = Some s'
    ∧ s' = (λ x, (x - lo) / (hi - lo)) <$> s
    ∧ (∀ i, s !! i = Some lo → s' !! i = Some 0)
    ∧ (∀ i, s !! i = Some hi → s' !! i = Some 1).
Proof.
  intros Hl Hapart.
  destruct (normalize_spread s Hl (some_neighbours_apart_not_close s Hapart))
    as (mn & mx & Hmn & Hmx & Hnorm).
  destruct s as [|x rest]; [simpl in Hl; lia|].
  unfold low in Hmn. simpl in Hmn. injection Hmn as <-.
  unfold span in Hmx. simpl in Hmx. injection Hmx as <-.
  destruct (foldl_Rmin_spec x rest) as [Hlo_in Hlo]. set (lo := foldl Rmin x rest) in *.
  destruct (foldl_Rmax_spec x rest) as [Hhi_in Hhi]. set (hi := foldl Rmax x rest) in *.
  assert (foldl Rmax (x - lo) ((λ f, f - lo) <$> rest) = hi - lo) as Hspan
    by apply foldl_Rmax_shift.
  assert (hi - lo ≠ 0) as Hne.
  { destruct Hapart as (j & a & b & Ha & Hb & Hab).
    unfold apart in Hab. simpl in Hab. apply ltb_true in Hab.
    rewrite Forall_forall in Hlo, Hhi.
    pose proof (Hlo a (list_elem_of_lookup_2 _ _ _ Ha)).
    pose proof (Hlo b (list_elem_of_lookup_2 _ _ _ Hb)).
    pose proof (Hhi a (list_elem_of_lookup_2 _ _ _ Ha)).
    pose proof (Hhi b (list_elem_of_lookup_2 _ _ _ Hb)).
    assert (Rabs (a - b) <= hi - lo) by (apply Rabs_le; lra).
    lra. }
  exists lo, hi, ((λ x, (x - lo) / (hi - lo)) <$> (x :: rest)).
  split; [done|]. split; [done|]. split.
  { unfold span. simpl. f_equal. apply Hspan. }
  split; [done|]. split.
  { rewrite Hnorm. f_equal. apply list_fmap_ext. intros i y _. simpl.
    unfold Rdiv. do 2 f_equal. apply Hspan. }
  split; [done|]. split.
  - intros i Hi. rewrite list_lookup_fmap, Hi. simpl. f_equal. by field.
  - intros i Hi. rewrite list_lookup_fmap, Hi. simpl. f_equal. by field.
Qed.

(** The scores of [TestH2H], 35 against 20, become 1 and 0. *)
Lemma normalize_rescales_witness :
  ∃ lo hi s',
    (lo ∈ [35; 20] ∧ Forall (λ x, lo <= x) [35; 20])
    ∧ (hi ∈ [35; 20] ∧ Forall (λ x, x <= hi) [35; 20])
    ∧ span [35; 20] = Some (hi - lo) ∧ hi - lo ≠ 0
    ∧ normalize [35; 20] = Some s'
    ∧ s' = (λ x, (x - lo) / (hi - lo)) <$> [35; 20]
    ∧ (∀ i, [35; 20] !! i = Some lo → s' !! i = Some 0)
    ∧ (∀ i, [35; 20] !! i = Some hi → s' !! i = Some 1).
Proof.
  apply (normalize_rescales [35; 20]).
  - simpl. lia.
  - exists 0%nat, 35, 20. split; [done|]. split; [done|].
    apply ltb_true. simpl. rewrite Rabs_right; lra.
Defined.
End exact_rescale.
